(** * blitzdrill: PGN move tree, line selection and drill session

    A shallow embedding of [src/lib/chess.ts], of the handlers of
    [src/App.vue] and of the functions of its components ([MoveTree.vue],
    [ChessBoard.vue], [StudyManager.vue], [AppearanceSettings.vue]), with
    the properties of the specification, and further properties of the
    code, stated and proved over it.

    Conventions.
    - A JavaScript string is a [string]: a sequence of code units, here
      restricted to the units below 256.
    - The [MoveNode] objects of a tree live in a heap (a list, in allocation
      order); a node reference is its index, so that the [parent]
      back-references and the in-place [children.push] of [buildTree] are
      modelled with their aliasing.
    - [chess.js] is not part of the repository: the [Chess] object is an
      [Engine], a parameter of the development.
    - [Math.random] and [Date.now] are oracles. *)

From Stdlib Require Import Ascii String DecimalString.
From stdpp Require Import base option list gmap strings.

(** ** Characters and strings *)

Definition ch (c d : ascii) : bool := Ascii.eqb c d.

Definition is_digit (c : ascii) : bool :=
  let n := nat_of_ascii c in (48 <=? n)%nat && (n <=? 57)%nat.

(** The class [\s] of a JavaScript regular expression (also the characters
    removed by [String.prototype.trim]), among the code units below 256:
    tab, line feed, vertical tab, form feed, carriage return, space and
    no-break space. *)
Definition is_space (c : ascii) : bool :=
  let n := nat_of_ascii c in
  ((9 <=? n)%nat && (n <=? 13)%nat) || (n =? 32)%nat || (n =? 160)%nat.

(** JavaScript truthiness of a string: the empty string is falsy. *)
Definition truthy (s : string) : bool :=
  match s with EmptyString => false | String _ _ => true end.

Definition str1 (c : ascii) : string := String c EmptyString.

Fixpoint has_char (c : ascii) (s : string) : bool :=
  match s with
  | EmptyString => false
  | String d rest => ch c d || has_char c rest
  end.

(** ** The cleaning pre-pass of [parsePgnToTree] *)

(** [.replace(/\{[\s\S]*?\}/g, '')]: a brace and everything up to the first
    closing brace is removed; a brace that is never closed stays. *)
Fixpoint removeComments (inside : bool) (s : string) : string :=
  match s with
  | EmptyString => EmptyString
  | String c rest =>
      if inside then removeComments (negb (ch c "}")) rest
      else if ch c "{" then
        (if has_char "}" rest then removeComments true rest else s)
      else String c (removeComments false rest)
  end.

Definition starts_with_digit (s : string) : bool :=
  match s with EmptyString => false | String c _ => is_digit c end.

(** [.replace(/\$\d+/g, '')] *)
Fixpoint removeNags (dropping : bool) (s : string) : string :=
  match s with
  | EmptyString => EmptyString
  | String c rest =>
      if dropping && is_digit c then removeNags true rest
      else if ch c "$" && starts_with_digit rest then removeNags true rest
      else String c (removeNags false rest)
  end.

(** Does [s] consist of digits (possibly none) followed by a dot? *)
Fixpoint digits_then_dot (s : string) : bool :=
  match s with
  | EmptyString => false
  | String c rest => if is_digit c then digits_then_dot rest else ch c "."
  end.

Inductive numMode := Scan | Digits | Dots.

(** [.replace(/\d+\.+/g, ' ')]: a run of digits followed by a run of dots
    becomes one space. [Digits]: inside the digits of a match (the next
    non-digit is its first dot); [Dots]: inside its dots. *)
Fixpoint removeMoveNumbers (m : numMode) (s : string) : string :=
  match s with
  | EmptyString => EmptyString
  | String c rest =>
      match m with
      | Digits => removeMoveNumbers (if is_digit c then Digits else Dots) rest
      | _ =>
          if (match m with Dots => true | _ => false end) && ch c "."
          then removeMoveNumbers Dots rest
          else if is_digit c && digits_then_dot rest
          then String " " (removeMoveNumbers Digits rest)
          else String c (removeMoveNumbers Scan rest)
      end
  end.

(** [.replace(/\s+/g, ' ')] *)
Fixpoint collapseSpaces (inRun : bool) (s : string) : string :=
  match s with
  | EmptyString => EmptyString
  | String c rest =>
      if is_space c then
        (if inRun then collapseSpaces true rest
         else String " " (collapseSpaces true rest))
      else String c (collapseSpaces false rest)
  end.

(** [.replace(/1-0|0-1|1\/2-1\/2|\*/g, '')]; [skip] counts the characters
    of a match still to be dropped. *)
Fixpoint removeResults (skip : nat) (s : string) : string :=
  match s with
  | EmptyString => EmptyString
  | String c rest =>
      match skip with
      | S k => removeResults k rest
      | O =>
          if String.prefix "1-0" s then removeResults 2 rest
          else if String.prefix "0-1" s then removeResults 2 rest
          else if String.prefix "1/2-1/2" s then removeResults 6 rest
          else if ch c "*" then removeResults 0 rest
          else String c (removeResults 0 rest)
      end
  end.

Fixpoint trimStart (s : string) : string :=
  match s with
  | EmptyString => EmptyString
  | String c rest => if is_space c then trimStart rest else s
  end.

Fixpoint trimEnd (s : string) : string :=
  match s with
  | EmptyString => EmptyString
  | String c rest =>
      let r := trimEnd rest in
      if is_space c && negb (truthy r) then EmptyString else String c r
  end.

Definition trim (s : string) : string := trimEnd (trimStart s).

Definition cleanPgn (pgn : string) : string :=
  trim (removeResults 0 (collapseSpaces false
         (removeMoveNumbers Scan (removeNags false (removeComments false pgn))))).

(** ** tokenize *)

Definition is_sep (c : ascii) : bool := ch c "(" || ch c ")" || ch c " ".

(** The loop of [tokenize], from index [i] on: [str] is the rest of the
    input, [tokens] and [current] are the two local variables. *)
Fixpoint tokenize_loop (str : string) (tokens : list string) (current : string)
  : list string :=
  match str with
  | EmptyString => if truthy current then tokens ++ [current] else tokens
  | String char rest =>
      if is_sep char then
        let tokens1 := if truthy current then tokens ++ [current] else tokens in
        let tokens2 := if negb (ch char " ") then tokens1 ++ [str1 char] else tokens1 in
        tokenize_loop rest tokens2 EmptyString
      else tokenize_loop rest tokens (current +:+ str1 char)
  end.

Definition tokenize (str : string) : list string :=
  tokenize_loop str [] EmptyString.

(** ** The move-evaluation collaborator

    The [Move] objects and the [Chess] class of chess.js, as far as the
    program uses them. A call of [move] that the engine refuses throws and
    leaves the game unchanged: it is [None]. [buildTree] catches what is
    thrown, the handlers of [App.vue] do not. *)

Module Move.
Record t := mk { from : string; to : string; san : string; lan : string }.
End Move.

Record Engine := {
  Game : Type;
  new_Chess : Game;                                        (* new Chess() *)
  load_fen : string -> Game;                               (* new Chess(fen) *)
  fen_of : Game -> string;                                 (* game.fen() *)
  move_text : Game -> string -> option (Move.t * Game);    (* game.move(token) *)
  move_object : Game -> Move.t -> option (Move.t * Game);  (* game.move(node.move) *)
  move_squares : Game -> string -> string -> option (Move.t * Game);
                                   (* game.move({from, to, promotion: "q"}) *)
  undo : Game -> Game;                                     (* game.undo() *)
  turn_white : Game -> bool;                               (* game.turn() === "w" *)
}.

(** ** MoveNode and the heap of nodes *)

(** A reference to a node: its index in the heap. *)
Abbreviation handle := nat.

Module MoveNode.
Record t := mk {
  id : string;
  move : option Move.t;
  san : string;
  fen : string;
  children : list handle;
  parent : option handle;
  isMainLine : bool;
}.

(** [node.children.push(c)] *)
Definition push (c : handle) (n : t) : t :=
  mk (id n) (move n) (san n) (fen n) (children n ++ [c]) (parent n) (isMainLine n).
End MoveNode.

Abbreviation Heap := (list MoveNode.t).

(** A new node is allocated at the end of the heap and pushed on the
    children of [currentParent]: [currentParent.children.push(node)]. The
    handle of the new node is [length H]. *)
Definition attach (H : Heap) (currentParent : handle) (node : MoveNode.t) : Heap :=
  alter (MoveNode.push (length H)) currentParent (H ++ [node]).

(** The inner loop of [buildTree]: [rest] is [tokens] from index [j] on;
    the result is the value of [j] when the loop ends. *)
Fixpoint findClose (rest : list string) (j depth : nat) : nat :=
  match rest with
  | [] => j
  | t :: rest' =>
      match depth with
      | O => j
      | S _ =>
          let depth1 := if decide (t = "(") then depth + 1 else depth in
          let depth2 := if decide (t = ")") then depth1 - 1 else depth1 in
          findClose rest' (j + 1) depth2
      end
  end.

(** [tokens.slice(a, b)] for [0 <= a] and [0 <= b] *)
Definition slice {A} (l : list A) (a b : nat) : list A := take (b - a) (drop a l).

Section Program.

Context (E : Engine).

(** [random k] is the string that the [k]-th call of [generateId]
    computes from [Math.random()]. The state of the generator is the
    number of calls made so far. *)
Context (random : nat -> string).

Definition generateId (w : nat) : string * nat := (random w, S w).

Definition root_node : MoveNode.t :=
  MoveNode.mk "root" None "" (fen_of E (new_Chess E)) [] None true.

(** The outer loop of [buildTree], from index [i] on. [H] is the heap and
    [w] the generator state; the result is the returned number with the
    heap and the generator state at the return. [None]: the fuel is too
    small for the loop to end. *)
Fixpoint buildTree_loop (fuel : nat) (tokens : list string) (i : nat)
    (currentParent : handle) (game : Game E) (isMainLine : bool)
    (H : Heap) (w : nat) : option (nat * Heap * nat) :=
  match fuel with
  | O => None
  | S fuel' =>
      match tokens !! i with
      | None => Some (i, H, w)
      | Some token =>
          if decide (token = "(") then
            let j := findClose (drop (i + 1) tokens) (i + 1) 1 in
            let variationTokens := slice tokens (i + 1) (j - 1) in
            match H !! currentParent ≫= MoveNode.parent with
            | Some branchPoint =>
                match H !! branchPoint with
                | Some bp =>
                    let branchGame := load_fen E (MoveNode.fen bp) in
                    match buildTree_loop fuel' variationTokens 0 branchPoint
                            branchGame false H w with
                    | Some (_, H', w') =>
                        buildTree_loop fuel' tokens j currentParent game isMainLine H' w'
                    | None => None
                    end
                | None => None
                end
            | None => buildTree_loop fuel' tokens j currentParent game isMainLine H w
            end
          else if decide (token = ")") then Some (i + 1, H, w)
          else if negb (truthy token) then
            buildTree_loop fuel' tokens (i + 1) currentParent game isMainLine H w
          else
            match move_text E game token with
            | Some (move, game') =>
                let (id, w') := generateId w in
                let node := MoveNode.mk id (Some move) (Move.san move)
                              (fen_of E game') [] (Some currentParent) isMainLine in
                buildTree_loop fuel' tokens (i + 1) (length H) game' isMainLine
                  (attach H currentParent node) w'
            | None =>
                buildTree_loop fuel' tokens (i + 1) currentParent game isMainLine H w
            end
      end
  end.

Definition buildTree (tokens : list string) (parentNode : handle)
    (game : Game E) (isMainLine : bool) (H : Heap) (w : nat)
  : option (nat * Heap * nat) :=
  buildTree_loop (S (length tokens)) tokens 0 parentNode game isMainLine H w.

(** The root of the returned tree is the node at handle 0. *)
Definition parsePgnToTree (pgn : string) (w : nat) : option (Heap * nat) :=
  let H := [root_node] in
  let clean := cleanPgn pgn in
  if negb (truthy clean) then Some (H, w)
  else
    let tokens := tokenize clean in
    match buildTree tokens 0 (new_Chess E) true H w with
    | Some (_, H', w') => Some (H', w')
    | None => None
    end.

End Program.

(** ** Tree queries

    The recursion of the queries follows the references of the heap, which
    a list of records does not bound: each one has a fuel, and the exported
    function gives it the number of nodes of the heap. [None]: the recursion
    does not end within that (it meets a cycle or a dangling reference). *)

Fixpoint getLeafNodes_fuel (fuel : nat) (H : Heap) (node : handle)
  : option (list handle) :=
  match fuel with
  | O => None
  | S fuel' =>
      match H !! node with
      | None => None
      | Some n =>
          if decide (length (MoveNode.children n) = 0) then Some [node]
          else @concat handle <$> mapM (getLeafNodes_fuel fuel' H) (MoveNode.children n)
      end
  end.

Definition getLeafNodes (H : Heap) (node : handle) : option (list handle) :=
  getLeafNodes_fuel (length H) H node.

(** The [while (current && current.move)] loop of [getAllLines] *)
Fixpoint lineOf_fuel (fuel : nat) (H : Heap) (current : option handle)
    (line : list handle) : option (list handle) :=
  match fuel with
  | O => None
  | S fuel' =>
      match current with
      | None => Some line
      | Some c =>
          match H !! c with
          | None => None
          | Some n =>
              match MoveNode.move n with
              | None => Some line
              | Some _ => lineOf_fuel fuel' H (MoveNode.parent n) (c :: line)
              end
          end
      end
  end.

Definition getAllLines (H : Heap) (root : handle) : option (list (list handle)) :=
  match getLeafNodes H root with
  | None => None
  | Some leaves => mapM (fun leaf => lineOf_fuel (S (length H)) H (Some leaf) []) leaves
  end.

(** The [while (current)] loop of [getPathToNode] *)
Fixpoint pathTo_fuel (fuel : nat) (H : Heap) (current : option handle)
    (path : list handle) : option (list handle) :=
  match fuel with
  | O => None
  | S fuel' =>
      match current with
      | None => Some path
      | Some c =>
          match H !! c with
          | None => None
          | Some n => pathTo_fuel fuel' H (MoveNode.parent n) (c :: path)
          end
      end
  end.

Definition getPathToNode (H : Heap) (node : handle) : option (list handle) :=
  pathTo_fuel (S (length H)) H (Some node) [].

(** [line[line.length - 1]?.id] *)
Definition lastId (H : Heap) (line : list handle) : option string :=
  match last line with
  | None => None
  | Some leaf => MoveNode.id <$> H !! leaf
  end.

(** [leafId && !completedLines.has(leafId)] *)
Definition unplayed (H : Heap) (completedLines : gset string) (line : list handle) : bool :=
  match lastId H line with
  | None => false
  | Some leafId => truthy leafId && bool_decide (leafId ∉ completedLines)
  end.

(** The [for] loop of [findNextUnplayedLine] *)
Fixpoint firstUnplayed (H : Heap) (completedLines : gset string)
    (allLines : list (list handle)) : option (list handle) :=
  match allLines with
  | [] => None
  | line :: rest =>
      if unplayed H completedLines line then Some line
      else firstUnplayed H completedLines rest
  end.

(** The outer option is the termination of [getAllLines], the inner one is
    the result: a line or [null]. *)
Definition findNextUnplayedLine (H : Heap) (root : handle)
    (completedLines : gset string) : option (option (list handle)) :=
  firstUnplayed H completedLines <$> getAllLines H root.

(** ** The drill session of [App.vue] *)

Inductive AppMode := edit | drill.
Inductive PlayerColor := white | black.
Inductive Feedback := correct | variation | wrong.

(** The callbacks that the handlers pass to [setTimeout]. *)
Inductive Callback :=
| cb_startNextLine
| cb_playOpponentMove
| cb_clearFeedback          (* [() => { feedback.value = null }] *)
| cb_opponentUnlessPlayer.  (* [() => { if (!isPlayerTurn()) playOpponentMove() }] *)

Section Session.

Context (E : Engine).

(** The refs of the component, the pending timeouts (callback and delay)
    and the alerts shown. The tree is the heap of [moveTree.value], its
    root at handle 0. *)
Record App := mkApp {
  mode : AppMode;
  playerColor : PlayerColor;
  moveTree : option Heap;
  currentNode : option handle;
  completedLines : gset string;
  currentTargetLine : list handle;
  currentTargetIndex : nat;
  game : Game E;
  gameVersion : nat;
  feedback : option Feedback;
  lastMove : list string;
  timeouts : list (Callback * nat);
  alerts : list string;
}.

Definition set_mode v s := mkApp v (playerColor s) (moveTree s) (currentNode s)
  (completedLines s) (currentTargetLine s) (currentTargetIndex s) (game s)
  (gameVersion s) (feedback s) (lastMove s) (timeouts s) (alerts s).
Definition set_currentNode v s := mkApp (mode s) (playerColor s) (moveTree s) v
  (completedLines s) (currentTargetLine s) (currentTargetIndex s) (game s)
  (gameVersion s) (feedback s) (lastMove s) (timeouts s) (alerts s).
Definition set_completedLines v s := mkApp (mode s) (playerColor s) (moveTree s)
  (currentNode s) v (currentTargetLine s) (currentTargetIndex s) (game s)
  (gameVersion s) (feedback s) (lastMove s) (timeouts s) (alerts s).
Definition set_currentTargetLine v s := mkApp (mode s) (playerColor s) (moveTree s)
  (currentNode s) (completedLines s) v (currentTargetIndex s) (game s)
  (gameVersion s) (feedback s) (lastMove s) (timeouts s) (alerts s).
Definition set_currentTargetIndex v s := mkApp (mode s) (playerColor s) (moveTree s)
  (currentNode s) (completedLines s) (currentTargetLine s) v (game s)
  (gameVersion s) (feedback s) (lastMove s) (timeouts s) (alerts s).
Definition set_game v s := mkApp (mode s) (playerColor s) (moveTree s)
  (currentNode s) (completedLines s) (currentTargetLine s) (currentTargetIndex s) v
  (gameVersion s) (feedback s) (lastMove s) (timeouts s) (alerts s).
Definition set_gameVersion v s := mkApp (mode s) (playerColor s) (moveTree s)
  (currentNode s) (completedLines s) (currentTargetLine s) (currentTargetIndex s)
  (game s) v (feedback s) (lastMove s) (timeouts s) (alerts s).
Definition set_feedback v s := mkApp (mode s) (playerColor s) (moveTree s)
  (currentNode s) (completedLines s) (currentTargetLine s) (currentTargetIndex s)
  (game s) (gameVersion s) v (lastMove s) (timeouts s) (alerts s).
Definition set_lastMove v s := mkApp (mode s) (playerColor s) (moveTree s)
  (currentNode s) (completedLines s) (currentTargetLine s) (currentTargetIndex s)
  (game s) (gameVersion s) (feedback s) v (timeouts s) (alerts s).
Definition set_timeouts v s := mkApp (mode s) (playerColor s) (moveTree s)
  (currentNode s) (completedLines s) (currentTargetLine s) (currentTargetIndex s)
  (game s) (gameVersion s) (feedback s) (lastMove s) v (alerts s).
Definition set_alerts v s := mkApp (mode s) (playerColor s) (moveTree s)
  (currentNode s) (completedLines s) (currentTargetLine s) (currentTargetIndex s)
  (game s) (gameVersion s) (feedback s) (lastMove s) (timeouts s) v.

Definition setTimeout (cb : Callback) (delay : nat) (s : App) : App :=
  set_timeouts (timeouts s ++ [(cb, delay)]) s.

Definition updateGame (s : App) : App := set_gameVersion (gameVersion s + 1) s.

Definition is_clearFeedback (t : Callback * nat) : bool :=
  match fst t with cb_clearFeedback => true | _ => false end.

(** [clearTimeout(feedbackTimer)] drops the pending expiry, if any. *)
Definition showFeedback (type : Feedback) (s : App) : App :=
  let s1 := set_feedback (Some type) s in
  let s2 := set_timeouts (filter (fun t => negb (is_clearFeedback t)) (timeouts s1)) s1 in
  setTimeout cb_clearFeedback 800 s2.

Definition isPlayerTurn (s : App) : bool :=
  match playerColor s with
  | white => turn_white E (game s)
  | black => negb (turn_white E (game s))
  end.

Definition tree (s : App) : Heap := default [] (moveTree s).

Definition childrenOf (H : Heap) (h : handle) : list handle :=
  default [] (MoveNode.children <$> H !! h).

Definition getCurrentExpectedMoves (s : App) : list handle :=
  match moveTree s with
  | None => []
  | Some H =>
      match currentNode s with
      | None => childrenOf H 0
      | Some c => childrenOf H c
      end
  end.

(** [n.move?.lan === move.lan] *)
Definition lanMatches (H : Heap) (move : Move.t) (n : handle) : bool :=
  match H !! n ≫= MoveNode.move with
  | Some m => String.eqb (Move.lan m) (Move.lan move)
  | None => false
  end.

Definition startNextLine (s : App) : option App :=
  match moveTree s with
  | None => Some s
  | Some H =>
      match findNextUnplayedLine H 0 (completedLines s) with
      | None => None
      | Some nextLine =>
          match nextLine with
          | None | Some [] =>
              Some (set_mode edit
                (set_alerts (alerts s ++ ["Congratulations! You completed all variations!"]) s))
          | Some line =>
              Some (setTimeout cb_opponentUnlessPlayer 300
                (updateGame (set_lastMove [] (set_currentNode None
                  (set_game (new_Chess E) (set_currentTargetIndex 0
                    (set_currentTargetLine line s)))))))
          end
      end
  end.

(** [node.id] of a node of the tree *)
Definition idOf (H : Heap) (h : handle) : string :=
  default EmptyString (MoveNode.id <$> H !! h).

(** [playOpponentMove()]. [game.value.move] is called outside any [try]:
    on a move that the engine refuses it throws, before anything is
    assigned; this is the result [None]. *)
Definition playOpponentMove (s : App) : option App :=
  if decide (length (currentTargetLine s) <= currentTargetIndex s) then
    let s1 := match currentNode s with
              | Some c => set_completedLines ({[idOf (tree s) c]} ∪ completedLines s) s
              | None => s
              end in
    Some (setTimeout cb_startNextLine 500 s1)
  else
    match currentTargetLine s !! currentTargetIndex s with
    | Some nextMoveNode =>
        match tree s !! nextMoveNode ≫= MoveNode.move with
        | Some m =>
            match move_object E (game s) m with
            | Some (_, g') =>
                let s1 := updateGame (set_currentTargetIndex (currentTargetIndex s + 1)
                            (set_lastMove [Move.from m; Move.to m]
                              (set_currentNode (Some nextMoveNode) (set_game g' s)))) in
                if decide (currentTargetIndex s1 = length (currentTargetLine s1)) then
                  Some (setTimeout cb_startNextLine 800
                    (set_completedLines
                       ({[idOf (tree s1) nextMoveNode]} ∪ completedLines s1) s1))
                else Some s1
            | None => None
            end
        | None => Some s
        end
    | None => Some s
    end.

(** The local function [markVariationComplete] of [handleMove]; the result
    is the new value of [completedLines]. *)
Fixpoint markVariationComplete (fuel : nat) (H : Heap)
    (completed : gset string) (node : handle) : option (gset string) :=
  match fuel with
  | O => None
  | S fuel' =>
      match H !! node with
      | None => None
      | Some n =>
          match MoveNode.children n with
          | [] => Some ({[MoveNode.id n]} ∪ completed)
          | c :: _ => markVariationComplete fuel' H completed c
          end
      end
  end.

(** [targetNode && targetNode.move?.lan === move.lan] *)
Definition onTarget (move : Move.t) (s : App) : option handle :=
  match currentTargetLine s !! currentTargetIndex s with
  | Some targetNode =>
      if lanMatches (tree s) move targetNode then Some targetNode else None
  | None => None
  end.

(** [handleMove(orig, dest)]; [None]: the call does not return. In both
    modes [game.value.move] is called outside any [try]: on a move that the
    engine refuses it throws, before anything is assigned, so that the tests
    [if (move)] and [if (!move) return] never see a refused move. (The
    other way not to return, a recursion of [markVariationComplete] without
    end, needs a tree that is not well formed.) *)
Definition handleMove (orig dest : string) (s : App) : option App :=
  match mode s with
  | edit =>
      match move_squares E (game s) orig dest with
      | Some (move, g') =>
          let s1 := set_game g' s in
          let matchingNode := find (lanMatches (tree s1) move) (getCurrentExpectedMoves s1) in
          Some (updateGame (set_lastMove [orig; dest] (set_currentNode matchingNode s1)))
      | None => None
      end
  | drill =>
      match move_squares E (game s) orig dest with
      | None => None
      | Some (move, g') =>
          let s1 := set_game g' s in
          match onTarget move s1 with
          | Some targetNode =>
              let s2 := updateGame (set_currentTargetIndex (currentTargetIndex s1 + 1)
                          (set_lastMove [orig; dest]
                            (set_currentNode (Some targetNode) (showFeedback correct s1)))) in
              if decide (currentTargetIndex s2 = length (currentTargetLine s2)) then
                Some (setTimeout cb_startNextLine 800
                  (set_completedLines
                     ({[idOf (tree s2) targetNode]} ∪ completedLines s2) s2))
              else Some (setTimeout cb_playOpponentMove 500 s2)
          | None =>
              let expectedMoves := getCurrentExpectedMoves s1 in
              match find (lanMatches (tree s1) move) expectedMoves with
              | Some matchingNode =>
                  let s2 := updateGame (set_lastMove [orig; dest]
                              (set_currentNode (Some matchingNode)
                                (showFeedback variation s1))) in
                  match markVariationComplete (length (tree s2)) (tree s2)
                          (completedLines s2) matchingNode with
                  | Some completed =>
                      Some (setTimeout cb_startNextLine 1000
                              (set_completedLines completed s2))
                  | None => None
                  end
              | None =>
                  let s2 := showFeedback wrong s1 in
                  Some (updateGame (set_game (undo E (game s2)) s2))
              end
          end
      end
  end.

End Session.

Arguments mkApp {E}.
Arguments mode {E}.
Arguments playerColor {E}.
Arguments moveTree {E}.
Arguments currentNode {E}.
Arguments completedLines {E}.
Arguments currentTargetLine {E}.
Arguments currentTargetIndex {E}.
Arguments game {E}.
Arguments gameVersion {E}.
Arguments feedback {E}.
Arguments lastMove {E}.
Arguments timeouts {E}.
Arguments alerts {E}.
Arguments set_mode {E}.
Arguments set_currentNode {E}.
Arguments set_completedLines {E}.
Arguments set_currentTargetLine {E}.
Arguments set_currentTargetIndex {E}.
Arguments set_game {E}.
Arguments set_gameVersion {E}.
Arguments set_feedback {E}.
Arguments set_lastMove {E}.
Arguments set_timeouts {E}.
Arguments set_alerts {E}.
Arguments setTimeout {E}.
Arguments updateGame {E}.
Arguments showFeedback {E}.
Arguments isPlayerTurn {E}.
Arguments tree {E}.
Arguments getCurrentExpectedMoves {E}.
Arguments startNextLine {E}.
Arguments playOpponentMove {E}.
Arguments onTarget {E}.
Arguments handleMove {E}.

(** ** Studies *)

Module Study.
Record t := mk {
  id : string;
  name : string;
  pgn : string;
  defaultColor : PlayerColor;
  createdAt : Z;
  updatedAt : Z;
}.

(** [Partial<Study>]: [None] is an absent property. *)
Record partial := mkPartial {
  id' : option string;
  name' : option string;
  pgn' : option string;
  defaultColor' : option PlayerColor;
  createdAt' : option Z;
  updatedAt' : option Z;
}.

(** A [Study] passed where a [Partial<Study>] is expected. *)
Definition whole (s : t) : partial :=
  mkPartial (Some (id s)) (Some (name s)) (Some (pgn s)) (Some (defaultColor s))
    (Some (createdAt s)) (Some (updatedAt s)).
End Study.

(** [{ ...study, ...updates, updatedAt: Date.now() }]; [now] is the value
    of [Date.now()]. *)
Definition updateStudy (now : Z) (study : Study.t) (updates : Study.partial) : Study.t :=
  Study.mk
    (default (Study.id study) (Study.id' updates))
    (default (Study.name study) (Study.name' updates))
    (default (Study.pgn study) (Study.pgn' updates))
    (default (Study.defaultColor study) (Study.defaultColor' updates))
    (default (Study.createdAt study) (Study.createdAt' updates))
    now.

(** The payload of the [update] event of [saveEdit]:
    [{ ...editingStudy, name: editName.trim(), pgn: editPgn.trim(),
       defaultColor: editColor }] *)
Definition saveEdit_payload (editingStudy : Study.t) (editName editPgn : string)
    (editColor : PlayerColor) : Study.t :=
  Study.mk (Study.id editingStudy) (trim editName) (trim editPgn) editColor
    (Study.createdAt editingStudy) (Study.updatedAt editingStudy).

(** The new value of [studies] in [handleUpdateStudy]:
    [studies.map((s) => s.id === study.id ? updateStudy(s, study) : s)] *)
Definition handleUpdateStudy (now : Z) (studies : list Study.t) (study : Study.t)
  : list Study.t :=
  (fun s => if String.eqb (Study.id s) (Study.id study)
            then updateStudy now s (Study.whole study) else s) <$> studies.

(** ** A small engine: an opening book

    A table of positions (FEN strings) and of the moves known from each of
    them; a game is the stack of the positions it went through. It stands
    for chess.js where a concrete engine is needed. *)

Module Book.

Definition start : string := "rnbqkbnr/pppppppp/8/8/8/8/PPPPPPPP/RNBQKBNR w KQkq - 0 1".
Definition e4 : string := "rnbqkbnr/pppppppp/8/8/4P3/8/PPPP1PPP/RNBQKBNR b KQkq - 0 1".
Definition e4e5 : string := "rnbqkbnr/pppp1ppp/8/4p3/4P3/8/PPPP1PPP/RNBQKBNR w KQkq - 0 2".
Definition e4e5Nf3 : string := "rnbqkbnr/pppp1ppp/8/4p3/4P3/5N2/PPPP1PPP/RNBQKB1R b KQkq - 1 2".
Definition d4 : string := "rnbqkbnr/pppppppp/8/8/3P4/8/PPP1PPPP/RNBQKBNR b KQkq - 0 1".
Definition d4d5 : string := "rnbqkbnr/ppp1pppp/8/3p4/3P4/8/PPP1PPPP/RNBQKBNR w KQkq - 0 2".

Definition m_e4 := Move.mk "e2" "e4" "e4" "e2e4".
Definition m_e5 := Move.mk "e7" "e5" "e5" "e7e5".
Definition m_Nf3 := Move.mk "g1" "f3" "Nf3" "g1f3".
Definition m_d4 := Move.mk "d2" "d4" "d4" "d2d4".
Definition m_d5 := Move.mk "d7" "d5" "d5" "d7d5".

(** position before, move, position after *)
Definition table : list (string * Move.t * string) :=
  [ (start, m_e4, e4); (start, m_d4, d4); (e4, m_e5, e4e5);
    (e4e5, m_Nf3, e4e5Nf3); (d4, m_d5, d4d5) ].

Definition game := list string.

Definition top (g : game) : string := default start (head g).

Definition play (sel : Move.t -> bool) (g : game) : option (Move.t * game) :=
  match find (fun e => String.eqb (fst (fst e)) (top g) && sel (snd (fst e))) table with
  | Some (_, m, after) => Some (m, after :: g)
  | None => None
  end.

Definition back (g : game) : game := tail g.

Definition white_to_move (g : game) : bool :=
  match String.index 0 " w " (top g) with Some _ => true | None => false end.

Definition engine : Engine := {|
  Game := game;
  new_Chess := [start];
  load_fen := fun f => [f];
  fen_of := top;
  move_text := fun g token => play (fun m => String.eqb (Move.san m) token) g;
  move_object := fun g m0 => play (fun m => String.eqb (Move.lan m) (Move.lan m0)) g;
  move_squares := fun g orig dest =>
    play (fun m => String.eqb (Move.from m) orig && String.eqb (Move.to m) dest) g;
  undo := back;
  turn_white := white_to_move;
|}.

(** A generator whose results are pairwise distinct and not empty. *)
Fixpoint tally (k : nat) : string :=
  match k with O => "n" | S k' => String "i" (tally k') end.

(** A generator that returns the empty string (as [generateId] does when
    [Math.random()] is 0). *)
Definition blank (k : nat) : string := EmptyString.

(** The tree of "1. e4 (1. d4 d5) e5". *)
Definition tree_variation : Heap :=
  Eval vm_compute in
    default [] (fst <$> parsePgnToTree engine tally "1. e4 (1. d4 d5) e5" 0).

(** A drill session on [H] with the white pieces, at the start of the
    line [line]. *)
Definition session (H : Heap) (line : list handle) : App engine :=
  mkApp (E := engine) drill white (Some H) None ∅ line 0 [start] 0 None [] [] [].

(** The tree of "1. e4 e5 2. Nf3". *)
Definition tree_main : Heap :=
  Eval vm_compute in
    default [] (fst <$> parsePgnToTree engine tally "1. e4 e5 2. Nf3" 0).

(** The tree of "1. e4" when the generator returns the empty string. *)
Definition tree_blank : Heap :=
  Eval vm_compute in default [] (fst <$> parsePgnToTree engine blank "1. e4" 0).

End Book.


(** * Specification predicates *)

(** ** Tokens *)

Fixpoint no_sep (s : string) : bool :=
  match s with
  | EmptyString => true
  | String c rest => negb (is_sep c) && no_sep rest
  end.

(** A token is a parenthesis or a non-empty text without space and
    parenthesis. *)
Definition token_ok (t : string) : Prop :=
  t = "(" \/ t = ")" \/ (t <> EmptyString /\ no_sep t = true).

Fixpoint remove_spaces (s : string) : string :=
  match s with
  | EmptyString => EmptyString
  | String c rest => if ch c " " then remove_spaces rest else String c (remove_spaces rest)
  end.

(** [tokens.join("")] *)
Fixpoint join (tokens : list string) : string :=
  match tokens with
  | [] => EmptyString
  | t :: rest => t +:+ join rest
  end.

(** ** Well-formed heaps

    The shape that [buildTree] maintains: the node at handle 0 is the root;
    the children of a node are allocated after it and point back to it;
    every other node carries a move and is a child of its parent. *)
Record wf_heap (H : Heap) : Prop := {
  wf_root : exists r, H !! 0 = Some r /\ MoveNode.parent r = None /\ MoveNode.move r = None;
  wf_down : forall p n c,
    H !! p = Some n -> c ∈ MoveNode.children n ->
    p < c /\ exists nc, H !! c = Some nc /\ MoveNode.parent nc = Some p;
  wf_up : forall c nc,
    H !! c = Some nc -> c <> 0 ->
    is_Some (MoveNode.move nc) /\
    exists p np, MoveNode.parent nc = Some p /\ H !! p = Some np /\ c ∈ MoveNode.children np;
}.

(** [n'] is [n] after some [children.push]. *)
Definition node_le (n n' : MoveNode.t) : Prop :=
  MoveNode.id n' = MoveNode.id n /\ MoveNode.move n' = MoveNode.move n /\
  MoveNode.san n' = MoveNode.san n /\ MoveNode.fen n' = MoveNode.fen n /\
  MoveNode.parent n' = MoveNode.parent n /\
  MoveNode.isMainLine n' = MoveNode.isMainLine n /\
  MoveNode.children n `prefix_of` MoveNode.children n'.

Definition extends (H H' : Heap) : Prop :=
  length H <= length H' /\
  forall h n, H !! h = Some n -> exists n', H' !! h = Some n' /\ node_le n n'.

(** The depth of a node: the number of [children] links from the root. *)
Inductive at_depth (H : Heap) : handle -> nat -> Prop :=
| depth_root : at_depth H 0 0
| depth_child p n c d :
    at_depth H p d -> H !! p = Some n -> c ∈ MoveNode.children n ->
    at_depth H c (S d).

(** [leaf] ends the chain of first children that starts at [h]. *)
Inductive first_child_leaf (H : Heap) : handle -> handle -> Prop :=
| fcl_leaf h n :
    H !! h = Some n -> MoveNode.children n = [] -> first_child_leaf H h h
| fcl_step h n c rest leaf :
    H !! h = Some n -> MoveNode.children n = c :: rest ->
    first_child_leaf H c leaf -> first_child_leaf H h leaf.

(** [line] is the sequence of nodes from the first move down to [c]: the
    path from the root to [c] along [children] links, without the root. *)
Inductive line_to (H : Heap) : handle -> list handle -> Prop :=
| line_root : line_to H 0 []
| line_child p line n c :
    line_to H p line -> H !! p = Some n -> c ∈ MoveNode.children n ->
    line_to H c (line ++ [c]).

(** The terminal leaf of [line] has an identity that is not empty and not
    in the completed set. *)
Definition line_unplayed (H : Heap) (completed : gset string) (line : list handle) : Prop :=
  exists leaf n, last line = Some leaf /\ H !! leaf = Some n /\
    MoveNode.id n <> EmptyString /\ MoveNode.id n ∉ completed.

(** The terminal leaf of [line] has an identity that is not in the
    completed set. *)
Definition line_uncompleted (H : Heap) (completed : gset string) (line : list handle) : Prop :=
  exists leaf n, last line = Some leaf /\ H !! leaf = Some n /\
    MoveNode.id n ∉ completed.

(** Corresponding nodes of two heaps have different identities. *)
Definition identities_differ (H1 H2 : Heap) : Prop :=
  forall k n1 n2, H1 !! k = Some n1 -> H2 !! k = Some n2 -> MoveNode.id n1 <> MoveNode.id n2.

(** No node of [H1] but the root shares its identity with a node of [H2]
    other than the root. *)
Definition identities_differ_below_root (H1 H2 : Heap) : Prop :=
  forall i j n1 n2,
    H1 !! S i = Some n1 -> H2 !! S j = Some n2 -> MoveNode.id n1 <> MoveNode.id n2.

(** A node without its identity. *)
Definition erase_id (n : MoveNode.t) : MoveNode.t :=
  MoveNode.mk EmptyString (MoveNode.move n) (MoveNode.san n) (MoveNode.fen n)
    (MoveNode.children n) (MoveNode.parent n) (MoveNode.isMainLine n).

(** Two heaps hold the same tree, node for node in allocation order: same
    moves and notations, same positions, same children and parents, same
    main-line flags. *)
Definition same_structure (H1 H2 : Heap) : Prop :=
  erase_id <$> H1 = erase_id <$> H2.

(** [res] is the first element of [lines] that satisfies [P], or [None] when
    there is none. *)
Definition first_where {A} (P : A -> Prop) (lines : list A) (res : option A) : Prop :=
  match res with
  | Some line =>
      exists k, lines !! k = Some line /\ P line /\
        forall k' line', k' < k -> lines !! k' = Some line' -> ~ P line'
  | None => forall line, line ∈ lines -> ~ P line
  end.

Section Growth.

Context (E : Engine) (random : nat -> string).

(** The games that [buildTree] holds while it attaches under a node whose
    position is [f]: a game that prints [f], or a game loaded from [f]. *)
Definition sits (f : string) (g : Game E) : Prop :=
  fen_of E g = f \/ g = load_fen E f.

(** One successful token: a node for the move is attached under [cur]. *)
Inductive attach_step : Heap * nat -> Heap * nat -> Prop :=
| Attach_step H w cur ncur g token m g' main :
    H !! cur = Some ncur ->
    sits (MoveNode.fen ncur) g ->
    move_text E g token = Some (m, g') ->
    attach_step (H, w)
      (attach H cur (MoveNode.mk (random w) (Some m) (Move.san m) (fen_of E g')
                       [] (Some cur) main), S w).

Definition grows : Heap * nat -> Heap * nat -> Prop := rtc attach_step.

(** Identities: the node at handle [k + 1] got the result of call
    [w0 + k] of the generator. *)
Definition ids_from (w0 : nat) (st : Heap * nat) : Prop :=
  S (snd st) = w0 + length (fst st) /\
  forall k n, fst st !! S k = Some n -> MoveNode.id n = random (w0 + k).

(** The move object [m], played in any game at position [f], succeeds
    and leads to position [f']. *)
Definition applies (f : string) (m : Move.t) (f' : string) : Prop :=
  forall g, fen_of E g = f ->
    exists m' g', move_object E g m = Some (m', g') /\ fen_of E g' = f'.

(** The position of a node is a position of the engine, and it is where
    the move of the node leads from the position of the parent. *)
Definition positions_ok (H : Heap) : Prop :=
  forall c nc, H !! c = Some nc ->
    (exists g, fen_of E g = MoveNode.fen nc) /\
    (c <> 0 -> exists p np m,
       MoveNode.parent nc = Some p /\ H !! p = Some np /\
       MoveNode.move nc = Some m /\ MoveNode.san nc = Move.san m /\
       applies (MoveNode.fen np) m (MoveNode.fen nc)).

(** The contract of the engine that the positions rely on: a position
    that the engine printed can be loaded back, and a move that the engine
    returned for a token can be played again, as an object, in any game
    at the same position, with the same result. *)
Definition engine_laws : Prop :=
  (forall g, fen_of E (load_fen E (fen_of E g)) = fen_of E g) /\
  (forall g token m g',
      move_text E g token = Some (m, g') -> applies (fen_of E g) m (fen_of E g')).

(** The node that [buildTree] creates with the result [w] of the
    generator for the move [m] that led to the game [g]. *)
Definition node_of (w : nat) (m : Move.t) (g : Game E) (children : list handle)
    (parent : handle) (main : bool) : MoveNode.t :=
  MoveNode.mk (random w) (Some m) (Move.san m) (fen_of E g) children (Some parent) main.

Definition root_with (children : list handle) : MoveNode.t :=
  MoveNode.mk "root" None "" (fen_of E (new_Chess E)) children None true.

(** The result of [buildTree] with [k] added to the returned index. *)
Definition shift (k : nat) (r : option (nat * Heap * nat)) : option (nat * Heap * nat) :=
  (fun x => (k + x.1.1, x.1.2, x.2)) <$> r.

(** The contract of [undo]: after a move, it gives back the position
    before the move. *)
Definition undo_law : Prop :=
  forall g orig dest m g',
    move_squares E g orig dest = Some (m, g') -> fen_of E (undo E g') = fen_of E g.

(** The loop of [navigateToNode]: the moves of the nodes of [path] are
    played in order. [None]: a move is refused. *)
Fixpoint replay (H : Heap) (g : Game E) (path : list handle) : option (Game E) :=
  match path with
  | [] => Some g
  | n :: rest =>
      match H !! n ≫= MoveNode.move with
      | None => replay H g rest
      | Some m =>
          match move_object E g m with
          | Some (_, g') => replay H g' rest
          | None => None
          end
      end
  end.

End Growth.

(** * Further functions of the program *)

(** The [for] loop of [findNodeById]: the first child in which [find]
    finds a node. *)
Fixpoint firstFound (find : handle -> option (option handle)) (children : list handle)
  : option (option handle) :=
  match children with
  | [] => Some None
  | child :: rest =>
      match find child with
      | None => None
      | Some (Some found) => Some (Some found)
      | Some None => firstFound find rest
      end
  end.

(** The outer option is the termination, the inner one the result: a node
    or [null]. *)
Fixpoint findNodeById_fuel (fuel : nat) (H : Heap) (root : handle) (id : string)
  : option (option handle) :=
  match fuel with
  | O => None
  | S fuel' =>
      match H !! root with
      | None => None
      | Some n =>
          if decide (MoveNode.id n = id) then Some (Some root)
          else firstFound (fun child => findNodeById_fuel fuel' H child id)
                 (MoveNode.children n)
      end
  end.

Definition findNodeById (H : Heap) (root : handle) (id : string)
  : option (option handle) :=
  findNodeById_fuel (length H) H root id.

(** [createStudy(name, pgn, defaultColor)]; [now] is the value of
    [Date.now()], [w] the number of calls of the generator so far. *)
Definition createStudy (random : nat -> string) (now : Z) (name pgn : string)
    (defaultColor : PlayerColor) (w : nat) : Study.t * nat :=
  let '(id, w') := generateId random w in
  (Study.mk id name pgn defaultColor now now, w').

(** [studies.filter((s) => s.id !== id)] *)
Definition deleteStudy (studies : list Study.t) (id : string) : list Study.t :=
  List.filter (fun s => negb (String.eqb (Study.id s) id)) studies.

Section Handlers.

Context (E : Engine).

(** [playerColor = 'white'], [playerColor = 'black'] of the template *)
Definition set_playerColor (v : PlayerColor) (s : App E) : App E :=
  mkApp (mode s) v (moveTree s) (currentNode s) (completedLines s)
    (currentTargetLine s) (currentTargetIndex s) (game s) (gameVersion s)
    (feedback s) (lastMove s) (timeouts s) (alerts s).

Definition set_moveTree (v : option Heap) (s : App E) : App E :=
  mkApp (mode s) (playerColor s) v (currentNode s) (completedLines s)
    (currentTargetLine s) (currentTargetIndex s) (game s) (gameVersion s)
    (feedback s) (lastMove s) (timeouts s) (alerts s).

(** [completedCount] *)
Definition completedCount (s : App E) : nat := size (completedLines s).

Definition resetBoard (s : App E) : App E :=
  updateGame (set_currentNode None (set_feedback None (set_lastMove []
    (set_game (new_Chess E) s)))).

(** How a handler ends: it returns, or a call of the engine throws and the
    handler is left with the state reached so far. *)
Inductive Completion :=
| finished (s : App E)
| thrown (s : App E).

(** The [for] loop of [navigateToNode]. *)
Fixpoint playPath (H : Heap) (path : list handle) (s : App E) : Completion :=
  match path with
  | [] => finished s
  | n :: rest =>
      match H !! n ≫= MoveNode.move with
      | None => playPath H rest s
      | Some m =>
          match move_object E (game s) m with
          | Some (_, g') =>
              playPath H rest (set_lastMove [Move.from m; Move.to m] (set_game g' s))
          | None => thrown s
          end
      end
  end.

(** [navigateToNode(node)]; [None]: [getPathToNode] does not return. *)
Definition navigateToNode (node : handle) (s : App E) : option Completion :=
  match mode s with
  | drill => Some (finished s)
  | edit =>
      let s1 := set_currentNode (Some node) s in
      match getPathToNode (tree s1) node with
      | None => None
      | Some path =>
          let s2 := set_lastMove [] (set_game (new_Chess E) s1) in
          match playPath (tree s2) path s2 with
          | finished s3 => Some (finished (updateGame s3))
          | thrown s3 => Some (thrown s3)
          end
      end
  end.

Definition startDrill (s : App E) : option (App E) :=
  match moveTree s with
  | None => Some s
  | Some _ => startNextLine (set_completedLines ∅ (set_mode drill s))
  end.

Definition resetDrill (s : App E) : option (App E) :=
  startNextLine (set_completedLines ∅ s).

(** What a callback passed to [setTimeout] does when it runs; [None]: it
    does not return (of the callbacks of the opponent: the engine throws). *)
Definition runCallback (cb : Callback) (s : App E) : option (App E) :=
  match cb with
  | cb_startNextLine => startNextLine s
  | cb_playOpponentMove => playOpponentMove s
  | cb_clearFeedback => Some (set_feedback None s)
  | cb_opponentUnlessPlayer =>
      if isPlayerTurn s then Some s else playOpponentMove s
  end.

(** [a === b] on colours. *)
Definition color_eqb (a b : PlayerColor) : bool :=
  match a, b with
  | white, white | black, black => true
  | _, _ => false
  end.

(** [movableColor]; [None] is ["none"]. *)
Definition movableColor (s : App E) : option PlayerColor :=
  let currentTurn := if turn_white E (game s) then white else black in
  match mode s with
  | edit => Some currentTurn
  | drill => if color_eqb currentTurn (playerColor s) then Some (playerColor s) else None
  end.

Section Board.

(** [game.moves({ verbose: true })] *)
Context (moves : Game E -> list Move.t).

(** The body of the [forEach] of [dests]. *)
Definition addDest (d : gmap string (list string)) (m : Move.t)
  : gmap string (list string) :=
  match d !! Move.from m with
  | Some tos => <[Move.from m := tos ++ [Move.to m]]> d
  | None => <[Move.from m := [Move.to m]]> d
  end.

Definition dests (s : App E) : gmap string (list string) :=
  match mode s with
  | drill => if negb (isPlayerTurn s) then ∅ else foldl addDest ∅ (moves (game s))
  | edit => foldl addDest ∅ (moves (game s))
  end.

End Board.

End Handlers.

Arguments finished {E}.
Arguments thrown {E}.
Arguments set_playerColor {E}.
Arguments set_moveTree {E}.
Arguments completedCount {E}.
Arguments resetBoard {E}.
Arguments playPath {E}.
Arguments navigateToNode {E}.
Arguments startDrill {E}.
Arguments resetDrill {E}.
Arguments runCallback {E}.
Arguments movableColor {E}.
Arguments dests {E}.

(** ** The studies of [App.vue] *)

Module Page.
Section Page.

Context (E : Engine) (random : nat -> string).

(** The session, the refs of [App.vue] that it does not hold, and the
    number of calls of the identity generator so far. *)
Record t := mk {
  app : App E;
  studies : list Study.t;
  currentStudy : option Study.t;
  totalLines : nat;
  calls : nat;
}.

(** The page once mounted: [stored] is what [loadStudies()] returned. *)
Definition mounted (stored : list Study.t) : t :=
  mk (mkApp edit white None None ∅ [] 0 (new_Chess E) 0 None [] [] [])
     stored None 0 0.

(** [loadStudyTree(study)]. The refs that it does not assign keep their
    values: after a second load, [currentTargetLine] still holds the nodes
    of the former tree. Here the nodes are handles, which [handleMove] and
    [playOpponentMove] read in the heap of [moveTree], where the program
    reads the objects of the former tree: the handlers of a session follow
    the program on one loaded tree, and what is stated across two loads
    reads no node through a handle kept from the former tree. *)
Definition loadStudyTree (study : Study.t) (p : t) : option t :=
  match parsePgnToTree E random (Study.pgn study) (calls p) with
  | None => None
  | Some (tree, w') =>
      match getLeafNodes tree 0 with
      | None => None
      | Some leaves =>
          Some (mk (resetBoard (set_completedLines ∅ (set_currentNode None
                      (set_moveTree (Some tree) (app p)))))
                   (studies p) (currentStudy p) (length leaves) w')
      end
  end.

Definition selectStudy (study : Study.t) (p : t) : option t :=
  let p1 := mk (set_playerColor (Study.defaultColor study) (app p)) (studies p)
               (Some study) (totalLines p) (calls p) in
  match loadStudyTree study p1 with
  | None => None
  | Some p2 =>
      Some (mk (set_mode edit (app p2)) (studies p2) (currentStudy p2)
               (totalLines p2) (calls p2))
  end.

Definition handleCreateStudy (now : Z) (name pgn : string)
    (defaultColor : PlayerColor) (p : t) : option t :=
  let '(study, w') := createStudy random now name pgn defaultColor (calls p) in
  selectStudy study (mk (app p) (studies p ++ [study]) (currentStudy p)
                        (totalLines p) w').

(** [currentStudy.value?.id === id] *)
Definition isCurrent (id : string) (p : t) : bool :=
  match currentStudy p with
  | Some c => String.eqb (Study.id c) id
  | None => false
  end.

Definition handleUpdateStudy (now : Z) (study : Study.t) (p : t) : option t :=
  let p1 := mk (app p) (handleUpdateStudy now (studies p) study) (currentStudy p)
               (totalLines p) (calls p) in
  if isCurrent (Study.id study) p1 then
    match loadStudyTree study (mk (app p1) (studies p1) (Some study)
                                  (totalLines p1) (calls p1)) with
    | None => None
    | Some p2 =>
        Some (mk (set_playerColor (Study.defaultColor study) (app p2)) (studies p2)
                 (currentStudy p2) (totalLines p2) (calls p2))
    end
  else Some p1.

Definition handleDeleteStudy (id : string) (p : t) : t :=
  let p1 := mk (app p) (deleteStudy (studies p) id) (currentStudy p)
               (totalLines p) (calls p) in
  if isCurrent id p1 then
    mk (resetBoard (set_currentNode None (set_moveTree None (app p1))))
       (studies p1) None (totalLines p1) (calls p1)
  else p1.

End Page.

Arguments mk {E}.
Arguments app {E}.
Arguments studies {E}.
Arguments currentStudy {E}.
Arguments totalLines {E}.
Arguments calls {E}.
End Page.

(** ** The forms of [StudyManager.vue] *)

Module StudyManager.

Record t := mk {
  showCreateForm : bool;
  newStudyName : string;
  newStudyPgn : string;
  newStudyColor : PlayerColor;
  editingStudy : option Study.t;
  editName : string;
  editPgn : string;
  editColor : PlayerColor;
}.

Inductive Emit :=
| emit_create (name pgn : string) (defaultColor : PlayerColor)
| emit_update (study : Study.t).

(** The handlers: the form afterwards and the event emitted, if any. *)
Definition handleCreate (f : t) : t * option Emit :=
  if truthy (trim (newStudyName f)) && truthy (trim (newStudyPgn f)) then
    (mk false EmptyString EmptyString white (editingStudy f) (editName f)
        (editPgn f) (editColor f),
     Some (emit_create (trim (newStudyName f)) (trim (newStudyPgn f))
             (newStudyColor f)))
  else (f, None).

Definition startEdit (study : Study.t) (f : t) : t :=
  mk (showCreateForm f) (newStudyName f) (newStudyPgn f) (newStudyColor f)
     (Some study) (Study.name study) (Study.pgn study) (Study.defaultColor study).

Definition cancelEdit (f : t) : t :=
  mk (showCreateForm f) (newStudyName f) (newStudyPgn f) (newStudyColor f)
     None EmptyString EmptyString (editColor f).

Definition saveEdit (f : t) : t * option Emit :=
  match editingStudy f with
  | Some study =>
      if truthy (trim (editName f)) then
        (cancelEdit f,
         Some (emit_update (saveEdit_payload study (editName f) (editPgn f)
                              (editColor f))))
      else (f, None)
  | None => (f, None)
  end.

End StudyManager.

(** ** The move list of [MoveTree.vue] *)

(** What [h(tag, props, children)] builds: the tag, the classes that are
    on, the node that a click selects, the children. *)
Module VNode.
#[local] Unset Elimination Schemes.
Inductive t :=
| text (s : string)
| h (tag : string) (classes : list string) (onClick : option handle)
    (children : list t).
#[local] Set Elimination Schemes.
End VNode.

Section MoveTree.

Context (H : Heap).

(** [node.move.color === 'w']: the colour is a field of the move objects
    of chess.js that [Move.t] does not keep. *)
Context (white_move : handle -> bool).

(** The props [currentNodeId] and [completedLines]. *)
Context (currentNodeId : string) (completedLines : gset string).

(** The [while (current && current.parent)] loop of [getMoveNumber]. *)
Fixpoint depth_fuel (fuel : nat) (current : option handle) (depth : nat)
  : option nat :=
  match fuel with
  | O => None
  | S fuel' =>
      match current with
      | None => Some depth
      | Some c =>
          match H !! c with
          | None => None
          | Some n =>
              match MoveNode.parent n with
              | None => Some depth
              | Some p => depth_fuel fuel' (Some p) (S depth)
              end
          end
      end
  end.

(** [`${moveNum}`] *)
Definition decimal (n : nat) : string := NilZero.string_of_uint (Nat.to_uint n).

(** [node.parent && node.parent.children[0] !== node] *)
Definition isFirstInVariation (node : handle) (n : MoveNode.t) : bool :=
  match MoveNode.parent n with
  | None => false
  | Some p => negb (bool_decide (head (childrenOf H p) = Some node))
  end.

Definition getMoveNumber (node : handle) : option string :=
  match H !! node with
  | None => None
  | Some n =>
      match MoveNode.move n with
      | None => Some EmptyString
      | Some _ =>
          match depth_fuel (S (length H)) (Some node) 0 with
          | None => None
          | Some depth =>
              let moveNum := Nat.div2 (S depth) in
              if white_move node then Some (decimal moveNum +:+ ".")
              else if isFirstInVariation node n || (depth =? 1)%nat
                   then Some (decimal moveNum +:+ "...")
                   else Some EmptyString
          end
      end
  end.







End MoveTree.

(** ** Appearance: [ChessBoard.vue] and [AppearanceSettings.vue] *)

(** [props.boardTheme || "brown"], and the like: an absent property and
    the empty string are falsy. *)
Definition or_default (v : option string) (d : string) : string :=
  match v with
  | Some (String c rest) => String c rest
  | _ => d
  end.

Definition includes (l : list string) (x : string) : bool :=
  existsb (String.eqb x) l.

(** [boardUrl] of [ChessBoard.vue]; [base] is [import.meta.env.BASE_URL]. *)
Definition boardUrl (base : string) (boardTheme : option string) : string :=
  let boardImg := or_default boardTheme "brown" in
  let boardExt :=
    if includes ["blue"; "brown"; "green"; "green-plastic"; "purple"] boardImg
    then "png" else "jpg" in
  "url('" +:+ base +:+ "/board/" +:+ boardImg +:+ "." +:+ boardExt +:+ "')".

(** One entry of [pieceUrls] of [ChessBoard.vue]: the value stored under
    the key [c + r]. *)
Definition pieceUrl (base : string) (pieceSet : option string) (c r : string) : string :=
  let set := or_default pieceSet "cburnett" in
  let key := c +:+ r in
  if String.eqb set "monarchy" then
    "url('" +:+ base +:+ "/pieces/" +:+ set +:+ "/" +:+ key +:+ ".webp')"
  else if String.eqb set "mono" then
    "url('" +:+ base +:+ "/pieces/" +:+ set +:+ "/" +:+ r +:+ ".svg')"
  else
    "url('" +:+ base +:+ "/pieces/" +:+ set +:+ "/" +:+ key +:+ ".svg')".

Module Theme.
Record t := mk { id : string; name : string; ext : string }.
End Theme.

(** [boardThemes] of [AppearanceSettings.vue] *)
Definition boardThemes : list Theme.t :=
  [ Theme.mk "blue" "Blue" "png";
    Theme.mk "blue2" "Blue 2" "jpg";
    Theme.mk "blue3" "Blue 3" "jpg";
    Theme.mk "blue-marble" "Blue Marble" "jpg";
    Theme.mk "brown" "Brown" "png";
    Theme.mk "canvas2" "Canvas" "jpg";
    Theme.mk "green" "Green" "png";
    Theme.mk "green-plastic" "Green Plastic" "png";
    Theme.mk "grey" "Grey" "jpg";
    Theme.mk "leather" "Leather" "jpg";
    Theme.mk "maple" "Maple" "jpg";
    Theme.mk "maple2" "Maple 2" "jpg";
    Theme.mk "marble" "Marble" "jpg";
    Theme.mk "metal" "Metal" "jpg";
    Theme.mk "olive" "Olive" "jpg";
    Theme.mk "purple" "Purple" "png";
    Theme.mk "wood" "Wood" "jpg";
    Theme.mk "wood2" "Wood 2" "jpg";
    Theme.mk "wood3" "Wood 3" "jpg";
    Theme.mk "wood4" "Wood 4" "jpg" ].

(** The [src] of the thumbnail of a theme in [AppearanceSettings.vue]. *)
Definition thumbnailUrl (baseUrl : string) (theme : Theme.t) : string :=
  baseUrl +:+ "/board/" +:+ Theme.id theme +:+ ".thumbnail." +:+ Theme.ext theme.

(** The [src] of the preview of a piece set in [AppearanceSettings.vue]:
    the three [img] elements with [v-if], [v-else-if] and [v-else]. *)
Definition previewUrl (baseUrl : string) (set : string) : string :=
  if negb (String.eqb set "monarchy") && negb (String.eqb set "mono") then
    baseUrl +:+ "/pieces/" +:+ set +:+ "/wN.svg"
  else if String.eqb set "monarchy" then
    baseUrl +:+ "/pieces/" +:+ set +:+ "/wN.webp"
  else
    baseUrl +:+ "/pieces/" +:+ set +:+ "/N.svg".

(** * Further specification predicates *)

(** The tokens separated by one space. *)
Fixpoint unwords (tokens : list string) : string :=
  match tokens with
  | [] => EmptyString
  | [t] => t
  | t :: rest => t +:+ String " " (unwords rest)
  end.

(** The nesting depth after the tokens [l], read from depth [d]; [None]
    when a closing parenthesis has no opening one. *)
Fixpoint depth_after (d : nat) (l : list string) : option nat :=
  match l with
  | [] => Some d
  | t :: rest =>
      if decide (t = "(") then depth_after (S d) rest
      else if decide (t = ")") then
        match d with O => None | S d' => depth_after d' rest end
      else depth_after d rest
  end.

(** Every parenthesis of [l] has its match in [l]. *)
Definition balanced (l : list string) : Prop := depth_after 0 l = Some 0.

(** The number of tokens that are not parentheses. *)
Fixpoint count_moves (l : list string) : nat :=
  match l with
  | [] => 0
  | t :: rest =>
      (if decide (t = "(") then 0 else if decide (t = ")") then 0 else 1)
      + count_moves rest
  end.

(** The nodes reached from the root by first children only. *)
Inductive on_main (H : Heap) : handle -> Prop :=
| on_main_root : on_main H 0
| on_main_child p n c :
    on_main H p -> H !! p = Some n -> head (MoveNode.children n) = Some c ->
    on_main H c.

(** The main-line flags of a heap: the root is flagged; a first child has
    the flag of its parent; a later child is not flagged. *)
Definition flags_ok (H : Heap) : Prop :=
  (exists r, H !! 0 = Some r /\ MoveNode.isMainLine r = true) /\
  forall p np c nc,
    H !! p = Some np -> c ∈ MoveNode.children np -> H !! c = Some nc ->
    (head (MoveNode.children np) = Some c ->
     MoveNode.isMainLine nc = MoveNode.isMainLine np) /\
    (head (MoveNode.children np) <> Some c -> MoveNode.isMainLine nc = false).

(** A heap that is one chain: every node but the last has the next node as
    its only child. *)
Definition is_chain (H : Heap) : Prop :=
  forall h n, H !! h = Some n ->
    MoveNode.children n = if decide (S h < length H) then [S h] else [].

(** A token that is not a parenthesis. *)
Definition move_token (t : string) : Prop := t <> "(" /\ t <> ")".

(** [c] is [a] or is below [a] in the tree. *)
Inductive descends (H : Heap) (a : handle) : handle -> Prop :=
| desc_self : descends H a a
| desc_child p n c :
    descends H a p -> H !! p = Some n -> c ∈ MoveNode.children n ->
    descends H a c.

(** No node is twice a child of the same node. *)
Definition children_nodup (H : Heap) : Prop :=
  forall h n, H !! h = Some n -> NoDup (MoveNode.children n).

(** A node without children. *)
Definition childless (H : Heap) (c : handle) : Prop :=
  exists n, H !! c = Some n /\ MoveNode.children n = [].

(** [a] comes before [b] in the depth-first order of the tree, children in
    their stored order: at some node, [a] is a child or below a child that
    stands, among the children, before the one that [b] is or is below. *)
Definition dfs_before (H : Heap) (a b : handle) : Prop :=
  exists p n i j ci cj,
    H !! p = Some n /\
    MoveNode.children n !! i = Some ci /\ MoveNode.children n !! j = Some cj /\
    i < j /\ descends H ci a /\ descends H cj b.

(** The parts of the move text of a PGN file. *)
Inductive Piece :=
| Token (t : string)                    (* a move or a parenthesis *)
| Number (digits : string) (more : nat) (* digits, then [more + 1] dots *)
| Nag (digits : string)                 (* a dollar sign, then digits *)
| Comment (text : string)               (* a text between braces *)
| Result (r : string).

Fixpoint dots (k : nat) : string :=
  match k with O => EmptyString | S k' => String "." (dots k') end.

Definition written (p : Piece) : string :=
  match p with
  | Token t => t
  | Number d k => d +:+ String "." (dots k)
  | Nag d => String "$" d
  | Comment c => String "{" (c +:+ "}")
  | Result r => r
  end.

Fixpoint every (P : ascii -> bool) (s : string) : bool :=
  match s with
  | EmptyString => true
  | String c rest => P c && every P rest
  end.

(** The characters of a move as it is written here: no white space and
    none of the characters of the annotations and of the results. *)
Definition move_char (c : ascii) : bool :=
  negb (is_space c || ch c "{" || ch c "$" || ch c "." || ch c "0" || ch c "/"
        || ch c "*").

Definition piece_ok (p : Piece) : Prop :=
  match p with
  | Token t => token_ok t /\ every move_char t = true
  | Number d _ => d <> EmptyString /\ every is_digit d = true
  | Nag d => d <> EmptyString /\ every is_digit d = true
  | Comment c => has_char "}" c = false
  | Result r => r = "1-0" \/ r = "0-1" \/ r = "1/2-1/2" \/ r = "*"
  end.

(** The tokens that a piece stands for. *)
Definition tokens_of (p : Piece) : list string :=
  match p with Token t => [t] | _ => [] end.

(** What follows a piece: nothing, or a space. *)
Definition tail_ok (rest : string) : Prop :=
  rest = EmptyString \/ exists r, rest = String " " r.

(** The text after the first piece. *)
Definition after (texts : list string) : string :=
  match texts with [] => EmptyString | _ => String " " (unwords texts) end.

(** The pieces as they stand after the comments, then also the glyphs,
    then also the move numbers have been rewritten. *)
Definition without_comment (p : Piece) : string :=
  match p with Comment _ => EmptyString | _ => written p end.

Definition without_nag (p : Piece) : string :=
  match p with Comment _ | Nag _ => EmptyString | _ => written p end.

Definition without_number (p : Piece) : string :=
  match p with
  | Comment _ | Nag _ => EmptyString
  | Number _ _ => " "
  | _ => written p
  end.

(** A character that no result contains but the digit 1, the digit 2 and
    the dash. *)
Definition no_result_char (c : ascii) : bool :=
  negb (ch c "0" || ch c "/" || ch c "*").

(** A character that is a space if it is white space. *)
Definition plain_space (c : ascii) : bool := implb (is_space c) (ch c " ").

(** The two ways in which [startNextLine] ends: the line is the new
    target and the board is reset, or there is no line left. *)
Definition targeting {E : Engine} (line : list handle) (s : App E) : App E :=
  setTimeout cb_opponentUnlessPlayer 300
    (updateGame (set_lastMove [] (set_currentNode None
      (set_game (new_Chess E) (set_currentTargetIndex 0
        (set_currentTargetLine line s)))))).

Definition congratulated {E : Engine} (s : App E) : App E :=
  set_mode edit
    (set_alerts (alerts s ++ ["Congratulations! You completed all variations!"]) s).

(** The identity of a node without children. *)
Definition leaf_id (H : Heap) (i : string) : Prop :=
  exists l n, H !! l = Some n /\ MoveNode.children n = [] /\ MoveNode.id n = i.

(** The callbacks that play the move of the opponent. *)
Definition opponent_callback (cb : Callback) : bool :=
  match cb with
  | cb_playOpponentMove | cb_opponentUnlessPlayer => true
  | _ => false
  end.

Section Run.

Context {E : Engine}.

(** A callback that plays the move of the opponent is pending. *)
Definition opponent_pending (s : App E) : Prop :=
  exists t, t ∈ timeouts s /\ opponent_callback t.1 = true.

(** A callback of the opponent is pending while the target line is played
    to its end: when it fires, [playOpponentMove] marks the current node,
    whatever it is then, as completed. No timeout is ever cleared but the
    expiry of the feedback, and [playOpponentMove] does not test the mode. *)
Definition racing (s : App E) : Prop :=
  opponent_pending s /\ length (currentTargetLine s) <= currentTargetIndex s.

(** What can happen in a session on the tree [H]: a move on the board, a
    pending timeout that fires, in any mode and in any order, and returns
    or throws, a click on a node of the tree, on a colour, on Edit, on
    Drill or on Restart. (A move on the board that the engine refuses makes
    [handleMove] throw before it assigns anything: the state is the same.)
    The one proviso is on the user: in edit mode, no move on the board and
    no click on a node while a callback of the opponent is [racing]. *)
Inductive session_step (H : Heap) : App E -> App E -> Prop :=
| step_move orig dest s s' :
    (mode s = edit -> ~ racing s) ->
    handleMove orig dest s = Some s' -> session_step H s s'
| step_timeout before cb delay after s s' :
    timeouts s = before ++ (cb, delay) :: after ->
    runCallback cb (set_timeouts (before ++ after) s) = Some s' ->
    session_step H s s'
| step_timeout_throws before cb delay after s :
    timeouts s = before ++ (cb, delay) :: after ->
    opponent_callback cb = true ->
    runCallback cb (set_timeouts (before ++ after) s) = None ->
    session_step H s (set_timeouts (before ++ after) s)
| step_select node s s' :
    is_Some (H !! node) ->
    (mode s = edit -> ~ racing s) ->
    navigateToNode node s = Some (finished s') \/
    navigateToNode node s = Some (thrown s') ->
    session_step H s s'
| step_color c s : session_step H s (set_playerColor c s)
| step_edit s : session_step H s (resetBoard (set_mode edit s))
| step_drill s s' : startDrill s = Some s' -> session_step H s s'
| step_reset s s' : resetDrill s = Some s' -> session_step H s s'.

(** What a session keeps true: the completed set holds identities of
    leaves, the current node is a node of the tree, the target line is
    empty or leads to a leaf, in drill mode a target line played to its
    end leaves a leaf as current node, and in edit mode a racing callback
    finds no current node or a leaf. *)
Definition session_inv (H : Heap) (s : App E) : Prop :=
  moveTree s = Some H /\
  (forall i, i ∈ completedLines s -> leaf_id H i) /\
  (forall c, currentNode s = Some c -> is_Some (H !! c)) /\
  (currentTargetLine s = [] \/
   exists leaf, line_to H leaf (currentTargetLine s) /\ childless H leaf) /\
  (mode s = drill -> length (currentTargetLine s) <= currentTargetIndex s ->
   exists c, currentNode s = Some c /\ childless H c) /\
  (mode s = edit -> racing s ->
   forall c, currentNode s = Some c -> childless H c).

End Run.

(** A hasty session on the tree of "1. e4 (1. d4 d5) e5" with the white
    pieces: a click on Drill; e2-e4 on the board before the callback of
    [startNextLine] fires; that callback fires and answers e7-e5, which
    ends the line; a click on Edit. The callback that [handleMove]
    scheduled for the answer is still pending. *)
Definition hasty_session : option (App Book.engine) :=
  s1 ← startDrill (mkApp (E := Book.engine) edit white (Some Book.tree_variation)
                     None ∅ [] 0 [Book.start] 0 None [] [] []);
  s2 ← handleMove "e2" "e4" s1;
  s3 ← runCallback cb_opponentUnlessPlayer (set_timeouts (tail (timeouts s2)) s2);
  Some (resetBoard (set_mode edit s3)).

(** The state at the end of the hasty session, and the state after a click
    on the node of e4 in it. *)
Definition hasty_state : App Book.engine :=
  Eval vm_compute in
    default (mkApp (E := Book.engine) edit white None None ∅ [] 0 [Book.start] 0
               None [] [] [])
      hasty_session.

Definition hasty_clicked : App Book.engine :=
  Eval vm_compute in
    match navigateToNode 1 hasty_state with
    | Some (finished s) => s
    | _ => hasty_state
    end.


Section Playing.

Context (E : Engine).

(** The move [m], played by its squares in any game at position [f],
    promoting to a queen, succeeds as a move with the same coordinates and
    leads to position [f']. *)
Definition squares_apply (f : string) (m : Move.t) (f' : string) : Prop :=
  forall g, fen_of E g = f ->
    exists m' g',
      move_squares E g (Move.from m) (Move.to m) = Some (m', g') /\
      Move.lan m' = Move.lan m /\ fen_of E g' = f'.

(** The move of the node [c] can be played by its squares, promoting to a
    queen, from the position of its parent. [handleMove] passes
    [promotion: "q"] whatever the move: of chess.js, this holds of every
    node but those of a promotion to another piece than the queen. *)
Definition by_squares (H : Heap) (c : handle) : Prop :=
  exists nc p np m,
    H !! c = Some nc /\ MoveNode.parent nc = Some p /\ H !! p = Some np /\
    MoveNode.move nc = Some m /\
    squares_apply (MoveNode.fen np) m (MoveNode.fen nc).

(** An engine in which every move returned for a token can be played again
    by its squares. An opening book without promotion is such an engine;
    chess.js is not, which accepts the tokens of promotions to a rook, a
    bishop or a knight. *)
Definition squares_law : Prop :=
  forall g token m g',
    move_text E g token = Some (m, g') ->
    squares_apply (fen_of E g) m (fen_of E g').

(** Every move of the tree can be played by its squares from the position
    of its parent. *)
Definition squares_ok (H : Heap) : Prop :=
  forall c nc, H !! c = Some nc -> c <> 0 ->
    exists p np m,
      MoveNode.parent nc = Some p /\ H !! p = Some np /\
      MoveNode.move nc = Some m /\
      squares_apply (MoveNode.fen np) m (MoveNode.fen nc).

(** The moves of [line] played in order, each by the player on the board
    ([true]) or by the callback of the opponent ([false]). *)
Fixpoint run_line (H : Heap) (players : list bool) (line : list handle)
    (s : App E) : option (App E) :=
  match players, line with
  | who :: players', node :: line' =>
      match H !! node ≫= MoveNode.move with
      | None => None
      | Some m =>
          match (if who : bool then handleMove (Move.from m) (Move.to m) s
                 else playOpponentMove s) with
          | None => None
          | Some s1 => run_line H players' line' s1
          end
      end
  | _, _ => Some s
  end.

End Playing.

(** ** A second small engine: a promotion

    One position, White to move with a pawn on e7, and the two moves from
    it that the tokens e8=Q and e8=N name, both from e7 to e8. As in
    chess.js, the two squares with [promotion: "q"] play the promotion to
    the queen; the move object plays the move it holds. *)

Module Promo.

Definition start : string := "8/4P3/8/8/8/8/k7/7K w - - 0 1".
Definition queened : string := "4Q3/8/8/8/8/8/k7/7K b - - 0 1".
Definition knighted : string := "4N3/8/8/8/8/8/k7/7K b - - 0 1".

Definition m_Q := Move.mk "e7" "e8" "e8=Q" "e7e8q".
Definition m_N := Move.mk "e7" "e8" "e8=N" "e7e8n".

(** position before, move, position after *)
Definition table : list (string * Move.t * string) :=
  [ (start, m_Q, queened); (start, m_N, knighted) ].

Definition game := list string.

Definition top (g : game) : string := default start (head g).

Definition play (sel : Move.t -> bool) (g : game) : option (Move.t * game) :=
  match find (fun e => String.eqb (fst (fst e)) (top g) && sel (snd (fst e))) table with
  | Some (_, m, after) => Some (m, after :: g)
  | None => None
  end.

Definition engine : Engine := {|
  Game := game;
  new_Chess := [start];
  load_fen := fun f => [f];
  fen_of := top;
  move_text := fun g token => play (fun m => String.eqb (Move.san m) token) g;
  move_object := fun g m0 => play (fun m => String.eqb (Move.lan m) (Move.lan m0)) g;
  move_squares := fun g orig dest =>
    play (fun m => String.eqb (Move.from m) orig && String.eqb (Move.to m) dest) g;
  undo := fun g => tail g;
  turn_white := fun g =>
    match String.index 0 " w " (top g) with Some _ => true | None => false end;
|}.

(** The tree of "1. e8=N": the root and the promotion to the knight. *)
Definition tree : Heap :=
  Eval vm_compute in
    default [] (fst <$> parsePgnToTree engine Book.tally "1. e8=N" 0).

(** A drill session on it with the white pieces, the line targeted. *)
Definition session : App engine :=
  mkApp (E := engine) drill white (Some tree) None ∅ [1] 0 [start] 0 None [] [] [].

End Promo.

(** ** The parser by recursion on the structure of the move text *)

(** A move text whose parentheses match: moves and variations. *)
#[local] Unset Elimination Schemes.
Inductive Item :=
| Mv (t : string)
| Var (body : list Item).

Fixpoint flatten_item (it : Item) : list string :=
  match it with
  | Mv t => [t]
  | Var body => "(" :: List.flat_map flatten_item body ++ [")"]
  end.

Definition flatten (items : list Item) : list string :=
  List.flat_map flatten_item items.

(** No move is a parenthesis. *)
Inductive item_ok : Item -> Prop :=
| ok_mv t : move_token t -> item_ok (Mv t)
| ok_var body : Forall item_ok body -> item_ok (Var body).
#[local] Set Elimination Schemes.

Section Structure.

Context (E : Engine) (random : nat -> string).

(** The current node, the game, the heap, the calls of the generator. *)
Definition Cursor : Type := handle * Game E * Heap * nat.

(** A move: a node under the current node when the engine accepts it. *)
Definition build_move (main : bool) (t : string) (st : Cursor) : Cursor :=
  let '(cur, g, H, w) := st in
  if negb (truthy t) then st
  else
    match move_text E g t with
    | Some (m, g') =>
        (length H, g',
         attach H cur (MoveNode.mk (random w) (Some m) (Move.san m) (fen_of E g')
                         [] (Some cur) main),
         S w)
    | None => st
    end.

(** A variation: its items are built, off the main line, from the parent
    of the current node and a new game at the position of this parent; the
    current node and the game stay. A variation at the root is dropped. *)
Fixpoint build_item (main : bool) (it : Item) (st : Cursor) : Cursor :=
  match it with
  | Mv t => build_move main t st
  | Var body =>
      let '(cur, g, H, w) := st in
      match H !! cur ≫= MoveNode.parent with
      | None => st
      | Some branchPoint =>
          match H !! branchPoint with
          | None => st
          | Some bp =>
              let '(_, _, H', w') :=
                fold_left (fun st' it' => build_item false it' st') body
                  (branchPoint, load_fen E (MoveNode.fen bp), H, w) in
              (cur, g, H', w')
          end
      end
  end.

Definition build_items (main : bool) (items : list Item) (st : Cursor) : Cursor :=
  fold_left (fun st' it' => build_item main it' st') items st.

End Structure.

(** * Properties *)

(** ** tokenize *)

Example cleanPgn_variation :
  cleanPgn "1. e4 (1. d4 d5) e5" = "e4 ( d4 d5) e5".
Proof. reflexivity. Qed.

Example cleanPgn_annotated :
  cleanPgn "1. e4 {best by test} e5 $1 2. Nf3 Nc6 2... d6 1/2-1/2 " = "e4 e5 Nf3 Nc6 d6".
Proof. reflexivity. Qed.

Example tokenize_variation :
  tokenize "e4 ( d4 d5) e5" = ["e4"; "("; "d4"; "d5"; ")"; "e5"].
Proof. reflexivity. Qed.

Example tokenize_adjacent_parentheses :
  tokenize "e4(d4 d5)e5" = ["e4"; "("; "d4"; "d5"; ")"; "e5"].
Proof. reflexivity. Qed.

Lemma append_nil_l (s : string) : EmptyString +:+ s = s.
Proof. reflexivity. Qed.

Lemma append_cons (c : ascii) (s t : string) : String c s +:+ t = String c (s +:+ t).
Proof. reflexivity. Qed.

Lemma append_nil_r (s : string) : s +:+ EmptyString = s.
Proof. induction s as [|c s IH]; [done | by rewrite append_cons, IH]. Qed.

Lemma append_assoc (a b c : string) : (a +:+ b) +:+ c = a +:+ (b +:+ c).
Proof. induction a as [|x a IH]; [done | by rewrite !append_cons, IH]. Qed.

Create Rewrite HintDb str.
#[local] Hint Rewrite append_nil_l append_nil_r append_cons append_assoc : str.

Lemma join_app (l k : list string) : join (l ++ k) = join l +:+ join k.
Proof.
  induction l as [|t l IH]; simpl; [done |].
  by rewrite IH, append_assoc.
Qed.

Lemma no_sep_snoc (s : string) (c : ascii) :
  no_sep s = true -> is_sep c = false -> no_sep (s +:+ str1 c) = true.
Proof.
  intros Hs Hc. induction s as [|x s IH]; simpl in *.
  - by rewrite Hc.
  - apply andb_true_iff in Hs as [Hx Hs]. rewrite Hx. simpl. auto.
Qed.

Lemma truthy_false (s : string) : truthy s = false -> s = EmptyString.
Proof. by destruct s. Qed.

Lemma truthy_true (s : string) : truthy s = true -> s <> EmptyString.
Proof. by destruct s. Qed.

Lemma is_sep_cases (c : ascii) :
  is_sep c = true -> c = "("%char \/ c = ")"%char \/ c = " "%char.
Proof.
  unfold is_sep, ch. intros H.
  apply orb_true_iff in H as [H|H]; [apply orb_true_iff in H as [H|H]|];
    apply Ascii.eqb_eq in H; auto.
Qed.

(** Pushing [current] when it is not empty. *)
Lemma flush_spec (tokens : list string) (current : string) :
  Forall token_ok tokens -> no_sep current = true ->
  Forall token_ok (if truthy current then tokens ++ [current] else tokens) /\
  join (if truthy current then tokens ++ [current] else tokens) = join tokens +:+ current.
Proof.
  intros Htok Hcur. destruct (truthy current) eqn:Ht.
  - split.
    + apply Forall_app; split; [done |]. constructor; [|done].
      right; right. split; [by apply truthy_true | done].
    + rewrite join_app; simpl. by rewrite append_nil_r.
  - apply truthy_false in Ht as ->. split; [done |]. by rewrite append_nil_r.
Qed.

(** The loop keeps the tokens well formed and loses no character but the
    spaces: [current] is the text read since the last separator. *)
Lemma tokenize_loop_spec (str : string) :
  forall tokens current,
    Forall token_ok tokens -> no_sep current = true ->
    Forall token_ok (tokenize_loop str tokens current) /\
    join (tokenize_loop str tokens current)
      = (join tokens +:+ current) +:+ remove_spaces str.
Proof.
  induction str as [|c rest IH]; intros tokens current Htok Hcur; simpl.
  - destruct (flush_spec tokens current Htok Hcur) as [Hok Hj].
    split; [done |]. by rewrite Hj, append_nil_r.
  - destruct (flush_spec tokens current Htok Hcur) as [Hok1 Hj1].
    destruct (is_sep c) eqn:Hsep.
    + destruct (is_sep_cases c Hsep) as [-> | [-> | ->]]; simpl; unfold str1.
      * edestruct (IH ((if truthy current then tokens ++ [current] else tokens) ++ ["("]) EmptyString)
          as [Hok Hj]; [|done|].
        { apply Forall_app; split; [done |]. constructor; [by left | done]. }
        split; [done |]. rewrite Hj, join_app, Hj1. simpl.
        by autorewrite with str.
      * edestruct (IH ((if truthy current then tokens ++ [current] else tokens) ++ [")"]) EmptyString)
          as [Hok Hj]; [|done|].
        { apply Forall_app; split; [done |]. constructor; [by right; left | done]. }
        split; [done |]. rewrite Hj, join_app, Hj1. simpl.
        by autorewrite with str.
      * edestruct (IH (if truthy current then tokens ++ [current] else tokens) EmptyString)
          as [Hok Hj]; [done | done |].
        split; [done |]. rewrite Hj, Hj1. by autorewrite with str.
    + edestruct (IH tokens (current +:+ str1 c)) as [Hok Hj];
        [done | by apply no_sep_snoc |].
      split; [done |]. rewrite Hj.
      assert (ch c " " = false) as ->.
      { unfold is_sep in Hsep. by apply orb_false_iff in Hsep as [_ ?]. }
      unfold str1. by autorewrite with str.
Qed.

(** C10. For every input string, [tokenize] returns a sequence of tokens
    each of which is an opening parenthesis, a closing parenthesis or a
    non-empty text without space and parenthesis, and the concatenation of
    the tokens is the input without its spaces. (The function is total: it
    is defined by recursion on the input.) *)
Theorem tokenize_tokens_and_content (str : string) :
  Forall token_ok (tokenize str) /\ join (tokenize str) = remove_spaces str.
Proof.
  unfold tokenize.
  destruct (tokenize_loop_spec str [] EmptyString) as [Hok Hj]; [done | done |].
  split; [done |]. rewrite Hj. simpl. by autorewrite with str.
Qed.

(** ** The heap under [attach] *)

Lemma node_le_refl (n : MoveNode.t) : node_le n n.
Proof. by repeat split. Qed.

Lemma node_le_trans (a b c : MoveNode.t) : node_le a b -> node_le b c -> node_le a c.
Proof.
  intros (?&?&?&?&?&?&?) (?&?&?&?&?&?&?).
  repeat split; try congruence. by etrans.
Qed.

Lemma node_le_push (c : handle) (n : MoveNode.t) : node_le n (MoveNode.push c n).
Proof. repeat split; simpl. by apply prefix_app_r. Qed.

Lemma extends_refl (H : Heap) : extends H H.
Proof. split; [done |]. intros h n ?. exists n. split; [done | apply node_le_refl]. Qed.

Lemma extends_trans (H1 H2 H3 : Heap) : extends H1 H2 -> extends H2 H3 -> extends H1 H3.
Proof.
  intros [Hl1 He1] [Hl2 He2]. split; [lia |].
  intros h n Hn. destruct (He1 h n Hn) as (n' & Hn' & Hle).
  destruct (He2 h n' Hn') as (n'' & Hn'' & Hle').
  exists n''. split; [done |]. by eapply node_le_trans.
Qed.

Lemma length_attach (H : Heap) (cur : handle) (node : MoveNode.t) :
  length (attach H cur node) = S (length H).
Proof. unfold attach. rewrite length_alter, length_app. simpl. lia. Qed.

Lemma lookup_attach_new (H : Heap) (cur : handle) (node : MoveNode.t) :
  cur < length H -> attach H cur node !! length H = Some node.
Proof.
  intros Hlt. unfold attach. rewrite list_lookup_alter_ne by lia.
  by rewrite lookup_app_r, Nat.sub_diag.
Qed.

Lemma lookup_attach_cur (H : Heap) (cur : handle) (node ncur : MoveNode.t) :
  H !! cur = Some ncur ->
  attach H cur node !! cur = Some (MoveNode.push (length H) ncur).
Proof.
  intros Hc. unfold attach. rewrite list_lookup_alter_eq.
  by rewrite lookup_app_l_Some with (x := ncur).
Qed.

Lemma lookup_attach_other (H : Heap) (cur h : handle) (node : MoveNode.t) :
  h <> cur -> h <> length H -> attach H cur node !! h = H !! h.
Proof.
  intros H1 H2. unfold attach. rewrite list_lookup_alter_ne by done.
  destruct (decide (h < length H)).
  - by rewrite lookup_app_l.
  - rewrite !lookup_ge_None_2; [done | lia | rewrite length_app; simpl; lia].
Qed.

(** What a lookup in the new heap finds. *)
Lemma lookup_attach_inv (H : Heap) (cur h : handle) (node ncur n' : MoveNode.t) :
  H !! cur = Some ncur ->
  attach H cur node !! h = Some n' ->
  (h = length H /\ n' = node) \/
  (h = cur /\ n' = MoveNode.push (length H) ncur) \/
  (h <> cur /\ h <> length H /\ H !! h = Some n').
Proof.
  intros Hc Hh. pose proof (lookup_lt_Some _ _ _ Hc) as Hlt.
  destruct (decide (h = length H)) as [->|Hne1].
  - left. rewrite lookup_attach_new in Hh by done. by simplify_eq.
  - destruct (decide (h = cur)) as [->|Hne2].
    + right; left. rewrite (lookup_attach_cur _ _ _ _ Hc) in Hh. by simplify_eq.
    + right; right. by rewrite lookup_attach_other in Hh.
Qed.

Lemma extends_attach (H : Heap) (cur : handle) (node ncur : MoveNode.t) :
  H !! cur = Some ncur -> extends H (attach H cur node).
Proof.
  intros Hc. split; [rewrite length_attach; lia |].
  intros h n Hn. pose proof (lookup_lt_Some _ _ _ Hn) as Hlt.
  destruct (decide (h = cur)) as [->|Hne].
  - simplify_eq. eexists. split; [by apply lookup_attach_cur |]. apply node_le_push.
  - exists n. split; [|apply node_le_refl].
    rewrite lookup_attach_other; [done | done | lia].
Qed.

Lemma wf_attach (H : Heap) (cur : handle) (node ncur : MoveNode.t) :
  wf_heap H -> H !! cur = Some ncur ->
  MoveNode.parent node = Some cur -> MoveNode.children node = [] ->
  is_Some (MoveNode.move node) ->
  wf_heap (attach H cur node).
Proof.
  intros [Hroot Hdown Hup] Hc Hpar Hch Hmv.
  pose proof (lookup_lt_Some _ _ _ Hc) as Hlt.
  pose proof (extends_attach H cur node ncur Hc) as [_ Hext].
  split.
  - destruct Hroot as (r & Hr & Hrp & Hrm).
    destruct (Hext 0 r Hr) as (r' & Hr' & Hle).
    exists r'. destruct Hle as (_ & Hm & _ & _ & Hp & _). split; [done |]. split; congruence.
  - intros p n c Hp Hin.
    destruct (lookup_attach_inv _ _ _ _ _ _ Hc Hp) as [[-> ->] | [[-> ->] | (Hne1 & Hne2 & Hp')]].
    + rewrite Hch in Hin. by apply elem_of_nil in Hin.
    + simpl in Hin. apply elem_of_app in Hin as [Hin | Hin].
      * destruct (Hdown _ _ _ Hc Hin) as (Hlt' & nc & Hnc & Hncp).
        split; [done |]. destruct (Hext c nc Hnc) as (nc' & Hnc' & Hle).
        exists nc'. split; [done |]. destruct Hle as (_&_&_&_&->&_). done.
      * apply list_elem_of_singleton in Hin as ->. split; [done |].
        exists node. split; [by apply lookup_attach_new | done].
    + destruct (Hdown _ _ _ Hp' Hin) as (Hlt' & nc & Hnc & Hncp).
      split; [done |]. destruct (Hext c nc Hnc) as (nc' & Hnc' & Hle).
      exists nc'. split; [done |]. destruct Hle as (_&_&_&_&->&_). done.
  - intros c nc Hcn Hc0.
    destruct (lookup_attach_inv _ _ _ _ _ _ Hc Hcn) as [[-> ->] | [[-> ->] | (Hne1 & Hne2 & Hc')]].
    + split; [done |]. exists cur, (MoveNode.push (length H) ncur).
      split; [done |]. split; [by apply lookup_attach_cur |].
      simpl. apply elem_of_app. right. by apply list_elem_of_singleton.
    + destruct (Hup _ _ Hc Hc0) as (Hm & p & np & Hp & Hnp & Hin).
      split; [done |]. destruct (Hext p np Hnp) as (np' & Hnp' & Hle).
      exists p, np'. split; [done |]. split; [done |].
      destruct Hle as (_&_&_&_&_&_&Hpre). simpl.
      destruct Hpre as [k ->]. apply elem_of_app. by left.
    + destruct (Hup _ _ Hc' Hc0) as (Hm & p & np & Hp & Hnp & Hin).
      split; [done |]. destruct (Hext p np Hnp) as (np' & Hnp' & Hle).
      exists p, np'. split; [done |]. split; [done |].
      destruct Hle as (_&_&_&_&_&_&Hpre).
      destruct Hpre as [k ->]. apply elem_of_app. by left.
Qed.

Lemma wf_parent_lt (H : Heap) (c p : handle) (nc : MoveNode.t) :
  wf_heap H -> H !! c = Some nc -> MoveNode.parent nc = Some p ->
  p < c /\ is_Some (H !! p).
Proof.
  intros Hwf Hc Hp. destruct (decide (c = 0)) as [->|Hc0].
  - destruct (wf_root H Hwf) as (r & Hr & Hrp & _). by simplify_eq.
  - destruct (wf_up H Hwf c nc Hc Hc0) as (_ & p' & np & Hp' & Hnp & Hin).
    assert (p' = p) as -> by congruence.
    destruct (wf_down H Hwf p np c Hnp Hin) as [Hlt _]. split; [done | by eexists].
Qed.

(** ** What [buildTree] does to the heap *)

Section GrowthFacts.

Context (E : Engine) (random : nat -> string).

Lemma step_extends st st' : attach_step E random st st' -> extends st.1 st'.1.
Proof. destruct 1. simpl. by eapply extends_attach. Qed.

Lemma grows_extends st st' : grows E random st st' -> extends st.1 st'.1.
Proof.
  induction 1 as [|x y z Hxy _ IH]; [apply extends_refl |].
  eapply extends_trans; [by apply step_extends | done].
Qed.

Lemma step_wf st st' : attach_step E random st st' -> wf_heap st.1 -> wf_heap st'.1.
Proof. destruct 1. simpl. intros Hwf. by eapply wf_attach. Qed.

Lemma grows_wf st st' : grows E random st st' -> wf_heap st.1 -> wf_heap st'.1.
Proof. induction 1 as [|x y z Hxy _ IH]; [done |]. intros. by apply IH, (step_wf x). Qed.

Lemma step_ids w0 st st' :
  attach_step E random st st' -> st.1 <> [] -> ids_from random w0 st -> ids_from random w0 st'.
Proof.
  destruct 1 as [H w cur ncur g token m g' main Hc Hs Hm]. simpl.
  intros Hne [Hw Hids]. simpl in *. split; simpl.
  - rewrite length_attach. lia.
  - intros k n Hk.
    destruct (lookup_attach_inv _ _ _ _ _ _ Hc Hk) as [[Hl ->] | [[Hl ->] | (_ & _ & Hk')]].
    + simpl. f_equal. lia.
    + simpl. apply (Hids k). by rewrite Hl.
    + by apply Hids.
Qed.

Lemma grows_ids w0 st st' :
  grows E random st st' -> st.1 <> [] -> ids_from random w0 st -> ids_from random w0 st'.
Proof.
  induction 1 as [|x y z Hxy _ IH]; [done |]. intros Hne Hids.
  apply IH; [|by apply (step_ids w0 x)].
  apply step_extends in Hxy as [Hl _]. destruct x.1, y.1; simpl in *; [done | done | lia | done].
Qed.

Lemma step_positions st st' :
  engine_laws E ->
  attach_step E random st st' -> positions_ok E st.1 -> positions_ok E st'.1.
Proof.
  intros [Hload Hmove]. destruct 1 as [H w cur ncur g token m g' main Hc Hs Hm]. simpl.
  intros Hpos c nc Hcn.
  pose proof (extends_attach H cur
    (MoveNode.mk (random w) (Some m) (Move.san m) (fen_of E g') [] (Some cur) main)
    ncur Hc) as [_ Hext].
  assert (fen_of E g = MoveNode.fen ncur) as Hg.
  { destruct Hs as [Hs | ->]; [done |].
    destruct (Hpos _ _ Hc) as [[g0 Hg0] _]. by rewrite <- Hg0. }
  destruct (lookup_attach_inv _ _ _ _ _ _ Hc Hcn) as [[-> ->] | [[-> ->] | (Hne1 & Hne2 & Hc')]].
  - split; [by exists g' |]. intros _.
    exists cur, (MoveNode.push (length H) ncur), m. simpl.
    split; [done |]. split; [by apply lookup_attach_cur |]. split; [done |]. split; [done |].
    rewrite <- Hg. by eapply Hmove.
  - destruct (Hpos _ _ Hc) as [Hfen Hrest]. split; [done |]. intros Hc0.
    destruct (Hrest Hc0) as (p & np & m0 & Hp & Hnp & Hm0 & Hsan & Happ).
    destruct (Hext p np Hnp) as (np' & Hnp' & Hle).
    exists p, np', m0. simpl. repeat (split; [done |]).
    destruct Hle as (_&_&_&->&_). done.
  - destruct (Hpos _ _ Hc') as [Hfen Hrest]. split; [done |]. intros Hc0.
    destruct (Hrest Hc0) as (p & np & m0 & Hp & Hnp & Hm0 & Hsan & Happ).
    destruct (Hext p np Hnp) as (np' & Hnp' & Hle).
    exists p, np', m0. repeat (split; [done |]).
    destruct Hle as (_&_&_&->&_). done.
Qed.

Lemma grows_positions st st' :
  engine_laws E ->
  grows E random st st' -> positions_ok E st.1 -> positions_ok E st'.1.
Proof.
  intros Hlaws. induction 1 as [|x y z Hxy _ IH]; [done |]. intros.
  by apply IH, (step_positions x).
Qed.

End GrowthFacts.

(** ** The loops of [buildTree] *)

Lemma findClose_bounds (rest : list string) :
  forall j depth, j <= findClose rest j depth <= j + length rest.
Proof.
  induction rest as [|t rest IH]; intros j depth; simpl; [lia |].
  destruct depth; [lia |].
  match goal with |- context [findClose rest ?a ?b] => specialize (IH a b) end.
  lia.
Qed.

Lemma findClose_le (tokens : list string) (i : nat) :
  i < length tokens ->
  i + 1 <= findClose (drop (i + 1) tokens) (i + 1) 1 <= length tokens.
Proof.
  intros Hi. pose proof (findClose_bounds (drop (i + 1) tokens) (i + 1) 1) as Hb.
  rewrite length_drop in Hb. lia.
Qed.

Lemma length_slice {A} (l : list A) (a b : nat) : length (slice l a b) <= b - a.
Proof. unfold slice. rewrite length_take. lia. Qed.

Section Loop.

Context (E : Engine) (random : nat -> string).

(** Whatever the loop returns, the heap at the return is the heap at the
    start with the nodes of the accepted tokens attached. *)
Lemma buildTree_loop_grows (fuel : nat) :
  forall tokens i cur ncur game main H w r H' w',
    H !! cur = Some ncur ->
    sits E (MoveNode.fen ncur) game ->
    buildTree_loop E random fuel tokens i cur game main H w = Some (r, H', w') ->
    grows E random (H, w) (H', w').
Proof.
  induction fuel as [|fuel IH]; intros tokens i cur ncur game main H w r H' w' Hc Hs Hrun;
    simpl in Hrun; [done |].
  destruct (tokens !! i) as [token|]; [|simplify_eq; apply rtc_refl].
  destruct (decide (token = "(")) as [_|_].
  - rewrite Hc in Hrun. simpl in Hrun.
    destruct (MoveNode.parent ncur) as [branchPoint|]; [|by eapply IH].
    destruct (H !! branchPoint) as [bp|] eqn:Hbp; [|done].
    destruct (buildTree_loop E random fuel _ 0 branchPoint _ false H w)
      as [[[r1 H1] w1]|] eqn:Hvar; [|done].
    assert (grows E random (H, w) (H1, w1)) as Hg1.
    { eapply IH; [exact Hbp | by right | exact Hvar]. }
    destruct (grows_extends _ _ _ _ Hg1) as [_ Hext]. simpl in Hext.
    destruct (Hext cur ncur Hc) as (ncur1 & Hc1 & Hle).
    etrans; [exact Hg1 |].
    eapply IH; [exact Hc1 | | exact Hrun].
    destruct Hle as (_&_&_&->&_). done.
  - destruct (decide (token = ")")) as [_|_]; [simplify_eq; apply rtc_refl |].
    destruct (negb (truthy token)); [by eapply IH |].
    destruct (move_text E game token) as [[move game']|] eqn:Hmove; [|by eapply IH].
    simpl in Hrun.
    eapply rtc_l; [by eapply Attach_step |].
    eapply IH; [| |exact Hrun].
    + apply lookup_attach_new. by eapply lookup_lt_Some.
    + by left.
Qed.

(** The fuel that [buildTree] gives to the loop is enough. *)
Lemma buildTree_loop_total (fuel : nat) :
  forall tokens i cur ncur game main H w,
    wf_heap H ->
    H !! cur = Some ncur ->
    sits E (MoveNode.fen ncur) game ->
    length tokens - i < fuel ->
    is_Some (buildTree_loop E random fuel tokens i cur game main H w).
Proof.
  induction fuel as [|fuel IH]; intros tokens i cur ncur game main H w Hwf Hc Hs Hfuel;
    [lia |]. simpl.
  destruct (tokens !! i) as [token|] eqn:Hi; [|done].
  pose proof (lookup_lt_Some _ _ _ Hi) as Hlt.
  pose proof (findClose_le tokens i Hlt) as Hj.
  destruct (decide (token = "(")) as [_|_].
  - rewrite Hc. simpl.
    destruct (MoveNode.parent ncur) as [branchPoint|] eqn:Hpar;
      [|eapply IH; eauto; lia].
    destruct (wf_parent_lt H cur branchPoint ncur Hwf Hc Hpar) as [_ [bp Hbp]].
    rewrite Hbp.
    match goal with |- context [buildTree_loop E random fuel ?ts 0 branchPoint ?g false H w] =>
      destruct (IH ts 0 branchPoint bp g false H w) as [[[r1 H1] w1] Hvar];
        [done | done | by right | |]
    end.
    { pose proof (length_slice tokens (i + 1)
        (findClose (drop (i + 1) tokens) (i + 1) 1 - 1)). lia. }
    rewrite Hvar.
    pose proof (buildTree_loop_grows _ _ _ _ _ _ _ _ _ _ _ _ Hbp
                  (or_intror eq_refl) Hvar) as Hg1.
    destruct (grows_extends _ _ _ _ Hg1) as [_ Hext]. simpl in Hext.
    destruct (Hext cur ncur Hc) as (ncur1 & Hc1 & Hle).
    eapply IH; [by apply (grows_wf _ _ _ _ Hg1) | exact Hc1 | | lia].
    destruct Hle as (_&_&_&->&_). done.
  - destruct (decide (token = ")")) as [_|_]; [done |].
    destruct (negb (truthy token)); [eapply IH; eauto; lia |].
    destruct (move_text E game token) as [[move game']|] eqn:Hmove;
      [|eapply IH; eauto; lia].
    simpl. eapply IH.
    + by eapply wf_attach.
    + apply lookup_attach_new. by eapply lookup_lt_Some.
    + by left.
    + lia.
Qed.

Lemma wf_root_heap : wf_heap [root_node E].
Proof.
  split.
  - by exists (root_node E).
  - intros p n c Hp Hin. destruct p; simpl in Hp; [|by destruct p].
    simplify_eq. by apply elem_of_nil in Hin.
  - intros c nc Hc Hc0. destruct c; [done |]. by destruct c.
Qed.

(** [parsePgnToTree] returns on every input. *)
Lemma parsePgnToTree_total (pgn : string) (w : nat) :
  is_Some (parsePgnToTree E random pgn w).
Proof.
  unfold parsePgnToTree. destruct (negb (truthy (cleanPgn pgn))); [done |].
  unfold buildTree.
  destruct (buildTree_loop_total (S (length (tokenize (cleanPgn pgn))))
              (tokenize (cleanPgn pgn)) 0 0 (root_node E) (new_Chess E) true
              [root_node E] w) as [[[r H] w'] Hrun].
  - apply wf_root_heap.
  - done.
  - by left.
  - lia.
  - by rewrite Hrun.
Qed.

Lemma parsePgnToTree_grows (pgn : string) (w : nat) (H : Heap) (w' : nat) :
  parsePgnToTree E random pgn w = Some (H, w') ->
  grows E random ([root_node E], w) (H, w').
Proof.
  unfold parsePgnToTree, buildTree. destruct (negb (truthy (cleanPgn pgn))).
  - intros. simplify_eq. apply rtc_refl.
  - destruct (buildTree_loop _ _ _ _ _ _ _ _ _ _) as [[[r H1] w1]|] eqn:Hrun; [|done].
    intros. simplify_eq.
    eapply (buildTree_loop_grows _ _ _ 0 (root_node E)); [done | by left | exact Hrun].
Qed.

Lemma parsePgnToTree_wf (pgn : string) (w : nat) (H : Heap) (w' : nat) :
  parsePgnToTree E random pgn w = Some (H, w') -> wf_heap H.
Proof.
  intros Hp. apply parsePgnToTree_grows in Hp.
  apply (grows_wf _ _ _ _ Hp). apply wf_root_heap.
Qed.

End Loop.

(** ** Parsing three transcripts *)

Lemma findClose_shift (rest : list string) :
  forall a j depth, findClose rest (a + j) depth = a + findClose rest j depth.
Proof.
  induction rest as [|t rest IH]; intros a j depth; simpl; [done |].
  destruct depth; [done |]. rewrite <- IH. f_equal. lia.
Qed.

Section Transcripts.

Context (E : Engine) (random : nat -> string).

(** The loop at index [i] only reads the tokens from [i] on. *)
Lemma buildTree_loop_suffix (fuel : nat) :
  forall tokens i cur game main H w,
    buildTree_loop E random fuel tokens i cur game main H w
    = shift i (buildTree_loop E random fuel (drop i tokens) 0 cur game main H w).
Proof.
  induction fuel as [|fuel IH]; intros tokens i cur game main H w; [done |].
  simpl. rewrite lookup_drop, Nat.add_0_r.
  destruct (tokens !! i) as [token|] eqn:Hi; [|simpl; by rewrite Nat.add_0_r].
  pose proof (lookup_lt_Some _ _ _ Hi) as Hlt.
  assert (forall k c g H1 w1,
            buildTree_loop E random fuel tokens (i + k) c g main H1 w1
            = shift i (buildTree_loop E random fuel (drop i tokens) k c g main H1 w1))
    as Hcont.
  { intros k c g H1 w1. rewrite (IH tokens (i + k)), (IH (drop i tokens) k), drop_drop.
    unfold shift.
    destruct (buildTree_loop _ _ _ _ _ _ _ _ _ _) as [[[r H2] w2]|]; simpl; [|done].
    do 3 f_equal. lia. }
  destruct (decide (token = "(")) as [_|_].
  - rewrite drop_drop.
    replace (i + (0 + 1)) with (i + 1) by lia.
    replace (findClose (drop (i + 1) tokens) (i + 1) 1)
      with (i + findClose (drop (i + 1) tokens) 1 1)
      by (rewrite <- findClose_shift; f_equal).
    pose proof (findClose_bounds (drop (i + 1) tokens) 1 1) as [Hj _].
    set (j := findClose (drop (i + 1) tokens) 1 1) in *.
    replace (slice (drop i tokens) 1 (j - 1))
      with (slice tokens (i + 1) (i + j - 1)).
    2:{ unfold slice. rewrite drop_drop. f_equal; lia. }
    destruct (H !! cur ≫= MoveNode.parent) as [branchPoint|]; [|apply Hcont].
    destruct (H !! branchPoint) as [bp|]; [|done].
    destruct (buildTree_loop E random fuel (slice tokens (i + 1) (i + j - 1)) 0
                branchPoint _ false H w) as [[[r1 H1] w1]|]; [|done].
    apply Hcont.
  - destruct (decide (token = ")")) as [_|_]; [simpl; do 3 f_equal; lia |].
    destruct (negb (truthy token)); [apply (Hcont 1) |].
    destruct (move_text E game token) as [[move game']|]; [|apply (Hcont 1)].
    simpl. apply (Hcont 1).
Qed.

(** One turn of the loop on a token that the engine refuses. *)
Lemma buildTree_loop_refused (fuel : nat) (tokens : list string) (i : nat)
    (token : string) (cur : handle) (game : Game E) (main : bool) (H : Heap) (w : nat) :
  tokens !! i = Some token ->
  token <> "(" -> token <> ")" ->
  move_text E game token = None ->
  buildTree_loop E random (S fuel) tokens i cur game main H w
  = buildTree_loop E random fuel tokens (i + 1) cur game main H w.
Proof.
  intros Hi Hopen Hclose Hno. simpl. rewrite Hi.
  destruct (decide (token = "(")) as [?|_]; [done |].
  destruct (decide (token = ")")) as [?|_]; [done |].
  destruct (negb (truthy token)); [done |]. by rewrite Hno.
Qed.

(** A refused token at the head of the tokens: the rest is parsed as if
    the token were not there. *)
Lemma buildTree_skips_refused (token : string) (rest : list string)
    (parentNode : handle) (game : Game E) (main : bool) (H : Heap) (w : nat) :
  token <> "(" -> token <> ")" ->
  move_text E game token = None ->
  buildTree E random (token :: rest) parentNode game main H w
  = shift 1 (buildTree E random rest parentNode game main H w).
Proof.
  intros Hopen Hclose Hno. unfold buildTree.
  change (length (token :: rest)) with (S (length rest)).
  rewrite (buildTree_loop_refused _ (token :: rest) 0 token) by done.
  by rewrite buildTree_loop_suffix.
Qed.

(** C1. Parsing "1. e4 (1. d4 d5) e5", where the four moves are legal,
    gives the root with the children e4 (main line) and d4 (a variation,
    attached at the parent of e4, the root); e4 has the one child e5 (its
    main continuation, at index 0), d4 has the one child d5; and
    [getLeafNodes] returns two leaves, the nodes of e5 and of d5. *)
Theorem parse_variation_branching (w : nat)
    (m_e4 m_e5 m_d4 m_d5 : Move.t) (g_e4 g_e5 g_d4 g_d5 : Game E) :
  move_text E (new_Chess E) "e4" = Some (m_e4, g_e4) ->
  move_text E g_e4 "e5" = Some (m_e5, g_e5) ->
  move_text E (load_fen E (fen_of E (new_Chess E))) "d4" = Some (m_d4, g_d4) ->
  move_text E g_d4 "d5" = Some (m_d5, g_d5) ->
  let H := [ root_with E [1; 2];
             node_of E random w m_e4 g_e4 [4] 0 true;
             node_of E random (S w) m_d4 g_d4 [3] 0 false;
             node_of E random (S (S w)) m_d5 g_d5 [] 2 false;
             node_of E random (S (S (S w))) m_e5 g_e5 [] 1 true ] in
  parsePgnToTree E random "1. e4 (1. d4 d5) e5" w = Some (H, S (S (S (S w)))) /\
  getLeafNodes H 0 = Some [4; 3].
Proof.
  intros He4 He5 Hd4 Hd5 H. split; [|done].
  unfold parsePgnToTree, buildTree.
  change (cleanPgn "1. e4 (1. d4 d5) e5") with "e4 ( d4 d5) e5".
  change (tokenize "e4 ( d4 d5) e5") with ["e4"; "("; "d4"; "d5"; ")"; "e5"].
  simpl. rewrite He4. simpl. rewrite Hd4, Hd5. simpl. rewrite He5. done.
Qed.

(** C3 (what the code does). Parsing "1. e4 (1. d4" returns, and the
    last token is lost: the tree is the root alone when e4 is refused, and
    the root with the single child e4 when it is accepted. There is no
    node for d4, whatever the engine answers. *)
Theorem parse_unclosed_variation (w : nat) :
  parsePgnToTree E random "1. e4 (1. d4" w
  = match move_text E (new_Chess E) "e4" with
    | Some (m, g) => Some ([root_with E [1]; node_of E random w m g [] 0 true], S w)
    | None => Some ([root_with E []], w)
    end.
Proof.
  unfold parsePgnToTree, buildTree.
  change (cleanPgn "1. e4 (1. d4") with "e4 ( d4".
  change (tokenize "e4 ( d4") with ["e4"; "("; "d4"].
  simpl. by destruct (move_text E (new_Chess E) "e4") as [[m g]|].
Qed.

(** C4. A token that is not a parenthesis and that the engine refuses is
    skipped: the remaining tokens are parsed as if it were not there, and
    [parsePgnToTree] returns on every input. In particular
    "1. e4 e5 2. Zz9 Nf3", where Zz9 is refused and the three moves are
    legal, gives the chain root, e4, e5, Nf3. *)
Theorem parse_skips_refused_tokens (w : nat)
    (m_e4 m_e5 m_Nf3 : Move.t) (g_e4 g_e5 g_Nf3 : Game E) :
  move_text E (new_Chess E) "e4" = Some (m_e4, g_e4) ->
  move_text E g_e4 "e5" = Some (m_e5, g_e5) ->
  move_text E g_e5 "Zz9" = None ->
  move_text E g_e5 "Nf3" = Some (m_Nf3, g_Nf3) ->
  (forall token rest parentNode game main H w0,
      token <> "(" -> token <> ")" -> move_text E game token = None ->
      buildTree E random (token :: rest) parentNode game main H w0
      = shift 1 (buildTree E random rest parentNode game main H w0)) /\
  (forall pgn w0, is_Some (parsePgnToTree E random pgn w0)) /\
  parsePgnToTree E random "1. e4 e5 2. Zz9 Nf3" w
  = Some ([ root_with E [1];
            node_of E random w m_e4 g_e4 [2] 0 true;
            node_of E random (S w) m_e5 g_e5 [3] 1 true;
            node_of E random (S (S w)) m_Nf3 g_Nf3 [] 2 true ], S (S (S w))).
Proof.
  intros He4 He5 Hzz HNf3.
  split; [intros; by apply buildTree_skips_refused |].
  split; [intros; apply parsePgnToTree_total |].
  unfold parsePgnToTree, buildTree.
  change (cleanPgn "1. e4 e5 2. Zz9 Nf3") with "e4 e5 Zz9 Nf3".
  change (tokenize "e4 e5 Zz9 Nf3") with ["e4"; "e5"; "Zz9"; "Nf3"].
  simpl. rewrite He4. simpl. rewrite He5. simpl. rewrite Hzz, HNf3. done.
Qed.

End Transcripts.

(** The opening book satisfies the hypotheses. *)
Lemma parse_variation_branching_book :
  parsePgnToTree Book.engine Book.tally "1. e4 (1. d4 d5) e5" 0
  = Some ([ root_with Book.engine [1; 2];
            node_of Book.engine Book.tally 0 Book.m_e4 [Book.e4; Book.start] [4] 0 true;
            node_of Book.engine Book.tally 1 Book.m_d4 [Book.d4; Book.start] [3] 0 false;
            node_of Book.engine Book.tally 2 Book.m_d5 [Book.d4d5; Book.d4; Book.start] [] 2 false;
            node_of Book.engine Book.tally 3 Book.m_e5 [Book.e4e5; Book.e4; Book.start] [] 1 true ],
           4) /\
  getLeafNodes
    [ root_with Book.engine [1; 2];
      node_of Book.engine Book.tally 0 Book.m_e4 [Book.e4; Book.start] [4] 0 true;
      node_of Book.engine Book.tally 1 Book.m_d4 [Book.d4; Book.start] [3] 0 false;
      node_of Book.engine Book.tally 2 Book.m_d5 [Book.d4d5; Book.d4; Book.start] [] 2 false;
      node_of Book.engine Book.tally 3 Book.m_e5 [Book.e4e5; Book.e4; Book.start] [] 1 true ]
    0 = Some [4; 3].
Proof.
  apply (parse_variation_branching Book.engine Book.tally 0); reflexivity.
Defined.

Lemma parse_skips_refused_tokens_book :
  parsePgnToTree Book.engine Book.tally "1. e4 e5 2. Zz9 Nf3" 0
  = Some ([ root_with Book.engine [1];
            node_of Book.engine Book.tally 0 Book.m_e4 [Book.e4; Book.start] [2] 0 true;
            node_of Book.engine Book.tally 1 Book.m_e5 [Book.e4e5; Book.e4; Book.start] [3] 1 true;
            node_of Book.engine Book.tally 2 Book.m_Nf3
              [Book.e4e5Nf3; Book.e4e5; Book.e4; Book.start] [] 2 true ], 3).
Proof.
  apply (parse_skips_refused_tokens Book.engine Book.tally 0); reflexivity.
Defined.

(** ** The queries on a well-formed heap *)

Section Queries.

Context (H : Heap) (Hwf : wf_heap H).

Lemma line_to_valid c line : line_to H c line -> is_Some (H !! c).
Proof.
  destruct 1 as [|p line n c _ Hp Hin].
  - destruct (wf_root H Hwf) as (r & Hr & _). by eexists.
  - destruct (wf_down H Hwf _ _ _ Hp Hin) as (_ & nc & Hnc & _). by eexists.
Qed.

(** Every node has a line: walk the parents up to the root. *)
Lemma line_to_exists c : is_Some (H !! c) -> exists line, line_to H c line.
Proof.
  induction (lt_wf c) as [c _ IH]. intros [nc Hc].
  destruct (decide (c = 0)) as [->|Hc0]; [exists []; constructor |].
  destruct (wf_up H Hwf c nc Hc Hc0) as (_ & p & np & Hp & Hnp & Hin).
  destruct (wf_down H Hwf p np c Hnp Hin) as [Hlt _].
  destruct (IH p Hlt) as [line Hline]; [by eexists |].
  exists (line ++ [c]). by econstructor.
Qed.

Lemma line_to_parent c line nc p :
  line_to H c line -> H !! c = Some nc -> MoveNode.parent nc = Some p ->
  exists line', line = line' ++ [c] /\ line_to H p line'.
Proof.
  destruct 1 as [|p' line n c Hline Hp Hin]; intros Hc Hpar.
  - destruct (wf_root H Hwf) as (r & Hr & Hrp & _). by simplify_eq.
  - destruct (wf_down H Hwf _ _ _ Hp Hin) as (_ & nc' & Hnc' & Hpar').
    assert (nc' = nc) as -> by congruence.
    assert (p' = p) as -> by congruence. by exists line.
Qed.

Lemma line_to_unique c line1 :
  line_to H c line1 -> forall line2, line_to H c line2 -> line1 = line2.
Proof.
  induction 1 as [|p line n c Hline IH Hp Hin]; intros line2 H2.
  - inversion H2 as [|p' line' n' c' _ Hp' Hin']; [done |]. subst.
    destruct (wf_down H Hwf _ _ _ Hp' Hin') as [Hlt _]. lia.
  - destruct (wf_down H Hwf _ _ _ Hp Hin) as (Hlt & nc & Hnc & Hpar).
    destruct (line_to_parent c line2 nc p H2 Hnc Hpar) as (line' & -> & Hl').
    by rewrite (IH line' Hl').
Qed.

Lemma line_to_depth c line : line_to H c line -> at_depth H c (length line).
Proof.
  induction 1 as [|p line n c Hline IH Hp Hin]; [constructor |].
  rewrite length_app, Nat.add_1_r. by econstructor.
Qed.

Lemma at_depth_line c d : at_depth H c d -> exists line, line_to H c line /\ length line = d.
Proof.
  induction 1 as [|p n c d _ (line & Hline & Hlen) Hp Hin]; [exists []; split; [constructor | done] |].
  exists (line ++ [c]). split; [by econstructor |]. rewrite length_app. simpl. lia.
Qed.

(** The loop of [getPathToNode] ends and finds the line, below the root. *)
Lemma pathTo_fuel_spec c line :
  line_to H c line ->
  forall fuel acc, c + 1 < fuel ->
    pathTo_fuel fuel H (Some c) acc = Some (0 :: line ++ acc).
Proof.
  induction 1 as [|p line n c Hline IH Hp Hin]; intros fuel acc Hfuel.
  - destruct (wf_root H Hwf) as (r & Hr & Hrp & _).
    destruct fuel as [|[|fuel]]; [lia | lia |]. simpl. by rewrite Hr, Hrp.
  - destruct (wf_down H Hwf _ _ _ Hp Hin) as (Hlt & nc & Hnc & Hpar).
    destruct fuel as [|fuel]; [lia |]. simpl. rewrite Hnc, Hpar.
    rewrite IH by lia. by rewrite <- app_assoc.
Qed.

(** The loop of [getAllLines] ends and finds the line. *)
Lemma lineOf_fuel_spec c line :
  line_to H c line ->
  forall fuel acc, c + 1 < fuel ->
    lineOf_fuel fuel H (Some c) acc = Some (line ++ acc).
Proof.
  induction 1 as [|p line n c Hline IH Hp Hin]; intros fuel acc Hfuel.
  - destruct (wf_root H Hwf) as (r & Hr & _ & Hrm).
    destruct fuel as [|fuel]; [lia |]. simpl. by rewrite Hr, Hrm.
  - destruct (wf_down H Hwf _ _ _ Hp Hin) as (Hlt & nc & Hnc & Hpar).
    assert (c <> 0) as Hc0 by lia.
    destruct (wf_up H Hwf c nc Hnc Hc0) as ([m Hm] & _).
    destruct fuel as [|fuel]; [lia |]. simpl. rewrite Hnc, Hm, Hpar.
    rewrite IH by lia. by rewrite <- app_assoc.
Qed.

Lemma getPathToNode_spec c line :
  line_to H c line -> getPathToNode H c = Some (0 :: line).
Proof.
  intros Hline. unfold getPathToNode.
  destruct (line_to_valid c line Hline) as [nc Hc].
  apply lookup_lt_Some in Hc.
  rewrite (pathTo_fuel_spec c line Hline) by lia. by rewrite app_nil_r.
Qed.

(** [getLeafNodes] ends, and its leaves are nodes without children. *)
Lemma getLeafNodes_fuel_total fuel :
  forall c, is_Some (H !! c) -> length H - c <= fuel ->
    is_Some (getLeafNodes_fuel fuel H c).
Proof.
  induction fuel as [|fuel IH]; intros c [n Hc] Hfuel.
  - apply lookup_lt_Some in Hc. lia.
  - simpl. rewrite Hc. case_decide; [done |].
    apply fmap_is_Some, mapM_is_Some, Forall_forall. intros x Hx. simpl.
    destruct (wf_down H Hwf _ _ _ Hc Hx) as (Hlt & nx & Hnx & _).
    apply IH; [by eexists | lia].
Qed.

Lemma getLeafNodes_fuel_leaves fuel :
  forall c leaves,
    getLeafNodes_fuel fuel H c = Some leaves ->
    Forall (fun leaf => exists n, H !! leaf = Some n /\ MoveNode.children n = []) leaves.
Proof.
  induction fuel as [|fuel IH]; intros c leaves Hrun; [done |].
  simpl in Hrun. destruct (H !! c) as [n|] eqn:Hc; [|done].
  case_decide as Hlen.
  - simplify_eq. constructor; [|done]. exists n. split; [done |].
    by apply length_zero_iff_nil.
  - apply fmap_Some in Hrun as (parts & Hparts & ->).
    apply mapM_Some_1 in Hparts.
    apply Forall_concat. clear Hlen Hc.
    induction Hparts as [|x y xs ys Hxy _ IHp]; constructor; [by eapply IH | done].
Qed.

End Queries.

(** ** The line selector *)

Lemma unplayed_spec (H : Heap) (completed : gset string) (line : list handle) :
  unplayed H completed line = true <-> line_unplayed H completed line.
Proof.
  unfold unplayed, lastId, line_unplayed. split.
  - destruct (last line) as [leaf|]; [|done]. simpl.
    destruct (H !! leaf) as [n|] eqn:Hn; [|done]. simpl.
    intros [Ht Hc]%andb_true_iff. exists leaf, n.
    split; [done |]. split; [done |]. split; [by apply truthy_true |].
    by apply bool_decide_eq_true in Hc.
  - intros (leaf & n & -> & Hn & Hne & Hc). rewrite Hn. simpl.
    apply andb_true_iff. split; [by destruct (MoveNode.id n) | by apply bool_decide_eq_true].
Qed.

Lemma first_where_ext {A} (P Q : A -> Prop) (lines : list A) (res : option A) :
  (forall line, line ∈ lines -> P line <-> Q line) ->
  first_where P lines res -> first_where Q lines res.
Proof.
  intros Hext. destruct res as [line|]; simpl.
  - intros (k & Hk & HP & Hfirst). exists k. split; [done |].
    assert (forall j x, lines !! j = Some x -> x ∈ lines) as Hin.
    { intros j x Hj. apply list_elem_of_lookup. by exists j. }
    split; [by apply (Hext line (Hin k line Hk)) |].
    intros k' line' Hlt Hk' HQ. apply (Hfirst k' line' Hlt Hk').
    by apply (Hext line' (Hin k' line' Hk')).
  - intros Hnone line Hin HQ. apply (Hnone line Hin). by apply Hext.
Qed.

Lemma line_to_last (H : Heap) (c : handle) (line : list handle) (leaf : handle) :
  line_to H c line -> last line = Some leaf -> leaf = c.
Proof.
  destruct 1 as [|p line n c _ _ _]; [done |].
  rewrite last_snoc. by intros [= ->].
Qed.

Lemma firstUnplayed_spec (H : Heap) (completed : gset string) (lines : list (list handle)) :
  first_where (line_unplayed H completed) lines (firstUnplayed H completed lines).
Proof.
  induction lines as [|line lines IH]; simpl.
  - intros line Hin. by apply elem_of_nil in Hin.
  - destruct (unplayed H completed line) eqn:Hu.
    + exists 0. split; [done |]. split; [by apply unplayed_spec |]. intros; lia.
    + assert (~ line_unplayed H completed line) as Hno.
      { intros Hp%unplayed_spec. congruence. }
      destruct (firstUnplayed H completed lines) as [found|]; simpl in *.
      * destruct IH as (k & Hk & HP & Hfirst). exists (S k).
        split; [done |]. split; [done |].
        intros [|k'] line' Hlt Hl; simpl in Hl; [by simplify_eq |].
        apply (Hfirst k'); [lia | done].
      * intros line' [->|Hin]%elem_of_cons; [done | by apply IH].
Qed.

(** On a well-formed tree, [getLeafNodes] and [getAllLines] return: one
    line per leaf, in the order of the leaves, each the path from the root
    to its leaf without the root. [findNextUnplayedLine] returns the first
    of these lines whose terminal leaf has an identity that is not empty
    and not in the completed set, and null when there is none, as on the
    tree whose root has no child. When no leaf has the empty identity, this
    is the first line whose terminal leaf identity is not in the completed
    set. *)
Lemma findNextUnplayedLine_lines
    (H : Heap) (root : handle) (completed : gset string) :
  wf_heap H -> is_Some (H !! root) ->
  exists leaves lines res,
    getLeafNodes H root = Some leaves /\
    getAllLines H root = Some lines /\
    Forall2 (fun leaf line => getPathToNode H leaf = Some (0 :: line)) leaves lines /\
    findNextUnplayedLine H root completed = Some res /\
    first_where (line_unplayed H completed) lines res /\
    ((forall leaf n, leaf ∈ leaves -> H !! leaf = Some n -> MoveNode.id n <> EmptyString) ->
     first_where (line_uncompleted H completed) lines res) /\
    (forall r, root = 0 -> H !! 0 = Some r -> MoveNode.children r = [] -> res = None).
Proof.
  intros Hwf Hroot.
  destruct (getLeafNodes_fuel_total H Hwf (length H) root Hroot) as [leaves Hleaves]; [lia |].
  pose proof (getLeafNodes_fuel_leaves H (length H) root leaves Hleaves) as Hvalid.
  assert (exists lines,
             mapM (fun leaf => lineOf_fuel (S (length H)) H (Some leaf) []) leaves = Some lines /\
             Forall2 (fun leaf line => line_to H leaf line) leaves lines) as (lines & Hlines & Hall).
  { clear Hleaves. induction Hvalid as [|leaf leaves (n & Hn & _) _ (lines & Hl & Hall)].
    - by exists [].
    - destruct (line_to_exists H Hwf leaf) as [line Hline]; [by eexists |].
      exists (line :: lines). split; [|by constructor].
      apply lookup_lt_Some in Hn.
      change (mapM ?f (leaf :: leaves)) with (x ← f leaf; k ← mapM f leaves; mret (x :: k)).
      rewrite Hl. cbv beta.
      rewrite (lineOf_fuel_spec H Hwf leaf line Hline) by lia.
      by rewrite app_nil_r. }
  exists leaves, lines, (firstUnplayed H completed lines).
  split; [done |].
  assert (getAllLines H root = Some lines) as Hget.
  { unfold getAllLines. fold (getLeafNodes H root). unfold getLeafNodes. by rewrite Hleaves. }
  split; [done |]. split.
  { eapply Forall2_impl; [exact Hall |]. intros leaf line Hline.
    by apply getPathToNode_spec. }
  split; [unfold findNextUnplayedLine; by rewrite Hget |].
  split; [apply firstUnplayed_spec |].
  split.
  { intros Hids. eapply first_where_ext; [|apply firstUnplayed_spec].
    intros line Hin. apply list_elem_of_lookup in Hin as [k Hk].
    destruct (Forall2_lookup_r _ _ _ _ _ Hall Hk) as (leaf & Hleaf & Hline).
    split.
    - intros (leaf' & n & Hlast & Hn & _ & Hc). by exists leaf', n.
    - intros (leaf' & n & Hlast & Hn & Hc). exists leaf', n.
      repeat (split; [done |]). split; [|done].
      apply (Hids leaf'); [|done].
      rewrite (line_to_last H leaf line leaf' Hline Hlast).
      apply list_elem_of_lookup. by exists k. }
  intros r -> Hr Hch.
  assert (leaves = [0]) as ->.
  { unfold getLeafNodes_fuel in Hleaves. destruct H as [|r' H']; [done |].
    simpl in Hr, Hleaves. simplify_eq. rewrite Hch in Hleaves. simpl in Hleaves. by simplify_eq. }
  apply Forall2_cons_inv_l in Hall as (line & lines' & Hline & Hrest & ->).
  apply Forall2_nil_inv_l in Hrest as ->.
  rewrite (line_to_unique H Hwf 0 line Hline [] (line_root H)). done.
Qed.

(** C2 (what the code does). When the generator returns the empty string
    for the node of e4, the tree of "1. e4" has the single leaf e4 and the
    single line of e4. The identity of the leaf, the empty string, is not in
    the empty completed set: the first line whose terminal leaf is not
    completed is the line of e4. [findNextUnplayedLine] returns null,
    whatever the completed set: its test [leafId && ...], there for the
    line without node, takes the empty identity for a missing leaf. *)
Theorem findNextUnplayedLine_skips_empty_identity (E : Engine) (random : nat -> string)
    (w : nat) (m : Move.t) (g : Game E) :
  move_text E (new_Chess E) "e4" = Some (m, g) ->
  random w = EmptyString ->
  let H := [root_with E [1]; node_of E random w m g [] 0 true] in
  parsePgnToTree E random "1. e4" w = Some (H, S w) /\
  getLeafNodes H 0 = Some [1] /\
  getAllLines H 0 = Some [[1]] /\
  first_where (line_uncompleted H ∅) [[1]] (Some [1]) /\
  forall completed, findNextUnplayedLine H 0 completed = Some None.
Proof.
  intros He4 Hrandom H. split.
  { unfold parsePgnToTree, buildTree.
    change (cleanPgn "1. e4") with "e4".
    change (tokenize "e4") with ["e4"].
    simpl. by rewrite He4. }
  split; [done |]. split; [done |]. split.
  { exists 0. split; [done |]. split; [|intros; lia].
    eexists 1, _. split; [done |]. split; [done |]. set_solver. }
  intros completed. unfold findNextUnplayedLine.
  change (getAllLines H 0) with (Some [[1]]). simpl.
  unfold unplayed, lastId. simpl. by rewrite Hrandom.
Qed.

(** The opening book accepts e4, and [Book.blank] is a generator that
    returns the empty string at every call. *)
Lemma findNextUnplayedLine_skips_empty_identity_book :
  parsePgnToTree Book.engine Book.blank "1. e4" 0 = Some (Book.tree_blank, 1) /\
  getLeafNodes Book.tree_blank 0 = Some [1] /\
  getAllLines Book.tree_blank 0 = Some [[1]] /\
  first_where (line_uncompleted Book.tree_blank ∅) [[1]] (Some [1]) /\
  forall completed, findNextUnplayedLine Book.tree_blank 0 completed = Some None.
Proof.
  apply (findNextUnplayedLine_skips_empty_identity Book.engine Book.blank 0
           Book.m_e4 [Book.e4; Book.start]); reflexivity.
Defined.

(** ** Paths and positions *)

Section Paths.

Context (E : Engine) (random : nat -> string).

Lemma replay_app (H : Heap) (l1 l2 : list handle) :
  forall g, replay E H g (l1 ++ l2) = replay E H g l1 ≫= fun g' => replay E H g' l2.
Proof.
  induction l1 as [|n l1 IH]; intros g; simpl; [done |].
  destruct (H !! n ≫= MoveNode.move) as [m|]; [|apply IH].
  destruct (move_object E g m) as [[m' g']|]; [apply IH | done].
Qed.

(** Playing the moves of a line from a game at the position of the root
    leads to the position of the node at its end. *)
Lemma replay_line (H : Heap) (c : handle) (line : list handle) :
  wf_heap H -> positions_ok E H ->
  line_to H c line ->
  forall nc r g0,
    H !! c = Some nc -> H !! 0 = Some r -> fen_of E g0 = MoveNode.fen r ->
    exists g, replay E H g0 line = Some g /\ fen_of E g = MoveNode.fen nc.
Proof.
  intros Hwf Hpos. induction 1 as [|p line n c Hline IH Hp Hin]; intros nc r g0 Hc Hr Hg0.
  - exists g0. simplify_eq. done.
  - destruct (IH n r g0 Hp Hr Hg0) as (gp & Hrun & Hgp).
    destruct (wf_down H Hwf _ _ _ Hp Hin) as (Hlt & nc' & Hnc' & Hpar).
    assert (nc' = nc) as -> by congruence.
    destruct (Hpos c nc Hc) as [_ Hmove].
    destruct Hmove as (p' & np' & m & Hpar' & Hnp' & Hm & _ & Happ); [lia |].
    assert (p' = p) as -> by congruence.
    assert (np' = n) as -> by congruence.
    destruct (Happ gp Hgp) as (m' & g' & Hplay & Hg').
    exists g'. split; [|done].
    rewrite replay_app, Hrun. simpl. rewrite Hc. simpl. by rewrite Hm, Hplay.
Qed.

Lemma positions_root_heap : positions_ok E [root_node E].
Proof.
  intros c nc Hc. destruct c as [|c]; [|by destruct c].
  simpl in Hc. simplify_eq. split; [by exists (new_Chess E) | done].
Qed.

(** C5. For every node of a tree that [parsePgnToTree] returned,
    [getPathToNode] returns a path that starts with the root and ends
    with the node, whose length is the depth of the node plus one. Under
    the contract of the engine, the position of a node other than the root
    is where its move leads from the position of its parent, and playing
    the moves of the path in order from the starting position leads to the
    position of the node. *)
Theorem getPathToNode_reconstructs (pgn : string) (w : nat) (H : Heap) (w' : nat)
    (c : handle) (nc : MoveNode.t) :
  engine_laws E ->
  parsePgnToTree E random pgn w = Some (H, w') ->
  H !! c = Some nc ->
  exists path g,
    getPathToNode H c = Some path /\
    head path = Some 0 /\ last path = Some c /\
    (exists d, at_depth H c d) /\
    (forall d, at_depth H c d -> length path = d + 1) /\
    (c <> 0 -> exists p np m,
        MoveNode.parent nc = Some p /\ H !! p = Some np /\
        MoveNode.move nc = Some m /\
        applies E (MoveNode.fen np) m (MoveNode.fen nc)) /\
    replay E H (new_Chess E) path = Some g /\
    fen_of E g = MoveNode.fen nc.
Proof.
  intros Hlaws Hparse Hc.
  pose proof (parsePgnToTree_wf _ _ _ _ _ _ Hparse) as Hwf.
  pose proof (parsePgnToTree_grows _ _ _ _ _ _ Hparse) as Hgrows.
  pose proof (grows_positions _ _ _ _ Hlaws Hgrows positions_root_heap) as Hpos.
  simpl in Hpos.
  destruct (line_to_exists H Hwf c) as [line Hline]; [by eexists |].
  destruct (grows_extends _ _ _ _ Hgrows) as [_ Hext]. simpl in Hext.
  destruct (Hext 0 (root_node E) eq_refl) as (r & Hr & Hle).
  destruct (replay_line H c line Hwf Hpos Hline nc r (new_Chess E) Hc Hr) as (g & Hrun & Hg).
  { destruct Hle as (_&_&_&->&_). done. }
  exists (0 :: line), g.
  split; [by apply getPathToNode_spec |]. split; [done |].
  split.
  { destruct Hline; [done |]. by rewrite app_comm_cons, last_snoc. }
  split; [eexists; by apply line_to_depth |].
  split.
  { intros d (line' & Hline' & <-)%(at_depth_line H).
    rewrite (line_to_unique H Hwf c line Hline line' Hline'). simpl. lia. }
  split.
  { intros Hc0. destruct (Hpos c nc Hc) as [_ Hmove].
    destruct (Hmove Hc0) as (p & np & m & ? & ? & ? & _ & ?). by exists p, np, m. }
  split; [|done]. simpl.
  destruct (wf_root H Hwf) as (r' & Hr' & _ & Hrm). rewrite Hr'. simpl. by rewrite Hrm.
Qed.

End Paths.

(** A move of the book comes from an entry of the table. *)
Lemma book_play_inv (sel : Move.t -> bool) (g : Book.game) (m : Move.t) (g' : Book.game) :
  Book.play sel g = Some (m, g') ->
  exists after, In (Book.top g, m, after) Book.table /\ g' = after :: g.
Proof.
  unfold Book.play. destruct (find _ Book.table) as [[[f m0] after]|] eqn:Hfind; [|done].
  intros [= -> <-]. apply find_some in Hfind as [Hin Hsel]. cbn [fst snd] in Hsel.
  apply andb_true_iff in Hsel as [Hf%String.eqb_eq _]. subst f. by exists after.
Qed.

(** The opening book keeps the contract of the engine. *)
Lemma book_engine_laws : engine_laws Book.engine.
Proof.
  split; [done |].
  intros g token m g' Hmove g2 Hg2.
  change (Book.play (fun m0 => String.eqb (Move.san m0) token) g = Some (m, g')) in Hmove.
  change (exists m' g'',
             Book.play (fun m0 => String.eqb (Move.lan m0) (Move.lan m)) g2 = Some (m', g'') /\
             Book.top g'' = Book.top g').
  change (Book.top g2 = Book.top g) in Hg2.
  apply book_play_inv in Hmove as (after & Hin & ->).
  unfold Book.play. rewrite Hg2. change (Book.top (after :: g)) with after.
  unfold Book.table in Hin |- *. cbn [In] in Hin.
  repeat (destruct Hin as [[= <- <- <-]|Hin]; [vm_compute; eauto |]).
  done.
Qed.

Lemma getPathToNode_reconstructs_book :
  exists path g,
    getPathToNode Book.tree_variation 3 = Some path /\
    head path = Some 0 /\ last path = Some 3 /\
    (exists d, at_depth Book.tree_variation 3 d) /\
    (forall d, at_depth Book.tree_variation 3 d -> length path = d + 1) /\
    (3 <> 0 -> exists p np m,
        MoveNode.parent (node_of Book.engine Book.tally 2 Book.m_d5
                           [Book.d4d5; Book.d4; Book.start] [] 2 false) = Some p /\
        Book.tree_variation !! p = Some np /\
        MoveNode.move (node_of Book.engine Book.tally 2 Book.m_d5
                         [Book.d4d5; Book.d4; Book.start] [] 2 false) = Some m /\
        applies Book.engine (MoveNode.fen np) m Book.d4d5) /\
    replay Book.engine Book.tree_variation [Book.start] path = Some g /\
    Book.top g = Book.d4d5.
Proof.
  apply (getPathToNode_reconstructs Book.engine Book.tally "1. e4 (1. d4 d5) e5" 0
           Book.tree_variation 4 3).
  - apply book_engine_laws.
  - vm_compute. reflexivity.
  - vm_compute. reflexivity.
Defined.

(** ** Parsing the same text twice *)

Lemma erase_push (c : handle) (n : MoveNode.t) :
  erase_id (MoveNode.push c n) = MoveNode.push c (erase_id n).
Proof. done. Qed.

Lemma same_structure_length (H1 H2 : Heap) :
  same_structure H1 H2 -> length H1 = length H2.
Proof. intros Heq. by rewrite <- (length_fmap erase_id H1), Heq, length_fmap. Qed.

Lemma same_structure_lookup (H1 H2 : Heap) (h : handle) :
  same_structure H1 H2 -> erase_id <$> H1 !! h = erase_id <$> H2 !! h.
Proof. intros Heq. by rewrite <- !list_lookup_fmap, Heq. Qed.

Lemma same_structure_parent (H1 H2 : Heap) (h : handle) :
  same_structure H1 H2 -> H1 !! h ≫= MoveNode.parent = H2 !! h ≫= MoveNode.parent.
Proof.
  intros Heq. pose proof (same_structure_lookup H1 H2 h Heq) as Hl.
  destruct (H1 !! h) as [n1|], (H2 !! h) as [n2|]; simplify_eq/=; congruence.
Qed.

Lemma same_structure_fen (H1 H2 : Heap) (h : handle) :
  same_structure H1 H2 -> MoveNode.fen <$> H1 !! h = MoveNode.fen <$> H2 !! h.
Proof.
  intros Heq. pose proof (same_structure_lookup H1 H2 h Heq) as Hl.
  destruct (H1 !! h) as [n1|], (H2 !! h) as [n2|]; simplify_eq/=; congruence.
Qed.

Lemma same_structure_attach (H1 H2 : Heap) (cur : handle) (n1 n2 : MoveNode.t) :
  same_structure H1 H2 -> erase_id n1 = erase_id n2 ->
  same_structure (attach H1 cur n1) (attach H2 cur n2).
Proof.
  intros Heq Hn. unfold same_structure, attach.
  rewrite !(list_fmap_alter erase_id (MoveNode.push _) (MoveNode.push _))
    by (by apply Forall_true).
  rewrite !fmap_app. simpl. rewrite Heq, Hn.
  by rewrite (same_structure_length H1 H2 Heq).
Qed.

Section Reparse.

Context (E : Engine) (random : nat -> string).

(** Two runs of the loop on heaps with the same structure return the same
    index and heaps with the same structure, whatever the generator
    states are. *)
Lemma buildTree_loop_same_structure (fuel : nat) :
  forall tokens i cur game main H1 w1 H2 w2,
    same_structure H1 H2 ->
    option_Forall2 (fun r1 r2 => r1.1.1 = r2.1.1 /\ same_structure r1.1.2 r2.1.2)
      (buildTree_loop E random fuel tokens i cur game main H1 w1)
      (buildTree_loop E random fuel tokens i cur game main H2 w2).
Proof.
  induction fuel as [|fuel IH]; intros tokens i cur game main H1 w1 H2 w2 Heq;
    [constructor |]. simpl.
  destruct (tokens !! i) as [token|]; [|by constructor].
  destruct (decide (token = "(")) as [_|_].
  - rewrite <- (same_structure_parent H1 H2 cur Heq).
    destruct (H1 !! cur ≫= MoveNode.parent) as [branchPoint|]; [|by apply IH].
    pose proof (same_structure_fen H1 H2 branchPoint Heq) as Hfen.
    destruct (H1 !! branchPoint) as [bp1|], (H2 !! branchPoint) as [bp2|];
      simplify_eq/=; [|constructor].
    rewrite <- Hfen.
    match goal with |- context [buildTree_loop E random fuel ?ts 0 branchPoint ?g false H1 w1] =>
      pose proof (IH ts 0 branchPoint g false H1 w1 H2 w2 Heq) as Hvar
    end.
    destruct Hvar as [[[r1 H1'] w1'] [[r2 H2'] w2'] [_ Heq']|]; [|constructor].
    by apply IH.
  - destruct (decide (token = ")")) as [_|_]; [by constructor |].
    destruct (negb (truthy token)); [by apply IH |].
    destruct (move_text E game token) as [[move game']|]; [|by apply IH].
    simpl. rewrite (same_structure_length H1 H2 Heq).
    apply IH. by apply same_structure_attach.
Qed.

Lemma parsePgnToTree_same_structure (pgn : string) (w1 w2 : nat) :
  option_Forall2 (fun r1 r2 => same_structure r1.1 r2.1)
    (parsePgnToTree E random pgn w1) (parsePgnToTree E random pgn w2).
Proof.
  unfold parsePgnToTree, buildTree.
  destruct (negb (truthy (cleanPgn pgn))); [by constructor |].
  destruct (buildTree_loop_same_structure
              (S (length (tokenize (cleanPgn pgn)))) (tokenize (cleanPgn pgn))
              0 0 (new_Chess E) true [root_node E] w1 [root_node E] w2 eq_refl)
    as [[[r1 H1] u1] [[r2 H2] u2] [_ Heq]|]; by constructor.
Qed.

(** The identities of a parsed tree: "root", then the results of the
    generator in the order of the calls. *)
Lemma parsePgnToTree_ids (pgn : string) (w : nat) (H : Heap) (w' : nat) :
  parsePgnToTree E random pgn w = Some (H, w') ->
  S w' = w + length H /\
  (exists r, H !! 0 = Some r /\ MoveNode.id r = "root") /\
  (forall k n, H !! S k = Some n -> MoveNode.id n = random (w + k)).
Proof.
  intros Hparse. apply parsePgnToTree_grows in Hparse as Hgrows.
  destruct (grows_ids E random w _ _ Hgrows) as [Hw Hids]; [done | |].
  { split; simpl; [lia |]. by intros [|k] n. }
  split; [done |]. split; [|done].
  destruct (grows_extends _ _ _ _ Hgrows) as [_ Hext].
  destruct (Hext 0 (root_node E) eq_refl) as (r & Hr & Hle).
  exists r. split; [done |]. by destruct Hle as (->&_).
Qed.

(** C6 (amended). Parsing the same text twice, with any number of calls of
    the generator in between, gives two trees with the same structure:
    same shape, same notations and moves, same positions. The root has the
    identity "root" in both. When the results of the generator at the calls
    that the two parses make are pairwise different and none is "root", the
    identities are unique within each tree and no node other than the
    roots shares its identity with a node of the other tree. *)
Theorem reparse_same_structure (pgn : string) (w gap : nat) :
  exists H1 w1 H2 w2 r1 r2,
    parsePgnToTree E random pgn w = Some (H1, w1) /\
    parsePgnToTree E random pgn (w1 + gap) = Some (H2, w2) /\
    same_structure H1 H2 /\
    H1 !! 0 = Some r1 /\ H2 !! 0 = Some r2 /\
    MoveNode.id r1 = "root" /\ MoveNode.id r2 = "root" /\
    let called a := w <= a < w1 \/ w1 + gap <= a < w2 in
    (forall a b, called a -> called b -> random a = random b -> a = b) ->
    (forall a, called a -> random a <> "root") ->
    NoDup (MoveNode.id <$> H1) /\ NoDup (MoveNode.id <$> H2) /\
    identities_differ_below_root H1 H2.
Proof.
  destruct (parsePgnToTree_total E random pgn w) as [[H1 w1] Hp1].
  destruct (parsePgnToTree_total E random pgn (w1 + gap)) as [[H2 w2] Hp2].
  destruct (parsePgnToTree_ids pgn w H1 w1 Hp1) as (Hw1 & (r1 & Hr1 & Hid1) & Hids1).
  destruct (parsePgnToTree_ids pgn (w1 + gap) H2 w2 Hp2)
    as (Hw2 & (r2 & Hr2 & Hid2) & Hids2).
  pose proof (parsePgnToTree_same_structure pgn w (w1 + gap)) as Hsame.
  rewrite Hp1, Hp2 in Hsame. inversion Hsame as [? ? Hs|]; subst. simpl in Hs.
  exists H1, w1, H2, w2, r1, r2. repeat (split; [done |]).
  intros called Hinj Hroot.
  assert (forall (H : Heap) w0 r,
             H !! 0 = Some r -> MoveNode.id r = "root" ->
             (forall k n, H !! S k = Some n -> MoveNode.id n = random (w0 + k)) ->
             (forall k, S k < length H -> called (w0 + k)) ->
             NoDup (MoveNode.id <$> H)) as Hnodup.
  { intros H w0 r Hr Hid Hids Hcalled. apply NoDup_alt. intros i j x Hi Hj.
    rewrite list_lookup_fmap in Hi, Hj.
    destruct (H !! i) as [ni|] eqn:Hni; [|done].
    destruct (H !! j) as [nj|] eqn:Hnj; [|done]. simplify_eq/=.
    apply lookup_lt_Some in Hni as Hlti. apply lookup_lt_Some in Hnj as Hltj.
    destruct i as [|i], j as [|j]; [done | | |].
    - assert (ni = r) as -> by congruence.
      rewrite (Hids j nj Hnj), Hid in Hi. by destruct (Hroot (w0 + j) (Hcalled j Hltj)).
    - assert (nj = r) as -> by congruence.
      rewrite (Hids i ni Hni), Hid in Hi. by destruct (Hroot (w0 + i) (Hcalled i Hlti)).
    - rewrite (Hids i ni Hni), (Hids j nj Hnj) in Hi.
      apply Hinj in Hi; [f_equal; lia | by apply Hcalled | by apply Hcalled]. }
  assert (forall k, S k < length H1 -> called (w + k)) as Hcalled1.
  { intros k Hk. left. lia. }
  assert (forall k, S k < length H2 -> called (w1 + gap + k)) as Hcalled2.
  { intros k Hk. right. lia. }
  split; [by eapply Hnodup |]. split; [by eapply Hnodup |].
  intros i j n1 n2 Hn1 Hn2 Heq.
  rewrite (Hids1 i n1 Hn1), (Hids2 j n2 Hn2) in Heq.
  apply lookup_lt_Some in Hn1. apply lookup_lt_Some in Hn2.
  apply Hinj in Heq; [lia | by apply Hcalled1 | by apply Hcalled2].
Qed.

End Reparse.

Lemma tally_inj (a b : nat) : Book.tally a = Book.tally b -> a = b.
Proof.
  revert b. induction a as [|a IH]; intros [|b]; simpl; try done.
  intros [= Heq]. f_equal. by apply IH.
Qed.

Lemma tally_not_root (a : nat) : Book.tally a <> "root".
Proof. by destruct a. Qed.

(** Two parses of "1. e4 (1. d4 d5) e5", one right after the other, with a
    generator whose results are all different. *)
Lemma reparse_same_structure_book :
  exists H1 w1 H2 w2 r1 r2,
    parsePgnToTree Book.engine Book.tally "1. e4 (1. d4 d5) e5" 0 = Some (H1, w1) /\
    parsePgnToTree Book.engine Book.tally "1. e4 (1. d4 d5) e5" (w1 + 0) = Some (H2, w2) /\
    same_structure H1 H2 /\
    H1 !! 0 = Some r1 /\ H2 !! 0 = Some r2 /\
    MoveNode.id r1 = "root" /\ MoveNode.id r2 = "root" /\
    NoDup (MoveNode.id <$> H1) /\ NoDup (MoveNode.id <$> H2) /\
    identities_differ_below_root H1 H2.
Proof.
  destruct (reparse_same_structure Book.engine Book.tally "1. e4 (1. d4 d5) e5" 0 0)
    as (H1 & w1 & H2 & w2 & r1 & r2 & Hp1 & Hp2 & Hsame & Hr1 & Hr2 & Hid1 & Hid2 & Hids).
  exists H1, w1, H2, w2, r1, r2. repeat (split; [done |]).
  apply Hids.
  - intros a b _ _. apply tally_inj.
  - intros a _. apply tally_not_root.
Defined.

(** C6 (as stated, refuted). The two trees of "1. e4" have roots with the
    same identity; and with a generator that returns the same string at
    every call, the two moves of "1. e4 e5" have the same identity in one
    tree. *)
Lemma reparse_roots_share_identity :
  (exists H1 H2,
      parsePgnToTree Book.engine Book.tally "1. e4" 0 = Some (H1, 1) /\
      parsePgnToTree Book.engine Book.tally "1. e4" 1 = Some (H2, 2) /\
      ~ identities_differ H1 H2) /\
  (exists H,
      parsePgnToTree Book.engine Book.blank "1. e4 e5" 0 = Some (H, 2) /\
      ~ NoDup (MoveNode.id <$> H)).
Proof.
  split.
  - eexists _, _. split; [by vm_compute |]. split; [by vm_compute |].
    intros Hdiff. by eapply (Hdiff 0).
  - eexists. split; [by vm_compute |].
    intros Hnodup. apply NoDup_cons in Hnodup as [_ Hnodup].
    apply NoDup_cons in Hnodup as [Hnotin _]. apply Hnotin. by left.
Qed.

(** ** The drill handler *)

Section Drill.

Context (E : Engine).

Lemma first_child_leaf_unique (H : Heap) (h leaf1 : handle) :
  first_child_leaf H h leaf1 -> forall leaf2, first_child_leaf H h leaf2 -> leaf1 = leaf2.
Proof.
  induction 1 as [h n Hn Hch | h n c rest leaf Hn Hch _ IH]; intros leaf2 H2.
  - inversion H2 as [h' n' Hn' Hch' | h' n' c' rest' leaf' Hn' Hch' _]; subst; [done |].
    congruence.
  - inversion H2 as [h' n' Hn' Hch' | h' n' c' rest' leaf' Hn' Hch' Hrest]; subst;
      [congruence |].
    apply IH. assert (n' = n) as -> by congruence.
    assert (c' = c) as -> by congruence. done.
Qed.

(** [markVariationComplete] ends on a well-formed heap: it adds the
    identity of the leaf at the end of the chain of first children. *)
Lemma markVariationComplete_spec (H : Heap) (completed : gset string) (fuel : nat) :
  wf_heap H ->
  forall node, is_Some (H !! node) -> length H - node <= fuel ->
    exists leaf nleaf,
      first_child_leaf H node leaf /\ H !! leaf = Some nleaf /\
      MoveNode.children nleaf = [] /\
      markVariationComplete fuel H completed node
      = Some ({[MoveNode.id nleaf]} ∪ completed).
Proof.
  intros Hwf. induction fuel as [|fuel IH]; intros node [n Hn] Hfuel.
  - apply lookup_lt_Some in Hn. lia.
  - simpl. rewrite Hn. destruct (MoveNode.children n) as [|c rest] eqn:Hch.
    + exists node, n. split; [by econstructor |]. done.
    + destruct (wf_down H Hwf node n c Hn) as (Hlt & nc & Hnc & _).
      { rewrite Hch. by left. }
      destruct (IH c) as (leaf & nleaf & Hchain & Hleaf & Hnil & Hrun);
        [by eexists | lia |].
      exists leaf, nleaf. split; [by econstructor |]. done.
Qed.

Lemma onTarget_None (s : App E) (move : Move.t) :
  (forall t, currentTargetLine s !! currentTargetIndex s = Some t ->
             lanMatches (tree s) move t = false) ->
  onTarget move s = None.
Proof.
  intros Hno. unfold onTarget.
  destruct (currentTargetLine s !! currentTargetIndex s) as [t|]; [|done].
  by rewrite (Hno t).
Qed.

(** C7. In drill mode, a move that is legal for the engine and that has
    the long notation of neither the target node nor any child of the
    current tree position gets the feedback "wrong" and is taken back:
    the game is the undone game, at the position before the attempt. The
    target line and index, the completed set and the current node are as
    before, the mode is still drill and nothing but the expiry of the
    feedback is scheduled. *)
Theorem handleMove_wrong (s : App E) (orig dest : string) (move : Move.t) (g' : Game E) :
  undo_law E ->
  mode s = drill ->
  move_squares E (game s) orig dest = Some (move, g') ->
  (forall t, currentTargetLine s !! currentTargetIndex s = Some t ->
             lanMatches (tree s) move t = false) ->
  (forall c, c ∈ getCurrentExpectedMoves s -> lanMatches (tree s) move c = false) ->
  exists s',
    handleMove orig dest s = Some s' /\
    feedback s' = Some wrong /\
    game s' = undo E g' /\
    fen_of E (game s') = fen_of E (game s) /\
    currentTargetLine s' = currentTargetLine s /\
    currentTargetIndex s' = currentTargetIndex s /\
    completedLines s' = completedLines s /\
    currentNode s' = currentNode s /\
    moveTree s' = moveTree s /\
    mode s' = drill /\
    timeouts s' = filter (fun t => negb (is_clearFeedback t)) (timeouts s)
                    ++ [(cb_clearFeedback, 800)].
Proof.
  intros Hundo Hmode Hmove Htarget Hchildren.
  unfold handleMove. rewrite Hmode, Hmove.
  rewrite onTarget_None by done.
  assert (find (lanMatches (tree (set_game g' s)) move)
            (getCurrentExpectedMoves (set_game g' s)) = None) as ->.
  { change (tree (set_game g' s)) with (tree s).
    change (getCurrentExpectedMoves (set_game g' s)) with (getCurrentExpectedMoves s).
    induction (getCurrentExpectedMoves s) as [|c l IH]; [done |]. simpl.
    rewrite (Hchildren c) by (by left). apply IH. intros c' Hc'. apply Hchildren. by right. }
  eexists. split; [done |]. simpl.
  repeat (split; [done |]). split; [by eapply Hundo |]. done.
Qed.

(** C8. In drill mode, a legal move that does not have the long notation
    of the target node and has that of a child of the current tree
    position (a child other than the target node, then) gets the feedback
    "variation"; the identity of the one leaf at
    the end of the chain of first children from that child is added to
    the completed set, the child becomes the current node, the target
    index stays, and [startNextLine] is scheduled. *)
Theorem handleMove_variation (s : App E) (H : Heap) (orig dest : string)
    (move : Move.t) (g' : Game E) (matchingNode : handle) :
  mode s = drill ->
  moveTree s = Some H ->
  wf_heap H ->
  move_squares E (game s) orig dest = Some (move, g') ->
  (forall t, currentTargetLine s !! currentTargetIndex s = Some t ->
             lanMatches H move t = false) ->
  find (lanMatches H move) (getCurrentExpectedMoves s) = Some matchingNode ->
  exists s' leaf nleaf,
    handleMove orig dest s = Some s' /\
    matchingNode ∈ getCurrentExpectedMoves s /\
    currentTargetLine s !! currentTargetIndex s <> Some matchingNode /\
    first_child_leaf H matchingNode leaf /\
    (forall leaf', first_child_leaf H matchingNode leaf' -> leaf' = leaf) /\
    H !! leaf = Some nleaf /\ MoveNode.children nleaf = [] /\
    feedback s' = Some variation /\
    completedLines s' = {[MoveNode.id nleaf]} ∪ completedLines s /\
    currentNode s' = Some matchingNode /\
    currentTargetLine s' = currentTargetLine s /\
    currentTargetIndex s' = currentTargetIndex s /\
    mode s' = drill /\
    timeouts s' = filter (fun t => negb (is_clearFeedback t)) (timeouts s)
                    ++ [(cb_clearFeedback, 800); (cb_startNextLine, 1000)].
Proof.
  intros Hmode Htree Hwf Hmove Htarget Hfind.
  assert (tree s = H) as HH by (unfold tree; by rewrite Htree).
  pose proof (find_some _ _ Hfind) as [Hin Hmatch].
  assert (is_Some (H !! matchingNode)) as Hvalid.
  { unfold lanMatches in Hmatch. destruct (H !! matchingNode); [by eexists | done]. }
  destruct (markVariationComplete_spec H (completedLines s) (length H) Hwf
              matchingNode Hvalid) as (leaf & nleaf & Hchain & Hleaf & Hnil & Hrun); [lia |].
  unfold handleMove. rewrite Hmode, Hmove.
  assert (onTarget move (set_game g' s) = None) as ->.
  { apply onTarget_None. intros t Ht.
    change (tree (set_game g' s)) with (tree s). rewrite HH. by apply Htarget. }
  change (tree (set_game g' s)) with (tree s).
  change (getCurrentExpectedMoves (set_game g' s)) with (getCurrentExpectedMoves s).
  rewrite HH, Hfind.
  match goal with
  | |- context [markVariationComplete (length (tree ?x)) (tree ?x) (completedLines ?x) _] =>
      change (tree x) with (tree s); change (completedLines x) with (completedLines s)
  end.
  rewrite HH, Hrun.
  eexists _, leaf, nleaf. split; [done |].
  split; [by apply list_elem_of_In |].
  split; [intros Ht; apply Htarget in Ht; congruence |].
  split; [done |].
  split; [intros leaf' Hl'; by apply (first_child_leaf_unique H matchingNode leaf' Hl') |].
  repeat (split; [done |]). simpl. by rewrite <- app_assoc.
Qed.

End Drill.

Lemma book_undo_law : undo_law Book.engine.
Proof.
  intros g orig dest m g' Hmove.
  change (Book.play (fun m0 => String.eqb (Move.from m0) orig && String.eqb (Move.to m0) dest) g
          = Some (m, g')) in Hmove.
  apply book_play_inv in Hmove as (after & _ & ->). done.
Qed.

(** The tree of "1. e4" records the one move e4: in a session on it, d2-d4
    is legal and not recorded. In the session on "1. e4 (1. d4 d5) e5" that
    drills the line e4 e5, d2-d4 is the variation. *)
Lemma handleMove_wrong_book :
  exists s',
    handleMove "d2" "d4" (Book.session Book.tree_blank [1]) = Some s' /\
    feedback s' = Some wrong /\
    game s' = Book.back [Book.d4; Book.start] /\
    Book.top (game s') = Book.start /\
    currentTargetLine s' = [1] /\
    currentTargetIndex s' = 0 /\
    completedLines s' = ∅ /\
    currentNode s' = None /\
    moveTree s' = Some Book.tree_blank /\
    mode s' = drill /\
    timeouts s' = [(cb_clearFeedback, 800)].
Proof.
  apply (handleMove_wrong Book.engine (Book.session Book.tree_blank [1]) "d2" "d4"
           Book.m_d4 [Book.d4; Book.start]).
  - apply book_undo_law.
  - reflexivity.
  - reflexivity.
  - intros t [= <-]. reflexivity.
  - intros c Hc. change (c ∈ [1]) in Hc. apply list_elem_of_singleton in Hc as ->.
    reflexivity.
Defined.

Lemma handleMove_variation_book :
  exists s' leaf nleaf,
    handleMove "d2" "d4" (Book.session Book.tree_variation [1; 4]) = Some s' /\
    2 ∈ getCurrentExpectedMoves (Book.session Book.tree_variation [1; 4]) /\
    currentTargetLine (Book.session Book.tree_variation [1; 4])
      !! currentTargetIndex (Book.session Book.tree_variation [1; 4]) <> Some 2 /\
    first_child_leaf Book.tree_variation 2 leaf /\
    (forall leaf', first_child_leaf Book.tree_variation 2 leaf' -> leaf' = leaf) /\
    Book.tree_variation !! leaf = Some nleaf /\ MoveNode.children nleaf = [] /\
    feedback s' = Some variation /\
    completedLines s' = {[MoveNode.id nleaf]} ∪ ∅ /\
    currentNode s' = Some 2 /\
    currentTargetLine s' = [1; 4] /\
    currentTargetIndex s' = 0 /\
    mode s' = drill /\
    timeouts s' = [(cb_clearFeedback, 800); (cb_startNextLine, 1000)].
Proof.
  apply (handleMove_variation Book.engine (Book.session Book.tree_variation [1; 4])
           Book.tree_variation "d2" "d4" Book.m_d4 [Book.d4; Book.start] 2).
  - reflexivity.
  - reflexivity.
  - apply (parsePgnToTree_wf Book.engine Book.tally "1. e4 (1. d4 d5) e5" 0 _ 4).
    vm_compute. reflexivity.
  - reflexivity.
  - intros t [= <-]. reflexivity.
  - reflexivity.
Defined.

(** ** Studies *)

(** C9. An edit is what [saveEdit] emits for the study [e] under edition
    and what [handleUpdateStudy] passes to [updateStudy]: the study itself
    with the name and the text of the form, trimmed, and its colour.
    [updateStudy] then changes the name, the text and the colour to those
    of the edit, sets [updatedAt] to the current time and leaves the
    identity and [createdAt] as they are. In the list of [handleUpdateStudy]
    every study keeps its identity, the studies with another identity than
    [e] are unchanged, a study with the identity of [e] gets the name, the
    text and the colour of the edit, and [e] itself, where it is in the
    list, becomes the edited study. More generally, updates that carry neither an identity nor
    a creation time leave both as they are. *)
Theorem updateStudy_edit (now : Z) (studies : list Study.t) (e : Study.t)
    (editName editPgn : string) (editColor : PlayerColor) :
  let payload := saveEdit_payload e editName editPgn editColor in
  let edited := updateStudy now e (Study.whole payload) in
  (Study.id edited = Study.id e /\
   Study.createdAt edited = Study.createdAt e /\
   Study.name edited = trim editName /\
   Study.pgn edited = trim editPgn /\
   Study.defaultColor edited = editColor /\
   Study.updatedAt edited = now) /\
  Forall2 (fun s s' =>
             Study.id s' = Study.id s /\
             (Study.id s <> Study.id e -> s' = s) /\
             (Study.id s = Study.id e ->
              s' = Study.mk (Study.id s) (trim editName) (trim editPgn) editColor
                     (Study.createdAt e) now) /\
             (s = e -> s' = edited))
    studies (handleUpdateStudy now studies payload) /\
  (forall study updates,
      Study.id' updates = None -> Study.createdAt' updates = None ->
      Study.id (updateStudy now study updates) = Study.id study /\
      Study.createdAt (updateStudy now study updates) = Study.createdAt study /\
      Study.updatedAt (updateStudy now study updates) = now).
Proof.
  intros payload edited. split; [done |]. split.
  - unfold handleUpdateStudy. apply Forall2_fmap_r, Forall_Forall2_diag, Forall_forall.
    intros s _. simpl.
    destruct (String.eqb_spec (Study.id s) (Study.id e)) as [Heq|Hne].
    + split; [by rewrite Heq |]. split; [done |].
      split; [intros _; unfold updateStudy; simpl; by rewrite Heq | by intros ->].
    + split; [done |]. split; [done |]. split; [done | by intros ->].
  - intros study updates Hid Hc. unfold updateStudy. simpl. by rewrite Hid, Hc.
Qed.

(** * Further properties *)

(** ** The tokenizer *)

(** The tokens pushed so far are a prefix of the result. *)
Lemma tokenize_loop_acc (str : string) :
  forall tokens current,
    tokenize_loop str tokens current = tokens ++ tokenize_loop str [] current.
Proof.
  induction str as [|c rest IH]; intros tokens current; simpl.
  - destruct (truthy current); [done | by rewrite app_nil_r].
  - destruct (is_sep c).
    + rewrite IH. symmetry. rewrite IH. symmetry.
      destruct (truthy current), (negb (ch c " ")); simpl;
        by rewrite ?app_nil_r, <- ?app_assoc.
    + apply IH.
Qed.

(** A space ends the text before it as the end of the input does. *)
Lemma tokenize_loop_space (a b : string) :
  forall tokens current,
    tokenize_loop (a +:+ String " " b) tokens current
    = tokenize_loop b (tokenize_loop a tokens current) EmptyString.
Proof.
  induction a as [|c a IH]; intros tokens current.
  - rewrite append_nil_l. simpl. by destruct (truthy current).
  - rewrite append_cons. simpl. destruct (is_sep c); apply IH.
Qed.

(** X1. The tokens of two texts joined by a space are the tokens of the
    first followed by the tokens of the second. *)
Theorem tokenize_space_app (a b : string) :
  tokenize (a +:+ String " " b) = tokenize a ++ tokenize b.
Proof.
  unfold tokenize. rewrite tokenize_loop_space.
  by rewrite tokenize_loop_acc.
Qed.

(** A text without separator is read into [current]. *)
Lemma tokenize_loop_plain (t : string) :
  no_sep t = true ->
  forall rest tokens current,
    tokenize_loop (t +:+ rest) tokens current
    = tokenize_loop rest tokens (current +:+ t).
Proof.
  induction t as [|c t IH]; intros Hplain rest tokens current.
  - by rewrite append_nil_l, append_nil_r.
  - simpl in Hplain. apply andb_true_iff in Hplain as [Hc Ht].
    rewrite append_cons. simpl. apply negb_true_iff in Hc. rewrite Hc.
    rewrite IH by done. unfold str1. by autorewrite with str.
Qed.

Lemma tokenize_token (t : string) : token_ok t -> tokenize t = [t].
Proof.
  unfold tokenize. intros [-> | [-> | [Hne Hplain]]]; [done | done |].
  rewrite <- (append_nil_r t) at 1. rewrite tokenize_loop_plain by done.
  simpl. by destruct t.
Qed.

(** X2. Tokens written with one space between them are read back as they
    are. *)
Theorem tokenize_unwords (tokens : list string) :
  Forall token_ok tokens -> tokenize (unwords tokens) = tokens.
Proof.
  induction 1 as [|t rest Ht Hrest IH]; [done |].
  destruct rest as [|t' rest]; [by apply tokenize_token |].
  change (unwords (t :: t' :: rest)) with (t +:+ String " " (unwords (t' :: rest))).
  unfold tokenize in *. rewrite tokenize_loop_space, tokenize_loop_acc, IH.
  change (tokenize_loop t [] EmptyString) with (tokenize t).
  by rewrite tokenize_token.
Qed.

Lemma tokenize_unwords_example :
  tokenize (unwords ["e4"; "("; "d4"; "d5"; ")"; "e5"]) = ["e4"; "("; "d4"; "d5"; ")"; "e5"].
Proof.
  apply tokenize_unwords.
  repeat (apply List.Forall_cons;
          [first [by left | by right; left | by (right; right)] |]).
  apply List.Forall_nil.
Defined.

(** ** The scan for the closing parenthesis *)

(** While the depth stays above [base], the scan goes through. *)
Lemma findClose_through (body : list string) :
  forall tail j base e k,
    depth_after e body = Some k ->
    findClose (body ++ tail) j (S (base + e)) = findClose tail (j + length body) (S (base + k)).
Proof.
  induction body as [|t body IH]; intros tail j base e k Hd; simpl in *.
  - simplify_eq. by rewrite Nat.add_0_r.
  - destruct (decide (t = "(")) as [->|Hopen].
    + destruct (decide ("(" = ")")) as [?|_]; [done |].
      replace (S (base + e + 1)) with (S (base + S e)) by lia.
      rewrite (IH tail (j + 1) base (S e) k Hd). f_equal; lia.
    + destruct (decide (t = ")")) as [->|Hclose].
      * destruct e as [|e]; [done |].
        replace (S (base + S e) - 1) with (S (base + e)) by lia.
        rewrite (IH tail (j + 1) base e k Hd). f_equal; lia.
      * rewrite (IH tail (j + 1) base e k Hd). f_equal; lia.
Qed.

Lemma findClose_zero (rest : list string) (j : nat) : findClose rest j 0 = j.
Proof. by destruct rest. Qed.

(** X3. On a variation whose parentheses are balanced and which is closed,
    the scan of [buildTree] stops just after the closing parenthesis: the
    variation tokens are the tokens between the parentheses, and the tokens
    after the closing one remain. *)
Theorem findClose_balanced (pre body rest : list string) :
  balanced body ->
  let tokens := pre ++ "(" :: body ++ ")" :: rest in
  let i := length pre in
  let j := findClose (drop (i + 1) tokens) (i + 1) 1 in
  j = i + length body + 2 /\
  slice tokens (i + 1) (j - 1) = body /\
  drop j tokens = rest.
Proof.
  intros Hbal tokens i j.
  assert (forall n l, drop (i + n) (pre ++ l) = drop n l) as Hpre.
  { intros n l. unfold i. by rewrite drop_app_add'. }
  assert (j = i + length body + 2) as Hj.
  { unfold j, tokens. rewrite (Hpre 1). simpl. rewrite drop_0.
    pose proof (findClose_through body (")" :: rest) (i + 1) 0 0 0 Hbal) as Hscan.
    change (S (0 + 0)) with 1 in Hscan. rewrite Hscan.
    change (findClose (")" :: rest) ?a 1) with (findClose rest (a + 1) 0).
    rewrite findClose_zero. lia. }
  split; [done |]. rewrite Hj. unfold slice, tokens.
  replace (i + length body + 2) with (i + (length body + 2)) by lia.
  rewrite !Hpre. simpl. rewrite drop_0. split.
  - replace (i + (length body + 2) - 1 - (i + 1)) with (length body) by lia.
    by rewrite take_app_length.
  - replace (length body + 2) with (S (length body + 1)) by lia. simpl.
    replace (length body + 1) with (length body + 1) by lia.
    rewrite drop_app_add'; [|done]. done.
Qed.

Lemma findClose_balanced_example :
  let tokens := ["e4"] ++ "(" :: ["d4"; "("; "c4"; ")"; "d5"] ++ ")" :: ["e5"] in
  let j := findClose (drop (1 + 1) tokens) (1 + 1) 1 in
  j = 1 + 5 + 2 /\
  slice tokens (1 + 1) (j - 1) = ["d4"; "("; "c4"; ")"; "d5"] /\
  drop j tokens = ["e5"].
Proof. apply (findClose_balanced ["e4"] ["d4"; "("; "c4"; ")"; "d5"] ["e5"]). reflexivity. Defined.

(** ** The size of the tree *)

Lemma count_moves_app (l k : list string) :
  count_moves (l ++ k) = count_moves l + count_moves k.
Proof. induction l as [|t l IH]; simpl; [done | rewrite IH; lia]. Qed.

Lemma count_moves_drop (l : list string) (n : nat) :
  count_moves (drop n l) <= count_moves l.
Proof.
  rewrite <- (take_drop n l) at 2. rewrite count_moves_app. lia.
Qed.

Lemma count_moves_take_drop (l : list string) (n m : nat) :
  n <= m -> count_moves (take n l) + count_moves (drop m l) <= count_moves l.
Proof.
  intros Hnm. rewrite <- (take_drop n l) at 3. rewrite count_moves_app.
  replace m with (n + (m - n)) by lia. rewrite <- drop_drop.
  pose proof (count_moves_drop (drop n l) (m - n)). lia.
Qed.

Section Size.

Context (E : Engine) (random : nat -> string).

(** The loop allocates at most one node for each token that is not a
    parenthesis, from index [i] on. *)
Lemma buildTree_loop_size (fuel : nat) :
  forall tokens i cur game main H w r H' w',
    buildTree_loop E random fuel tokens i cur game main H w = Some (r, H', w') ->
    length H' <= length H + count_moves (drop i tokens).
Proof.
  induction fuel as [|fuel IH]; intros tokens i cur game main H w r H' w' Hrun;
    simpl in Hrun; [done |].
  destruct (tokens !! i) as [token|] eqn:Hi; [|simplify_eq; lia].
  pose proof (lookup_lt_Some _ _ _ Hi) as Hlt.
  pose proof (findClose_le tokens i Hlt) as Hj.
  rewrite (drop_S _ _ _ Hi). replace (S i) with (i + 1) by lia. simpl.
  assert (forall k, count_moves (drop (i + 1 + k) tokens) <= count_moves (drop (i + 1) tokens))
    as Hmono.
  { intros k. rewrite <- drop_drop. apply count_moves_drop. }
  destruct (decide (token = "(")) as [_|_].
  - set (j := findClose (drop (i + 1) tokens) (i + 1) 1) in *.
    assert (count_moves (slice tokens (i + 1) (j - 1)) + count_moves (drop j tokens)
            <= count_moves (drop (i + 1) tokens)) as Hsplit.
    { unfold slice. replace j with (i + 1 + (j - (i + 1))) at 2 by lia.
      rewrite <- (drop_drop tokens (j - (i + 1)) (i + 1)). apply count_moves_take_drop. lia. }
    destruct (H !! cur ≫= MoveNode.parent) as [branchPoint|].
    + destruct (H !! branchPoint) as [bp|]; [|done].
      destruct (buildTree_loop E random fuel _ 0 branchPoint _ false H w)
        as [[[r1 H1] w1]|] eqn:Hvar; [|done].
      apply IH in Hvar. apply IH in Hrun. rewrite drop_0 in Hvar. lia.
    + apply IH in Hrun. lia.
  - destruct (decide (token = ")")) as [_|_]; [simplify_eq; lia |].
    destruct (negb (truthy token)); [apply IH in Hrun; lia |].
    destruct (move_text E game token) as [[move game']|]; [|apply IH in Hrun; lia].
    simpl in Hrun. apply IH in Hrun. rewrite length_attach in Hrun. lia.
Qed.

(** X4. [parsePgnToTree] returns a tree that has, besides the root, at most
    one node for each token that is not a parenthesis, and it calls the
    generator once for each node other than the root. *)
Theorem parsePgnToTree_size (pgn : string) (w : nat) :
  exists H w',
    parsePgnToTree E random pgn w = Some (H, w') /\
    1 <= length H <= 1 + count_moves (tokenize (cleanPgn pgn)) /\
    w' = w + (length H - 1).
Proof.
  destruct (parsePgnToTree_total E random pgn w) as [[H w'] Hparse].
  exists H, w'. split; [done |].
  pose proof (parsePgnToTree_grows E random pgn w H w' Hparse) as Hgrows.
  destruct (grows_extends _ _ _ _ Hgrows) as [Hlen _]. simpl in Hlen.
  destruct (grows_ids E random w _ _ Hgrows) as [Hw _]; [done | |].
  { split; simpl; [lia |]. by intros [|k] n. }
  simpl in Hw. split; [|lia]. split; [done |].
  unfold parsePgnToTree, buildTree in Hparse.
  destruct (negb (truthy (cleanPgn pgn))); [simplify_eq; simpl; lia |].
  destruct (buildTree_loop _ _ _ _ _ _ _ _ _ _) as [[[r H1] w1]|] eqn:Hrun; [|done].
  simplify_eq. apply buildTree_loop_size in Hrun. rewrite drop_0 in Hrun. simpl in Hrun. lia.
Qed.

End Size.

(** ** The main line *)

Lemma line_to_extends (H H' : Heap) (c : handle) (line : list handle) :
  extends H H' -> line_to H c line -> line_to H' c line.
Proof.
  intros [_ Hext]. induction 1 as [|p line n c _ IH Hp Hin]; [constructor |].
  destruct (Hext p n Hp) as (n' & Hn' & Hle).
  econstructor; [exact IH | exact Hn' |].
  destruct Hle as (_&_&_&_&_&_&[k ->]). apply elem_of_app. by left.
Qed.

Lemma line_to_le (H : Heap) (c : handle) (line : list handle) :
  wf_heap H -> line_to H c line -> forall h, h ∈ line -> 0 < h <= c.
Proof.
  intros Hwf. induction 1 as [|p line n c _ IH Hp Hin]; intros h Hh.
  - by apply elem_of_nil in Hh.
  - destruct (wf_down H Hwf _ _ _ Hp Hin) as [Hlt _].
    apply elem_of_app in Hh as [Hh | Hh%list_elem_of_singleton].
    + specialize (IH h Hh). lia.
    + subst. lia.
Qed.

Lemma line_to_self (H : Heap) (c : handle) (line : list handle) :
  line_to H c line -> c ∈ 0 :: line.
Proof.
  destruct 1; [by left |]. right. apply elem_of_app. right. by apply list_elem_of_singleton.
Qed.

(** Attaching a node with the flag of the running call keeps the flags,
    when the call attaches first children only under nodes with its flag and
    the main call attaches first children only. *)
Lemma flags_attach (H : Heap) (cur : handle) (ncur node : MoveNode.t) (main : bool) :
  wf_heap H -> flags_ok H -> H !! cur = Some ncur ->
  (MoveNode.children ncur = [] -> MoveNode.isMainLine ncur = main) ->
  (main = true -> MoveNode.children ncur = []) ->
  MoveNode.children node = [] -> MoveNode.isMainLine node = main ->
  flags_ok (attach H cur node).
Proof.
  intros Hwf [Hroot Hflags] Hc J1 J2 Hch Hmain.
  pose proof (lookup_lt_Some _ _ _ Hc) as Hlt.
  pose proof (extends_attach H cur node ncur Hc) as [_ Hext].
  assert (forall c, is_Some (H !! c) -> c <> length H) as Hold.
  { intros c [n Hn] ->. apply lookup_lt_Some in Hn. lia. }
  assert (forall c nc nc', H !! c = Some nc -> attach H cur node !! c = Some nc' ->
                          MoveNode.isMainLine nc' = MoveNode.isMainLine nc) as Hsame.
  { intros c nc nc' Hn Hn'. destruct (Hext c nc Hn) as (nc2 & Hn2 & Hle).
    assert (nc2 = nc') as -> by congruence. by destruct Hle as (_&_&_&_&_&->&_). }
  split.
  { destruct Hroot as (r & Hr & Hrm). destruct (Hext 0 r Hr) as (r' & Hr' & Hle).
    exists r'. split; [done |]. destruct Hle as (_&_&_&_&_&->&_). done. }
  intros p np c nc Hp Hin Hcn.
  destruct (lookup_attach_inv _ _ _ _ _ _ Hc Hp) as [[-> ->] | [[-> ->] | (Hne1 & Hne2 & Hp')]].
  - rewrite Hch in Hin. by apply elem_of_nil in Hin.
  - simpl in *. apply elem_of_app in Hin as [Hin | Hin%list_elem_of_singleton].
    + destruct (wf_down H Hwf _ _ _ Hc Hin) as (Hltc & nc0 & Hnc0 & _).
      rewrite (Hsame c nc0 nc Hnc0 Hcn).
      pose proof (Hflags cur ncur c nc0 Hc Hin Hnc0) as Hold_flags.
      destruct (MoveNode.children ncur) as [|c0 rest] eqn:Hold_ch;
        [by apply elem_of_nil in Hin |].
      exact Hold_flags.
    + subst c. rewrite lookup_attach_new in Hcn by done.
      assert (nc = node) as -> by congruence. rewrite Hmain.
      destruct (MoveNode.children ncur) as [|c0 rest] eqn:Hold_ch; simpl.
      * split; [intros _; symmetry; by apply J1 | done].
      * split.
        -- intros [= ->]. destruct (wf_down H Hwf cur ncur (length H) Hc) as (_ & n0 & Hn0 & _).
           { rewrite Hold_ch. by left. }
           apply lookup_lt_Some in Hn0. lia.
        -- intros _. destruct main; [|done]. by specialize (J2 eq_refl).
  - destruct (wf_down H Hwf _ _ _ Hp' Hin) as (Hltc & nc0 & Hnc0 & _).
    rewrite (Hsame c nc0 nc Hnc0 Hcn). by apply (Hflags p np c nc0).
Qed.

Section MainLine.

Context (E : Engine) (random : nat -> string).

(** The loop keeps the flags, and it only changes nodes on the path from
    the root to its current node (and the nodes it allocates). *)
Lemma buildTree_loop_flags (fuel : nat) :
  forall tokens i cur ncur line game main H w r H' w',
    wf_heap H -> flags_ok H ->
    H !! cur = Some ncur ->
    sits E (MoveNode.fen ncur) game ->
    line_to H cur line ->
    (MoveNode.children ncur = [] -> MoveNode.isMainLine ncur = main) ->
    (main = true -> MoveNode.children ncur = []) ->
    buildTree_loop E random fuel tokens i cur game main H w = Some (r, H', w') ->
    flags_ok H' /\
    (forall h n, H !! h = Some n -> h ∉ 0 :: line -> H' !! h = Some n).
Proof.
  induction fuel as [|fuel IH];
    intros tokens i cur ncur line game main H w r H' w' Hwf Hfl Hc Hs Hline J1 J2 Hrun;
    simpl in Hrun; [done |].
  destruct (tokens !! i) as [token|]; [|by simplify_eq].
  destruct (decide (token = "(")) as [_|_].
  - rewrite Hc in Hrun. simpl in Hrun.
    destruct (MoveNode.parent ncur) as [branchPoint|] eqn:Hpar; [|by eapply IH].
    destruct (H !! branchPoint) as [bp|] eqn:Hbp; [|done].
    destruct (buildTree_loop E random fuel _ 0 branchPoint _ false H w)
      as [[[r1 H1] w1]|] eqn:Hvar; [|done].
    destruct (line_to_parent H Hwf cur line ncur branchPoint Hline Hc Hpar)
      as (line' & -> & Hline').
    destruct (wf_parent_lt H cur branchPoint ncur Hwf Hc Hpar) as [Hltb _].
    assert (cur ∈ MoveNode.children bp) as Hchild.
    { destruct (wf_up H Hwf cur ncur Hc) as (_ & p & np & Hp & Hnp & Hin); [lia |].
      assert (p = branchPoint) as -> by congruence. by assert (np = bp) as -> by congruence. }
    assert (flags_ok H1 /\
            (forall h n, H !! h = Some n -> h ∉ 0 :: line' -> H1 !! h = Some n))
      as [Hfl1 Hframe1].
    { eapply (IH _ 0 branchPoint bp line' _ false);
        [exact Hwf | exact Hfl | exact Hbp | by right | exact Hline' | | done | exact Hvar].
      intros Hnil. rewrite Hnil in Hchild. by apply elem_of_nil in Hchild. }
    pose proof (buildTree_loop_grows _ _ _ _ _ _ _ _ _ _ _ _ _ _ Hbp
                  (or_intror eq_refl) Hvar) as Hg1.
    assert (H1 !! cur = Some ncur) as Hc1.
    { apply Hframe1; [done |]. intros [->|Hin]%elem_of_cons; [lia |].
      pose proof (line_to_le H branchPoint line' Hwf Hline' cur Hin). lia. }
    assert (flags_ok H' /\
            (forall h n, H1 !! h = Some n -> h ∉ 0 :: line' ++ [cur] -> H' !! h = Some n))
      as [Hfl' Hframe2].
    { eapply (IH tokens _ cur ncur (line' ++ [cur]) game main H1 w1 r H' w');
        [by apply (grows_wf _ _ _ _ Hg1) | done | done | done | | done | done | exact Hrun].
      eapply line_to_extends; [|exact Hline]. by apply (grows_extends _ _ _ _ Hg1). }
    split; [done |]. intros h n Hn Hnot. apply Hframe2; [|done].
    apply Hframe1; [done |]. intros Hin. apply Hnot.
    apply elem_of_cons in Hin as [->|Hin]; [by left |]. right. apply elem_of_app. by left.
  - destruct (decide (token = ")")) as [_|_]; [by simplify_eq |].
    destruct (negb (truthy token)); [by eapply IH |].
    destruct (move_text E game token) as [[move game']|] eqn:Hmove; [|by eapply IH].
    simpl in Hrun.
    pose proof (lookup_lt_Some _ _ _ Hc) as Hlt.
    match type of Hrun with
    | buildTree_loop _ _ _ _ _ _ _ _ (attach H cur ?nd) _ = _ => set (node := nd) in *
    end.
    pose proof (extends_attach H cur node ncur Hc) as Hext.
    assert (flags_ok H' /\
            (forall h n, attach H cur node !! h = Some n -> h ∉ 0 :: line ++ [length H] ->
                         H' !! h = Some n)) as [Hfl' Hframe].
    { eapply (IH tokens _ (length H) node (line ++ [length H]) game' main
                (attach H cur node) (S w) r H' w');
        [by eapply wf_attach | by eapply flags_attach | by apply lookup_attach_new
        | by left | | done | done | exact Hrun].
      econstructor; [by eapply line_to_extends | by apply lookup_attach_cur |].
      simpl. apply elem_of_app. right. by apply list_elem_of_singleton. }
    split; [done |]. intros h n Hn Hnot. apply Hframe.
    + pose proof (lookup_lt_Some _ _ _ Hn).
      rewrite lookup_attach_other; [done | | lia].
      intros ->. apply Hnot. by eapply line_to_self.
    + intros Hin. apply Hnot. apply elem_of_cons in Hin as [->|Hin]; [by left |].
      apply elem_of_app in Hin as [Hin | Hin%list_elem_of_singleton]; [by right |].
      apply lookup_lt_Some in Hn. lia.
Qed.

Lemma flags_root_heap : flags_ok [root_node E].
Proof.
  split; [by exists (root_node E) |].
  intros p np c nc Hp Hin. destruct p as [|p]; [|by destruct p].
  simpl in Hp. simplify_eq. by apply elem_of_nil in Hin.
Qed.

(** X5. In the tree that [parsePgnToTree] returns, a node has the
    main-line flag exactly when it is reached from the root by first
    children only. *)
Theorem parsePgnToTree_main_line (pgn : string) (w : nat) :
  exists H w',
    parsePgnToTree E random pgn w = Some (H, w') /\
    forall c nc, H !! c = Some nc ->
      (MoveNode.isMainLine nc = true <-> on_main H c).
Proof.
  destruct (parsePgnToTree_total E random pgn w) as [[H w'] Hparse].
  exists H, w'. split; [done |].
  pose proof (parsePgnToTree_wf E random pgn w H w' Hparse) as Hwf.
  assert (flags_ok H) as [Hroot Hflags].
  { unfold parsePgnToTree, buildTree in Hparse.
    destruct (negb (truthy (cleanPgn pgn))); [simplify_eq; apply flags_root_heap |].
    destruct (buildTree_loop _ _ _ _ _ _ _ _ _ _) as [[[r H1] w1]|] eqn:Hrun; [|done].
    simplify_eq.
    by destruct (buildTree_loop_flags _ _ _ 0 (root_node E) [] _ _ _ _ _ _ _
                   (wf_root_heap E) flags_root_heap eq_refl (or_introl eq_refl)
                   (line_root _) (fun _ => eq_refl) (fun _ => eq_refl) Hrun). }
  intros c. induction (lt_wf c) as [c _ IH]. intros nc Hc. split.
  - intros Hmain. destruct (decide (c = 0)) as [->|Hc0]; [constructor |].
    destruct (wf_up H Hwf c nc Hc Hc0) as (_ & p & np & Hp & Hnp & Hin).
    destruct (wf_down H Hwf p np c Hnp Hin) as [Hlt _].
    destruct (Hflags p np c nc Hnp Hin Hc) as [Hfirst Hlater].
    destruct (decide (head (MoveNode.children np) = Some c)) as [Hhead|Hhead].
    + econstructor; [|exact Hnp | exact Hhead].
      apply (IH p Hlt np Hnp). by rewrite <- (Hfirst Hhead).
    + rewrite (Hlater Hhead) in Hmain. done.
  - intros Hon. destruct Hon as [|p np c Hon Hnp Hhead].
    + destruct Hroot as (r & Hr & Hrm). by assert (nc = r) as -> by congruence.
    + assert (c ∈ MoveNode.children np) as Hin.
      { destruct (MoveNode.children np); simplify_eq/=. by left. }
      destruct (wf_down H Hwf p np c Hnp Hin) as [Hlt _].
      destruct (Hflags p np c nc Hnp Hin Hc) as [Hfirst _].
      rewrite (Hfirst Hhead). by apply (IH p Hlt np Hnp).
Qed.

End MainLine.

(** ** A transcript without variations *)

Lemma chain_attach (H : Heap) (node : MoveNode.t) :
  H <> [] -> is_chain H -> MoveNode.children node = [] ->
  is_chain (attach H (length H - 1) node).
Proof.
  intros Hne Hchain Hch h n Hn. rewrite length_attach.
  assert (0 < length H) as Hpos by (destruct H; simpl; [done | lia]).
  destruct (lookup_lt_is_Some_2 H (length H - 1)) as [nlast Hlast]; [lia |].
  destruct (lookup_attach_inv _ _ _ _ _ _ Hlast Hn) as [[-> ->] | [[-> ->] | (Hne1 & Hne2 & Hn')]].
  - rewrite Hch. by rewrite decide_False by lia.
  - simpl. rewrite (Hchain _ _ Hlast). rewrite decide_False by lia.
    rewrite decide_True by lia. simpl. f_equal. lia.
  - rewrite (Hchain _ _ Hn'). apply lookup_lt_Some in Hn'.
    rewrite decide_True by lia. by rewrite decide_True by lia.
Qed.

Lemma chain_leaves (H : Heap) (fuel : nat) :
  is_chain H ->
  forall h, h < length H -> length H - h <= fuel ->
    getLeafNodes_fuel fuel H h = Some [length H - 1].
Proof.
  intros Hchain. induction fuel as [|fuel IH]; intros h Hh Hfuel; [lia |].
  destruct (lookup_lt_is_Some_2 H h Hh) as [n Hn]. simpl. rewrite Hn.
  rewrite (Hchain h n Hn). destruct (decide (S h < length H)) as [Hlt|Hge]; simpl.
  - rewrite IH by lia. done.
  - do 2 f_equal. lia.
Qed.

Lemma chain_line (H : Heap) (c : nat) :
  is_chain H -> c < length H -> line_to H c (seq 1 c).
Proof.
  intros Hchain. induction c as [|c IH]; intros Hc; [constructor |].
  destruct (lookup_lt_is_Some_2 H c) as [n Hn]; [lia |].
  rewrite seq_S. simpl. econstructor; [apply IH; lia | exact Hn |].
  rewrite (Hchain c n Hn), decide_True by lia. by left.
Qed.

Section Chain.

Context (E : Engine) (random : nat -> string).

Lemma buildTree_loop_chain (fuel : nat) :
  forall tokens i game H w r H' w',
    Forall move_token tokens ->
    H <> [] -> is_chain H -> Forall (fun n => MoveNode.isMainLine n = true) H ->
    buildTree_loop E random fuel tokens i (length H - 1) game true H w = Some (r, H', w') ->
    H' <> [] /\ is_chain H' /\ Forall (fun n => MoveNode.isMainLine n = true) H'.
Proof.
  induction fuel as [|fuel IH]; intros tokens i game H w r H' w' Htok Hne Hchain Hmain Hrun;
    simpl in Hrun; [done |].
  destruct (tokens !! i) as [token|] eqn:Hi; [|by simplify_eq].
  destruct (proj1 (Forall_lookup _ _) Htok i token Hi) as [Hopen Hclose].
  destruct (decide (token = "(")) as [?|_]; [done |].
  destruct (decide (token = ")")) as [?|_]; [done |].
  destruct (negb (truthy token)); [by eapply IH |].
  destruct (move_text E game token) as [[move game']|]; [|by eapply IH].
  simpl in Hrun.
  match type of Hrun with
  | buildTree_loop _ _ _ _ _ _ _ _ (attach H _ ?nd) _ = _ => set (node := nd) in *
  end.
  assert (length H = length (attach H (length H - 1) node) - 1) as Hcur.
  { rewrite length_attach. lia. }
  rewrite Hcur in Hrun at 1.
  eapply IH; [exact Htok | | | | exact Hrun].
  - intros Hnil. apply (f_equal length) in Hnil. rewrite length_attach in Hnil. done.
  - by apply chain_attach.
  - unfold attach. apply Forall_alter; [|by intros].
    apply Forall_app. split; [done |]. by constructor.
Qed.

(** X6. When the tokens of the text hold no parenthesis, the tree that
    [parsePgnToTree] returns is a single chain on the main line, with one
    leaf, and [getAllLines] returns exactly one line: the chain below the
    root. *)
Theorem parsePgnToTree_chain (pgn : string) (w : nat) :
  Forall move_token (tokenize (cleanPgn pgn)) ->
  exists H w',
    parsePgnToTree E random pgn w = Some (H, w') /\
    is_chain H /\
    Forall (fun n => MoveNode.isMainLine n = true) H /\
    getLeafNodes H 0 = Some [length H - 1] /\
    getAllLines H 0 = Some [seq 1 (length H - 1)].
Proof.
  intros Htok.
  destruct (parsePgnToTree_total E random pgn w) as [[H w'] Hparse].
  exists H, w'. split; [done |].
  pose proof (parsePgnToTree_wf E random pgn w H w' Hparse) as Hwf.
  assert (H <> [] /\ is_chain H /\ Forall (fun n => MoveNode.isMainLine n = true) H)
    as (Hne & Hchain & Hmain).
  { assert ([root_node E] <> [] /\ is_chain [root_node E] /\
            Forall (fun n => MoveNode.isMainLine n = true) [root_node E]) as Hinit.
    { split; [done |]. split; [|by repeat constructor].
      intros h n Hn. destruct h as [|h]; [|by destruct h]. simpl in Hn. by simplify_eq. }
    unfold parsePgnToTree, buildTree in Hparse.
    destruct (negb (truthy (cleanPgn pgn))); [by simplify_eq |].
    destruct (buildTree_loop _ _ _ _ _ _ _ _ _ _) as [[[r H1] w1]|] eqn:Hrun; [|done].
    simplify_eq. destruct Hinit as (? & ? & ?).
    by eapply (buildTree_loop_chain _ _ _ _ [root_node E]). }
  assert (0 < length H) as Hpos by (destruct H; simpl; [done | lia]).
  split; [done |]. split; [done |].
  assert (getLeafNodes H 0 = Some [length H - 1]) as Hleaves.
  { unfold getLeafNodes. apply chain_leaves; [done | lia | lia]. }
  split; [done |].
  unfold getAllLines. rewrite Hleaves.
  change (mapM ?f [?x]) with (y ← f x; k ← mapM f []; mret (y :: k)). cbv beta.
  rewrite (lineOf_fuel_spec H Hwf (length H - 1) (seq 1 (length H - 1)));
    [| apply chain_line; [done | lia] | lia].
  by rewrite app_nil_r.
Qed.

End Chain.

Lemma parsePgnToTree_chain_book :
  exists H w',
    parsePgnToTree Book.engine Book.tally "1. e4 e5 2. Nf3" 0 = Some (H, w') /\
    is_chain H /\
    Forall (fun n => MoveNode.isMainLine n = true) H /\
    getLeafNodes H 0 = Some [length H - 1] /\
    getAllLines H 0 = Some [seq 1 (length H - 1)].
Proof.
  apply (parsePgnToTree_chain Book.engine Book.tally "1. e4 e5 2. Nf3" 0).
  vm_compute. repeat (apply List.Forall_cons; [by split |]). apply List.Forall_nil.
Defined.

(** ** Subtrees *)

Lemma children_nodup_attach (H : Heap) (cur : handle) (node ncur : MoveNode.t) :
  wf_heap H -> children_nodup H -> H !! cur = Some ncur ->
  MoveNode.children node = [] ->
  children_nodup (attach H cur node).
Proof.
  intros Hwf Hnd Hc Hch h n Hn.
  destruct (lookup_attach_inv _ _ _ _ _ _ Hc Hn) as [[-> ->] | [[-> ->] | (_ & _ & Hn')]].
  - rewrite Hch. constructor.
  - simpl. apply NoDup_app. split; [by eapply Hnd |]. split; [|apply NoDup_singleton].
    intros x Hx ->%list_elem_of_singleton.
    destruct (wf_down H Hwf _ _ _ Hc Hx) as (_ & nx & Hnx & _).
    apply lookup_lt_Some in Hnx. lia.
  - by eapply Hnd.
Qed.

Lemma grows_children_nodup (E : Engine) (random : nat -> string) st st' :
  grows E random st st' -> wf_heap st.1 -> children_nodup st.1 -> children_nodup st'.1.
Proof.
  induction 1 as [|x y z Hxy _ IH]; [done |]. intros Hwf Hnd.
  apply IH; [by apply (step_wf E random x) |].
  destruct Hxy. simpl in *. by eapply children_nodup_attach.
Qed.

Lemma parsePgnToTree_children_nodup (E : Engine) (random : nat -> string)
    (pgn : string) (w : nat) (H : Heap) (w' : nat) :
  parsePgnToTree E random pgn w = Some (H, w') -> children_nodup H.
Proof.
  intros Hparse. apply parsePgnToTree_grows in Hparse.
  apply (grows_children_nodup _ _ _ _ Hparse); [apply wf_root_heap |].
  intros h n Hn. destruct h as [|h]; [|by destruct h]. simpl in Hn. simplify_eq. constructor.
Qed.

Section Subtrees.

Context (H : Heap) (Hwf : wf_heap H).

Lemma descends_le a c : descends H a c -> a <= c.
Proof.
  induction 1 as [|p n c _ IH Hp Hin]; [done |].
  destruct (wf_down H Hwf _ _ _ Hp Hin) as [Hlt _]. lia.
Qed.


(** A step at the top instead of the bottom. *)
Lemma descends_from_child a n b c :
  H !! a = Some n -> b ∈ MoveNode.children n -> descends H b c -> descends H a c.
Proof.
  intros Ha Hb. induction 1 as [|p np c _ IH Hp Hin].
  - econstructor; [constructor | exact Ha | exact Hb].
  - econstructor; [exact IH | exact Hp | exact Hin].
Qed.

Lemma descends_inv_top a c :
  descends H a c ->
  a = c \/ exists n b, H !! a = Some n /\ b ∈ MoveNode.children n /\ descends H b c.
Proof.
  induction 1 as [|p np c Hd IH Hp Hin]; [by left |]. right.
  destruct IH as [->|(n & b & Ha & Hb & Hbc)].
  - exists np, c. repeat split; [done | done | constructor].
  - exists n, b. repeat split; [done | done |]. by econstructor.
Qed.

Lemma descends_root c : is_Some (H !! c) -> descends H 0 c.
Proof.
  intros Hc. destruct (line_to_exists H Hwf c Hc) as [line Hline].
  induction Hline as [|p line n c _ IH Hp Hin]; [constructor |].
  econstructor; [|exact Hp | exact Hin]. apply IH. by eexists.
Qed.

(** The subtrees of two children of a node are disjoint. *)
Lemma siblings_disjoint p np a b c :
  H !! p = Some np -> a ∈ MoveNode.children np -> b ∈ MoveNode.children np ->
  descends H a c -> descends H b c -> a = b.
Proof.
  intros Hp Ha Hb Hac. revert b Hb.
  destruct (wf_down H Hwf _ _ _ Hp Ha) as (Hpa & na & Hna & Hapar).
  induction Hac as [|q nq c Haq IH Hq Hin]; intros b Hb Hbc.
  - destruct (wf_down H Hwf _ _ _ Hp Hb) as (Hpb & nb & Hnb & Hbpar).
    destruct Hbc as [|q nq c Hbq Hq Hin]; [done |].
    destruct (wf_down H Hwf _ _ _ Hq Hin) as (_ & nc & Hnc & Hcpar).
    assert (q = p) as -> by congruence.
    apply descends_le in Hbq. lia.
  - destruct (wf_down H Hwf _ _ _ Hp Hb) as (Hpb & nb & Hnb & Hbpar).
    destruct (wf_down H Hwf _ _ _ Hq Hin) as (_ & nc & Hnc & Hcpar).
    inversion Hbc as [|q' nq' c' Hbq' Hq' Hin']; subst.
    + assert (q = p) as -> by congruence. apply descends_le in Haq. lia.
    + destruct (wf_down H Hwf _ _ _ Hq' Hin') as (_ & nc' & Hnc' & Hcpar').
      assert (q' = q) as -> by congruence. by apply IH.
Qed.

Lemma elem_of_concat_parts (R : handle -> handle -> Prop)
    (xs : list handle) (parts : list (list handle)) (l : handle) :
  Forall2 (fun x part => NoDup part /\ forall c, c ∈ part <-> R x c) xs parts ->
  l ∈ concat parts <-> exists x, x ∈ xs /\ R x l.
Proof.
  induction 1 as [|x part xs parts [_ Hpart] _ IH]; simpl.
  - split; [by intros ?%elem_of_nil | by intros (x & ?%elem_of_nil & _)].
  - rewrite elem_of_app, IH, Hpart. split.
    + intros [Hx | (y & Hy & Hr)]; [exists x; split; [by left | done] |].
      exists y. split; [by right | done].
    + intros (y & [->|Hy]%elem_of_cons & Hr); [by left |]. right. by exists y.
Qed.

Lemma concat_parts_nodup (R : handle -> handle -> Prop)
    (xs : list handle) (parts : list (list handle)) :
  NoDup xs ->
  (forall x y c, x ∈ xs -> y ∈ xs -> R x c -> R y c -> x = y) ->
  Forall2 (fun x part => NoDup part /\ forall c, c ∈ part <-> R x c) xs parts ->
  NoDup (concat parts).
Proof.
  intros Hnd Hdisj Hall. induction Hall as [|x part xs parts [Hpart Hin] Hrest IH]; simpl.
  - constructor.
  - apply NoDup_cons in Hnd as [Hx Hnd].
    apply NoDup_app. split; [done |]. split.
    + intros c Hc Hc'. apply (elem_of_concat_parts R xs parts c Hrest) in Hc' as (y & Hy & Hr).
      apply Hin in Hc. assert (x = y) as -> by (apply (Hdisj x y c); [by left | by right | done | done]).
      done.
    + apply IH; [done |]. intros a b c Ha Hb. apply Hdisj; by right.
Qed.

(** [getLeafNodes] lists the nodes without children below the node, each
    once. *)
Lemma getLeafNodes_fuel_spec (Hnd : children_nodup H) (fuel : nat) :
  forall c leaves,
    getLeafNodes_fuel fuel H c = Some leaves ->
    NoDup leaves /\ forall l, l ∈ leaves <-> descends H c l /\ childless H l.
Proof.
  induction fuel as [|fuel IH]; intros c leaves Hrun; [done |].
  simpl in Hrun. destruct (H !! c) as [n|] eqn:Hc; [|done].
  case_decide as Hlen.
  - simplify_eq. apply length_zero_iff_nil in Hlen.
    split; [apply NoDup_singleton |]. intros l. rewrite list_elem_of_singleton. split.
    + intros ->. split; [constructor | by exists n].
    + intros [Hd _]. apply descends_inv_top in Hd as [->|(n' & b & Hn' & Hb & _)]; [done |].
      assert (n' = n) as -> by congruence. rewrite Hlen in Hb. by apply elem_of_nil in Hb.
  - apply fmap_Some in Hrun as (parts & Hparts & ->).
    apply mapM_Some_1 in Hparts.
    assert (Forall2 (fun x part => NoDup part /\
                       forall l, l ∈ part <-> descends H x l /\ childless H l)
              (MoveNode.children n) parts) as Hall.
    { eapply Forall2_impl; [exact Hparts |]. intros x part Hx. by apply IH. }
    split.
    + eapply (concat_parts_nodup (fun x l => descends H x l /\ childless H l));
        [by eapply Hnd | | exact Hall].
      intros x y l Hx Hy [Hdx _] [Hdy _]. by eapply siblings_disjoint.
    + intros l. rewrite (elem_of_concat_parts _ _ _ l Hall). split.
      * intros (x & Hx & Hd & Hleaf). split; [by eapply descends_from_child | done].
      * intros [Hd Hleaf]. apply descends_inv_top in Hd as [->|(n' & b & Hn' & Hb & Hd)].
        -- destruct Hleaf as (n' & Hn' & Hnil). assert (n' = n) as -> by congruence.
           rewrite Hnil in Hlen. done.
        -- assert (n' = n) as -> by congruence. by exists b.
Qed.

Lemma elem_of_concat_lookup {A} (parts : list (list A)) (x : A) :
  x ∈ concat parts -> exists k part, parts !! k = Some part /\ x ∈ part.
Proof.
  induction parts as [|part parts IH]; simpl; [by intros ?%elem_of_nil |].
  intros [Hx | Hx]%elem_of_app; [by exists 0, part |].
  destruct (IH Hx) as (k & part' & Hk & Hin). by exists (S k), part'.
Qed.

(** The order of a concatenation: that of each part, and the parts one
    after the other. *)
Lemma concat_order {A} (R : A -> A -> Prop) (parts : list (list A)) :
  (forall k part i j a b,
      parts !! k = Some part -> i < j -> part !! i = Some a -> part !! j = Some b ->
      R a b) ->
  (forall k1 k2 p1 p2 a b,
      k1 < k2 -> parts !! k1 = Some p1 -> parts !! k2 = Some p2 ->
      a ∈ p1 -> b ∈ p2 -> R a b) ->
  forall i j a b,
    i < j -> concat parts !! i = Some a -> concat parts !! j = Some b -> R a b.
Proof.
  induction parts as [|part parts IH]; intros Hin Hacross i j a b Hlt Ha Hb; simpl in *;
    [done |].
  apply lookup_app_Some in Ha as [Ha | [Hia Ha]];
    apply lookup_app_Some in Hb as [Hb | [Hjb Hb]].
  - by apply (Hin 0 part i j).
  - apply list_elem_of_lookup_2, elem_of_concat_lookup in Hb as (k & part' & Hk & Hb).
    apply (Hacross 0 (S k) part part'); [lia | done | done | | done].
    by apply list_elem_of_lookup_2 in Ha.
  - apply lookup_lt_Some in Hb. lia.
  - apply (IH (fun k => Hin (S k)) (fun k1 k2 p1 p2 a' b' Hk => Hacross (S k1) (S k2) p1 p2 a' b' ltac:(lia))
             (i - length part) (j - length part)); [lia | done | done].
Qed.

(** [getLeafNodes] lists the leaves in depth-first order. *)
Lemma getLeafNodes_fuel_order (Hnd : children_nodup H) (fuel : nat) :
  forall c leaves,
    getLeafNodes_fuel fuel H c = Some leaves ->
    forall i j a b,
      i < j -> leaves !! i = Some a -> leaves !! j = Some b -> dfs_before H a b.
Proof.
  induction fuel as [|fuel IH]; intros c leaves Hrun; [done |].
  simpl in Hrun. destruct (H !! c) as [n|] eqn:Hc; [|done].
  case_decide as Hlen.
  - simplify_eq. intros [|i] [|j] a b Hlt Ha Hb; try done; lia.
  - apply fmap_Some in Hrun as (parts & Hparts & ->).
    apply mapM_Some_1 in Hparts.
    apply concat_order.
    + intros k part i j a b Hk Hlt Ha Hb.
      destruct (Forall2_lookup_r _ _ _ _ _ Hparts Hk) as (x & _ & Hx).
      by apply (IH x part Hx i j).
    + intros k1 k2 p1 p2 a b Hlt Hk1 Hk2 Ha Hb.
      destruct (Forall2_lookup_r _ _ _ _ _ Hparts Hk1) as (x1 & Hx1 & Hrun1).
      destruct (Forall2_lookup_r _ _ _ _ _ Hparts Hk2) as (x2 & Hx2 & Hrun2).
      destruct (getLeafNodes_fuel_spec Hnd fuel x1 p1 Hrun1) as [_ Hspec1].
      destruct (getLeafNodes_fuel_spec Hnd fuel x2 p2 Hrun2) as [_ Hspec2].
      exists c, n, k1, k2, x1, x2. repeat (split; [done |]).
      split; [by apply Hspec1 | by apply Hspec2].
Qed.

End Subtrees.

(** X7. In the tree that [parsePgnToTree] returns, [getLeafNodes] called on
    a node returns the nodes without children at or below that node, each
    exactly once; called on the root, it returns all the nodes without
    children, and at least one. *)
Theorem getLeafNodes_exact (E : Engine) (random : nat -> string) (pgn : string) (w : nat) :
  exists H w',
    parsePgnToTree E random pgn w = Some (H, w') /\
    (forall node, is_Some (H !! node) ->
       exists leaves,
         getLeafNodes H node = Some leaves /\ NoDup leaves /\
         forall l, l ∈ leaves <-> descends H node l /\ childless H l) /\
    exists leaves,
      getLeafNodes H 0 = Some leaves /\ leaves <> [] /\
      forall l, l ∈ leaves <-> childless H l.
Proof.
  destruct (parsePgnToTree_total E random pgn w) as [[H w'] Hparse].
  exists H, w'. split; [done |].
  pose proof (parsePgnToTree_wf E random pgn w H w' Hparse) as Hwf.
  pose proof (parsePgnToTree_children_nodup E random pgn w H w' Hparse) as Hnd.
  assert (forall node, is_Some (H !! node) ->
            exists leaves,
              getLeafNodes H node = Some leaves /\ NoDup leaves /\
              forall l, l ∈ leaves <-> descends H node l /\ childless H l) as Hall.
  { intros node Hnode.
    destruct (getLeafNodes_fuel_total H Hwf (length H) node Hnode) as [leaves Hleaves]; [lia |].
    exists leaves. split; [done |]. by apply (getLeafNodes_fuel_spec H Hwf Hnd (length H)). }
  split; [done |].
  destruct (wf_root H Hwf) as (r & Hr & _).
  destruct (Hall 0) as (leaves & Hleaves & _ & Hspec); [by eexists |].
  exists leaves. split; [done |]. split.
  - assert (is_Some (H !! (length H - 1))) as [nl Hnl].
    { apply lookup_lt_is_Some. apply lookup_lt_Some in Hr. lia. }
    assert (length H - 1 ∈ leaves) as Hin.
    { apply Hspec. split; [apply descends_root; [done | by eexists] |].
      exists nl. split; [done |].
      destruct (MoveNode.children nl) as [|c cs] eqn:Hch; [done |].
      destruct (wf_down H Hwf (length H - 1) nl c Hnl) as (Hlt & nc & Hnc & _).
      { rewrite Hch. by left. }
      apply lookup_lt_Some in Hnc. lia. }
    intros ->. by apply elem_of_nil in Hin.
  - intros l. rewrite Hspec. split; [by intros [_ ?] |].
    intros Hleaf. split; [|done]. apply descends_root; [done |].
    destruct Hleaf as (n & Hn & _). by eexists.
Qed.

(** X24. What [findNextUnplayedLine] selects in a parsed tree. The leaves
    that [getLeafNodes] returns for the root are the nodes without
    children, each once, in depth-first order (children in their stored
    order); [getAllLines] returns, leaf by leaf, the path from the root
    without the root. For every completed set [findNextUnplayedLine]
    returns the first of these lines whose terminal leaf has an identity
    that is not empty and is not in the set, and null when there is none;
    when no leaf has the empty identity, this is the first line whose
    terminal leaf is not completed. *)
Theorem findNextUnplayedLine_depth_first (E : Engine) (random : nat -> string)
    (pgn : string) (w : nat) :
  exists H w' leaves lines,
    parsePgnToTree E random pgn w = Some (H, w') /\
    getLeafNodes H 0 = Some leaves /\
    getAllLines H 0 = Some lines /\
    NoDup leaves /\
    (forall l, l ∈ leaves <-> childless H l) /\
    (forall i j a b,
        i < j -> leaves !! i = Some a -> leaves !! j = Some b -> dfs_before H a b) /\
    Forall2 (fun leaf line => getPathToNode H leaf = Some (0 :: line)) leaves lines /\
    forall completed, exists res,
      findNextUnplayedLine H 0 completed = Some res /\
      first_where (line_unplayed H completed) lines res /\
      ((forall l n, childless H l -> H !! l = Some n -> MoveNode.id n <> EmptyString) ->
       first_where (line_uncompleted H completed) lines res).
Proof.
  destruct (parsePgnToTree_total E random pgn w) as [[H w'] Hparse].
  pose proof (parsePgnToTree_wf E random pgn w H w' Hparse) as Hwf.
  pose proof (parsePgnToTree_children_nodup E random pgn w H w' Hparse) as Hnd.
  destruct (wf_root H Hwf) as (r & Hr & _).
  destruct (findNextUnplayedLine_lines H 0 ∅ Hwf) as
    (leaves & lines & _ & Hleaves & Hlines & Hpaths & _); [by eexists |].
  destruct (getLeafNodes_fuel_spec H Hwf Hnd (length H) 0 leaves Hleaves) as [Hnodup Hspec].
  assert (forall l, l ∈ leaves <-> childless H l) as Hall.
  { intros l. rewrite Hspec. split; [by intros [_ ?] |].
    intros Hleaf. split; [|done]. apply descends_root; [done |].
    destruct Hleaf as (n & Hn & _). by eexists. }
  exists H, w', leaves, lines. repeat (split; [done |]).
  split; [by apply (getLeafNodes_fuel_order H Hwf Hnd (length H) 0) |].
  split; [done |].
  intros completed.
  destruct (findNextUnplayedLine_lines H 0 completed Hwf) as
    (leaves' & lines' & res & Hleaves' & Hlines' & _ & Hres & Hfirst & Hplain & _);
    [by eexists |].
  assert (lines' = lines) as -> by congruence.
  assert (leaves' = leaves) as -> by congruence.
  exists res. split; [done |]. split; [done |].
  intros Hids. apply Hplain. intros leaf n Hin Hn. apply (Hids leaf n); [|done].
  by apply Hall.
Qed.

(** ** Finding a node by its identity *)

Lemma firstFound_spec (find : handle -> option (option handle)) (xs : list handle)
    (r : option handle) :
  firstFound find xs = Some r ->
  match r with
  | Some found => exists x, x ∈ xs /\ find x = Some (Some found)
  | None => forall x, x ∈ xs -> find x = Some None
  end.
Proof.
  induction xs as [|x xs IH]; simpl; intros Hrun.
  - simplify_eq. by intros x ?%elem_of_nil.
  - destruct (find x) as [[found|]|] eqn:Hx; [| |done].
    + simplify_eq. exists x. split; [by left | done].
    + specialize (IH Hrun). destruct r as [found|].
      * destruct IH as (y & Hy & Hfy). exists y. split; [by right | done].
      * intros y [->|Hy]%elem_of_cons; [done | by apply IH].
Qed.

Section Find.

Context (H : Heap) (Hwf : wf_heap H).

Lemma findNodeById_fuel_total (id : string) (fuel : nat) :
  forall c, is_Some (H !! c) -> length H - c <= fuel ->
    is_Some (findNodeById_fuel fuel H c id).
Proof.
  induction fuel as [|fuel IH]; intros c [n Hc] Hfuel.
  - apply lookup_lt_Some in Hc. lia.
  - simpl. rewrite Hc. case_decide; [done |].
    assert (forall x, x ∈ MoveNode.children n ->
              is_Some (findNodeById_fuel fuel H x id)) as Hall.
    { intros x Hx. destruct (wf_down H Hwf _ _ _ Hc Hx) as (Hlt & nx & Hnx & _).
      apply IH; [by eexists | lia]. }
    induction (MoveNode.children n) as [|x xs IHxs]; simpl; [done |].
    destruct (Hall x) as [[found|] ->]; [by left | done |].
    apply IHxs. intros y Hy. apply Hall. by right.
Qed.

(** What is found carries the identity and is below the start; nothing is
    found only if no node below the start carries it. *)
Lemma findNodeById_fuel_spec (id : string) (fuel : nat) :
  forall c r,
    findNodeById_fuel fuel H c id = Some r ->
    match r with
    | Some found =>
        descends H c found /\ exists nf, H !! found = Some nf /\ MoveNode.id nf = id
    | None =>
        forall d nd, descends H c d -> H !! d = Some nd -> MoveNode.id nd <> id
    end.
Proof.
  induction fuel as [|fuel IH]; intros c r Hrun; [done |].
  simpl in Hrun. destruct (H !! c) as [n|] eqn:Hc; [|done].
  case_decide as Hid.
  - simplify_eq. split; [constructor | by exists n].
  - apply firstFound_spec in Hrun. destruct r as [found|].
    + destruct Hrun as (x & Hx & Hfx). apply IH in Hfx as [Hd Hf].
      split; [by eapply descends_from_child | done].
    + intros d nd Hd Hnd.
      apply descends_inv_top in Hd as [<-|(n' & b & Hn' & Hb & Hd)]; [by simplify_eq |].
      assert (n' = n) as -> by congruence.
      apply Hrun in Hb. apply IH in Hb. by eapply Hb.
Qed.

Lemma findNodeById_spec (id : string) :
  exists r,
    findNodeById H 0 id = Some r /\
    match r with
    | Some found => exists nf, H !! found = Some nf /\ MoveNode.id nf = id
    | None => forall d nd, H !! d = Some nd -> MoveNode.id nd <> id
    end.
Proof.
  destruct (wf_root H Hwf) as (r0 & Hr0 & _).
  destruct (findNodeById_fuel_total id (length H) 0) as [r Hr]; [by eexists | lia |].
  exists r. split; [done |]. apply findNodeById_fuel_spec in Hr. destruct r as [found|].
  - by destruct Hr.
  - intros d nd Hnd. apply (Hr d nd); [|done]. apply descends_root; [done | by eexists].
Qed.

End Find.

(** X8. In the tree that [parsePgnToTree] returns, [findNodeById] called on
    the root with any identity returns: a node that carries this identity,
    or [null] when no node of the tree carries it. *)
Theorem findNodeById_sound_complete (E : Engine) (random : nat -> string)
    (pgn : string) (w : nat) (id : string) :
  exists H w' r,
    parsePgnToTree E random pgn w = Some (H, w') /\
    findNodeById H 0 id = Some r /\
    match r with
    | Some found => exists nf, H !! found = Some nf /\ MoveNode.id nf = id
    | None => forall d nd, H !! d = Some nd -> MoveNode.id nd <> id
    end.
Proof.
  destruct (parsePgnToTree_total E random pgn w) as [[H w'] Hparse].
  pose proof (parsePgnToTree_wf E random pgn w H w' Hparse) as Hwf.
  destruct (findNodeById_spec H Hwf id) as (r & Hr & Hspec).
  by exists H, w', r.
Qed.

(** The identities of a parsed tree differ when the generator never
    repeats itself and never says "root". *)
Lemma parsePgnToTree_ids_differ (E : Engine) (random : nat -> string)
    (pgn : string) (w : nat) (H : Heap) (w' : nat) :
  (forall a b, random a = random b -> a = b) ->
  (forall a, random a <> "root") ->
  parsePgnToTree E random pgn w = Some (H, w') ->
  forall c d nc nd,
    H !! c = Some nc -> H !! d = Some nd -> MoveNode.id nc = MoveNode.id nd -> c = d.
Proof.
  intros Hinj Hroot Hparse c d nc nd Hc Hd Heq.
  destruct (parsePgnToTree_ids E random pgn w H w' Hparse) as (_ & (r & Hr & Hrid) & Hids).
  destruct c as [|c], d as [|d]; [done | | |].
  - apply Hids in Hd. assert (nc = r) as -> by congruence.
    exfalso. apply (Hroot (w + d)). congruence.
  - apply Hids in Hc. assert (nd = r) as -> by congruence.
    exfalso. apply (Hroot (w + c)). congruence.
  - apply Hids in Hc. apply Hids in Hd. f_equal.
    assert (w + c = w + d) by (apply Hinj; congruence). lia.
Qed.

(** X9. When the identity generator never repeats itself and never says
    "root", [findNodeById] called on the root of a parsed tree with the
    identity of one of its nodes returns this very node. *)
Theorem findNodeById_round_trip (E : Engine) (random : nat -> string)
    (pgn : string) (w : nat) :
  (forall a b, random a = random b -> a = b) ->
  (forall a, random a <> "root") ->
  exists H w',
    parsePgnToTree E random pgn w = Some (H, w') /\
    forall c nc, H !! c = Some nc -> findNodeById H 0 (MoveNode.id nc) = Some (Some c).
Proof.
  intros Hinj Hroot.
  destruct (parsePgnToTree_total E random pgn w) as [[H w'] Hparse].
  exists H, w'. split; [done |]. intros c nc Hc.
  pose proof (parsePgnToTree_wf E random pgn w H w' Hparse) as Hwf.
  destruct (findNodeById_spec H Hwf (MoveNode.id nc)) as (r & Hr & Hspec).
  rewrite Hr. destruct r as [found|].
  - destruct Hspec as (nf & Hnf & Hid). do 2 f_equal.
    by eapply (parsePgnToTree_ids_differ E random pgn w H w' Hinj Hroot Hparse).
  - by destruct (Hspec c nc Hc).
Qed.

Lemma findNodeById_round_trip_book :
  exists H w',
    parsePgnToTree Book.engine Book.tally "1. e4 (1. d4 d5) e5" 0 = Some (H, w') /\
    forall c nc, H !! c = Some nc -> findNodeById H 0 (MoveNode.id nc) = Some (Some c).
Proof.
  apply (findNodeById_round_trip Book.engine Book.tally "1. e4 (1. d4 d5) e5" 0).
  - apply tally_inj.
  - apply tally_not_root.
Defined.

(** ** The cleaning pre-pass on annotated move text *)

Lemma unwords_cons (x : string) (l : list string) :
  unwords (x :: l) = x +:+ after l.
Proof. destruct l; simpl; [by rewrite append_nil_r | done]. Qed.

Lemma tail_ok_after (l : list string) : tail_ok (after l).
Proof. destruct l; [by left | right; by eexists]. Qed.

Lemma every_impl (P Q : ascii -> bool) (s : string) :
  (forall c, P c = true -> Q c = true) -> every P s = true -> every Q s = true.
Proof.
  intros HPQ. induction s as [|c s IH]; simpl; [done |].
  intros [Hc Hs]%andb_true_iff. apply andb_true_iff. split; [by apply HPQ | by apply IH].
Qed.

(** A pass that leaves spaces alone and rewrites each piece by itself
    rewrites a text piece by piece. *)
Lemma pass_unwords {A : Type} (pass : string -> string) (f g : A -> string)
    (ok : A -> Prop) :
  pass EmptyString = EmptyString ->
  (forall rest, pass (String " " rest) = String " " (pass rest)) ->
  (forall x rest, ok x -> tail_ok rest -> pass (f x +:+ rest) = g x +:+ pass rest) ->
  forall l, Forall ok l -> pass (unwords (f <$> l)) = unwords (g <$> l).
Proof.
  intros Hnil Hspace Hpiece l. induction 1 as [|x l Hx Hl IH]; [done |].
  rewrite !fmap_cons, !unwords_cons.
  rewrite Hpiece by (done || apply tail_ok_after). f_equal.
  destruct l as [|y l]; [done |].
  unfold after. rewrite !fmap_cons. rewrite Hspace. f_equal. exact IH.
Qed.

(** Comments. *)

Lemma removeComments_keep (w rest : string) :
  every (fun c => negb (ch c "{")) w = true ->
  removeComments false (w +:+ rest) = w +:+ removeComments false rest.
Proof.
  induction w as [|c w IH]; intros Hw; [by rewrite !append_nil_l |].
  cbn [every] in Hw. apply andb_true_iff in Hw as [Hc Hw].
  rewrite !append_cons. cbn [removeComments]. apply negb_true_iff in Hc. rewrite Hc.
  by rewrite IH.
Qed.

Lemma has_char_close (c rest : string) : has_char "}" (c +:+ String "}" rest) = true.
Proof.
  induction c as [|a c IH]; [done |].
  rewrite append_cons. cbn [has_char]. rewrite IH. apply orb_true_r.
Qed.

Lemma removeComments_inside (c rest : string) :
  has_char "}" c = false ->
  removeComments true (c +:+ String "}" rest) = removeComments false rest.
Proof.
  induction c as [|a c IH]; intros Hc; [done |].
  cbn [has_char] in Hc. apply orb_false_iff in Hc as [Ha Hc].
  rewrite append_cons. cbn [removeComments].
  assert (ch a "}" = false) as -> by (unfold ch in *; by rewrite Ascii.eqb_sym).
  by apply IH.
Qed.

Lemma removeComments_comment (c rest : string) :
  has_char "}" c = false ->
  removeComments false (String "{" (c +:+ "}") +:+ rest) = removeComments false rest.
Proof.
  intros Hc. rewrite append_cons, append_assoc, append_cons, append_nil_l.
  cbn [removeComments]. change (ch "{" "{") with true. cbn iota.
  rewrite has_char_close. by apply removeComments_inside.
Qed.

(** Numeric annotation glyphs. *)

Lemma removeNags_keep (w rest : string) :
  every (fun c => negb (ch c "$")) w = true ->
  removeNags false (w +:+ rest) = w +:+ removeNags false rest.
Proof.
  induction w as [|c w IH]; intros Hw; [by rewrite !append_nil_l |].
  cbn [every] in Hw. apply andb_true_iff in Hw as [Hc Hw].
  rewrite !append_cons. cbn [removeNags andb]. apply negb_true_iff in Hc. rewrite Hc.
  cbn [andb]. by rewrite IH.
Qed.

Lemma removeNags_digits (d rest : string) :
  every is_digit d = true -> tail_ok rest ->
  removeNags true (d +:+ rest) = removeNags false rest.
Proof.
  intros Hd Hrest. induction d as [|c d IH].
  - rewrite append_nil_l. by destruct Hrest as [->|[r ->]].
  - cbn [every] in Hd. apply andb_true_iff in Hd as [Hc Hd].
    rewrite append_cons. cbn [removeNags andb]. rewrite Hc. by apply IH.
Qed.

Lemma removeNags_nag (d rest : string) :
  d <> EmptyString -> every is_digit d = true -> tail_ok rest ->
  removeNags false (String "$" d +:+ rest) = removeNags false rest.
Proof.
  intros Hne Hd Hrest. rewrite append_cons.
  destruct d as [|c d]; [done |]. pose proof Hd as Hd'.
  cbn [every] in Hd'. apply andb_true_iff in Hd' as [Hc _].
  cbn [removeNags andb]. change (ch "$" "$") with true. cbn [andb].
  rewrite append_cons at 1. cbn [starts_with_digit]. rewrite Hc.
  by apply removeNags_digits.
Qed.

(** Move numbers. *)

Lemma digits_then_dot_word (w rest : string) :
  every (fun c => negb (ch c ".")) w = true -> tail_ok rest ->
  digits_then_dot (w +:+ rest) = false.
Proof.
  intros Hw Hrest. induction w as [|c w IH].
  - rewrite append_nil_l. by destruct Hrest as [->|[r ->]].
  - cbn [every] in Hw. apply andb_true_iff in Hw as [Hc Hw].
    rewrite append_cons. cbn [digits_then_dot]. apply negb_true_iff in Hc. rewrite Hc.
    destruct (is_digit c); [by apply IH | done].
Qed.

Lemma removeMoveNumbers_keep (w rest : string) :
  every (fun c => negb (ch c ".")) w = true -> tail_ok rest ->
  removeMoveNumbers Scan (w +:+ rest) = w +:+ removeMoveNumbers Scan rest.
Proof.
  intros Hw Hrest. induction w as [|c w IH]; [by rewrite !append_nil_l |].
  cbn [every] in Hw. apply andb_true_iff in Hw as [Hc Hw].
  rewrite !append_cons. cbn [removeMoveNumbers andb].
  rewrite digits_then_dot_word by done.
  rewrite andb_false_r. by rewrite IH.
Qed.

Lemma digits_then_dot_number (d rest : string) :
  every is_digit d = true -> digits_then_dot (d +:+ String "." rest) = true.
Proof.
  induction d as [|c d IH]; intros Hd; [done |].
  cbn [every] in Hd. apply andb_true_iff in Hd as [Hc Hd].
  rewrite append_cons. cbn [digits_then_dot]. rewrite Hc. by apply IH.
Qed.

Lemma removeMoveNumbers_dots (k : nat) (rest : string) :
  tail_ok rest ->
  removeMoveNumbers Dots (dots k +:+ rest) = removeMoveNumbers Scan rest.
Proof.
  intros Hrest. induction k as [|k IH]; cbn [dots].
  - rewrite append_nil_l. by destruct Hrest as [->|[r ->]].
  - rewrite append_cons. cbn [removeMoveNumbers andb].
    change (ch "." ".") with true. cbn iota. exact IH.
Qed.

Lemma removeMoveNumbers_digits (d : string) (k : nat) (rest : string) :
  every is_digit d = true -> tail_ok rest ->
  removeMoveNumbers Digits (d +:+ String "." (dots k) +:+ rest)
  = removeMoveNumbers Scan rest.
Proof.
  intros Hd Hrest. induction d as [|c d IH].
  - rewrite append_nil_l, append_cons. cbn [removeMoveNumbers].
    change (is_digit ".") with false. cbn iota. by apply removeMoveNumbers_dots.
  - cbn [every] in Hd. apply andb_true_iff in Hd as [Hc Hd].
    rewrite append_cons. cbn [removeMoveNumbers]. rewrite Hc. by apply IH.
Qed.

Lemma removeMoveNumbers_number (d : string) (k : nat) (rest : string) :
  d <> EmptyString -> every is_digit d = true -> tail_ok rest ->
  removeMoveNumbers Scan ((d +:+ String "." (dots k)) +:+ rest)
  = String " " (removeMoveNumbers Scan rest).
Proof.
  intros Hne Hd Hrest. rewrite append_assoc.
  destruct d as [|c d]; [done |]. pose proof Hd as Hd'.
  cbn [every] in Hd'. apply andb_true_iff in Hd' as [Hc Hd'].
  rewrite append_cons. cbn [removeMoveNumbers andb]. rewrite Hc.
  rewrite append_cons.
  rewrite (digits_then_dot_number d) by done. cbn [andb]. f_equal.
  rewrite <- (append_cons "." (dots k) rest).
  by apply removeMoveNumbers_digits.
Qed.

Lemma every_app (P : ascii -> bool) (a b : string) :
  every P (a +:+ b) = every P a && every P b.
Proof.
  induction a as [|c a IH]; [by rewrite append_nil_l |].
  rewrite append_cons. cbn [every]. by rewrite IH, andb_assoc.
Qed.

Lemma every_dots (P : ascii -> bool) (k : nat) : P "."%char = true -> every P (dots k) = true.
Proof. intros HP. induction k as [|k IH]; [done |]. cbn [dots every]. by rewrite HP, IH. Qed.

Lemma ch_apart (P : ascii -> bool) (c d : ascii) :
  P c = true -> P d = false -> negb (ch c d) = true.
Proof.
  intros Hc Hd. apply negb_true_iff. destruct (ch c d) eqn:Hcd; [|done].
  apply Ascii.eqb_eq in Hcd. congruence.
Qed.

Lemma move_char_not (c d : ascii) :
  move_char c = true -> move_char d = false -> negb (ch c d) = true.
Proof. apply ch_apart. Qed.

(** The characters of the pieces other than comments. *)
Lemma written_chars (P : ascii -> bool) (p : Piece) :
  piece_ok p ->
  (forall c, move_char c = true -> P c = true) ->
  (forall c, is_digit c = true -> P c = true) ->
  P "."%char = true -> P "$"%char = true -> P "-"%char = true ->
  P "/"%char = true -> P "*"%char = true ->
  match p with Comment _ => True | _ => every P (written p) = true end.
Proof.
  intros Hok Hmove Hdigit Hdot Hdollar Hdash Hslash Hstar.
  destruct p as [t|d k|d|c|r]; simpl in Hok; cbn [written].
  - destruct Hok as [_ Ht]. exact (every_impl move_char P t Hmove Ht).
  - destruct Hok as [_ Hd]. rewrite every_app. cbn [every].
    rewrite (every_impl is_digit P d Hdigit Hd), Hdot, every_dots; done.
  - destruct Hok as [_ Hd]. cbn [every].
    by rewrite Hdollar, (every_impl is_digit P d Hdigit Hd).
  - done.
  - destruct Hok as [-> | [-> | [-> | ->]]]; cbn [every];
      rewrite ?Hdash, ?Hslash, ?Hstar, ?(Hdigit "0"%char), ?(Hdigit "1"%char), ?(Hdigit "2"%char); done.
Qed.

Lemma clean_comments (l : list Piece) :
  Forall piece_ok l ->
  removeComments false (unwords (written <$> l)) = unwords (without_comment <$> l).
Proof.
  apply pass_unwords; [done | done |].
  intros p rest Hok _.
  pose proof (written_chars (fun c => negb (ch c "{")) p Hok) as Hchars.
  destruct p as [t|d k|d|c|r]; cbn [without_comment];
    try (apply removeComments_keep; apply Hchars; try done;
         intros a Ha; [by apply (move_char_not a "{"%char) | by apply (ch_apart is_digit)]).
  rewrite append_nil_l. cbn [written]. by apply removeComments_comment.
Qed.

Lemma clean_nags (l : list Piece) :
  Forall piece_ok l ->
  removeNags false (unwords (without_comment <$> l)) = unwords (without_nag <$> l).
Proof.
  apply pass_unwords; [done | done |].
  intros p rest Hok Hrest.
  destruct p as [t|d k|d|c|r]; cbn [without_comment without_nag written];
    rewrite ?append_nil_l; try done.
  - destruct Hok as [_ Ht]. apply removeNags_keep.
    eapply every_impl; [|exact Ht]. intros a Ha. by apply (move_char_not a "$"%char).
  - destruct Hok as [_ Hd]. apply removeNags_keep. rewrite every_app. cbn [every].
    rewrite (every_impl is_digit _ d) by (done || intros a Ha; by apply (ch_apart is_digit)).
    by rewrite every_dots.
  - destruct Hok as [Hne Hd]. by apply removeNags_nag.
  - apply removeNags_keep. by destruct Hok as [-> | [-> | [-> | ->]]].
Qed.

Lemma clean_numbers (l : list Piece) :
  Forall piece_ok l ->
  removeMoveNumbers Scan (unwords (without_nag <$> l)) = unwords (without_number <$> l).
Proof.
  apply pass_unwords; [done | done |].
  intros p rest Hok Hrest.
  destruct p as [t|d k|d|c|r]; cbn [without_number without_nag written];
    rewrite ?append_nil_l; try done.
  - destruct Hok as [_ Ht]. apply removeMoveNumbers_keep; [|done].
    eapply every_impl; [|exact Ht]. intros a Ha. by apply (move_char_not a "."%char).
  - destruct Hok as [Hne Hd]. rewrite append_cons, append_nil_l.
    by apply removeMoveNumbers_number.
  - apply removeMoveNumbers_keep; [|done]. by destruct Hok as [-> | [-> | [-> | ->]]].
Qed.

(** Runs of spaces, results and the trimming. *)

Lemma collapseSpaces_word (b : bool) (w rest : string) :
  every (fun c => negb (is_space c)) w = true -> w <> EmptyString ->
  collapseSpaces b (w +:+ rest) = w +:+ collapseSpaces false rest.
Proof.
  intros Hw Hne.
  assert (forall b, collapseSpaces b (w +:+ rest)
                    = w +:+ collapseSpaces (if w is EmptyString then b else false) rest)
    as Hgen; [|destruct w; [done | apply Hgen]].
  clear Hne. induction w as [|c w IH]; intros b'; [by rewrite !append_nil_l |].
  cbn [every] in Hw. apply andb_true_iff in Hw as [Hc Hw].
  apply negb_true_iff in Hc. rewrite !append_cons. cbn [collapseSpaces]. rewrite Hc.
  f_equal. rewrite IH by done. by destruct w.
Qed.

Lemma tail_ok_collapseSpaces (rest : string) :
  tail_ok rest -> tail_ok (collapseSpaces false rest).
Proof. intros [->|[r ->]]; [by left | right; by eexists]. Qed.

Lemma removeResults_step (c : ascii) (rest : string) :
  removeResults 0 (String c rest)
  = if String.prefix "1-0" (String c rest) then removeResults 2 rest
    else if String.prefix "0-1" (String c rest) then removeResults 2 rest
    else if String.prefix "1/2-1/2" (String c rest) then removeResults 6 rest
    else if ch c "*" then removeResults 0 rest
    else String c (removeResults 0 rest).
Proof. reflexivity. Qed.

(** A text without space that starts a word followed by a space starts
    the word. *)
Lemma prefix_word (r : string) :
  every (fun c => negb (ch c " ")) r = true ->
  forall w rest, tail_ok rest -> String.prefix r (w +:+ rest) = true ->
    exists w', w = r +:+ w'.
Proof.
  induction r as [|a r IH]; intros Hr w rest Hrest Hpre.
  - exists w. by rewrite append_nil_l.
  - cbn [every] in Hr. apply andb_true_iff in Hr as [Ha Hr].
    destruct w as [|c w].
    + rewrite append_nil_l in Hpre. destruct Hrest as [->|[x ->]]; [done |].
      cbn [String.prefix] in Hpre. destruct (ascii_dec a " ") as [->|]; done.
    + rewrite append_cons in Hpre. cbn [String.prefix] in Hpre.
      destruct (ascii_dec a c) as [->|]; [|done].
      destruct (IH Hr w rest Hrest Hpre) as [w' ->]. exists w'. by rewrite append_cons.
Qed.

Lemma prefix_no_result (r w rest : string) :
  every (fun c => negb (ch c " ")) r = true -> every no_result_char r = false ->
  every no_result_char w = true -> tail_ok rest ->
  String.prefix r (w +:+ rest) = false.
Proof.
  intros Hr Hbad Hw Hrest. destruct (String.prefix r (w +:+ rest)) eqn:Hpre; [|done].
  destruct (prefix_word r Hr w rest Hrest Hpre) as [w' ->].
  rewrite every_app in Hw. apply andb_true_iff in Hw as [Hw _]. congruence.
Qed.

Lemma removeResults_keep (w rest : string) :
  every no_result_char w = true -> tail_ok rest ->
  removeResults 0 (w +:+ rest) = w +:+ removeResults 0 rest.
Proof.
  intros Hw Hrest. induction w as [|c w IH]; [by rewrite !append_nil_l |].
  rewrite !append_cons, removeResults_step, <- !append_cons.
  rewrite !prefix_no_result by done.
  cbn [every] in Hw. apply andb_true_iff in Hw as [Hc Hw].
  unfold no_result_char in Hc. apply negb_true_iff in Hc.
  apply orb_false_iff in Hc as [_ ->].
  rewrite !append_cons. by rewrite IH.
Qed.

Lemma removeResults_result (r rest : string) :
  r = "1-0" \/ r = "0-1" \/ r = "1/2-1/2" \/ r = "*" ->
  removeResults 0 (r +:+ rest) = removeResults 0 rest.
Proof. intros [-> | [-> | [-> | ->]]]; destruct rest; reflexivity. Qed.

Lemma plain_space_eq (c : ascii) : plain_space c = true -> is_space c = true -> c = " "%char.
Proof.
  unfold plain_space. intros Hc Hs. rewrite Hs in Hc. by apply Ascii.eqb_eq in Hc.
Qed.

Lemma collapseSpaces_plain (b : bool) (s : string) :
  every plain_space (collapseSpaces b s) = true.
Proof.
  revert b. induction s as [|c s IH]; intros b; [done |].
  cbn [collapseSpaces]. destruct (is_space c) eqn:Hc.
  - destruct b; [apply IH |]. cbn [every]. by rewrite IH.
  - cbn [every]. rewrite IH. unfold plain_space. by rewrite Hc.
Qed.

Lemma removeResults_every (P : ascii -> bool) (s : string) :
  forall k, every P s = true -> every P (removeResults k s) = true.
Proof.
  induction s as [|c s IH]; intros k Hs; [done |].
  cbn [every] in Hs. apply andb_true_iff in Hs as [Hc Hs].
  destruct k as [|k]; [|by apply IH].
  rewrite removeResults_step.
  repeat (match goal with |- context [if ?b then _ else _] => destruct b end);
    try (by apply IH).
  cbn [every]. by rewrite Hc, IH.
Qed.

Lemma tokenize_loop_trimStart (s : string) :
  every plain_space s = true ->
  tokenize_loop (trimStart s) [] EmptyString = tokenize_loop s [] EmptyString.
Proof.
  induction s as [|c s IH]; intros Hs; [done |].
  cbn [every] in Hs. apply andb_true_iff in Hs as [Hc Hs].
  cbn [trimStart]. destruct (is_space c) eqn:Hsp; [|done].
  apply plain_space_eq in Hc as ->; [|done]. by rewrite IH.
Qed.

Lemma every_trimStart (P : ascii -> bool) (s : string) :
  every P s = true -> every P (trimStart s) = true.
Proof.
  induction s as [|c s IH]; intros Hs; [done |].
  cbn [trimStart]. destruct (is_space c); [|done].
  cbn [every] in Hs. apply andb_true_iff in Hs as [_ Hs]. by apply IH.
Qed.

Lemma tokenize_loop_trimEnd (s : string) :
  every plain_space s = true ->
  forall tokens current,
    tokenize_loop (trimEnd s) tokens current = tokenize_loop s tokens current.
Proof.
  induction s as [|c s IH]; intros Hs tokens current; [done |].
  cbn [every] in Hs. apply andb_true_iff in Hs as [Hc Hs].
  cbn [trimEnd]. destruct (is_space c) eqn:Hsp; cbn [andb].
  - apply plain_space_eq in Hc as ->; [|done].
    destruct (truthy (trimEnd s)) eqn:Hr; cbn [negb].
    + cbn [tokenize_loop]. change (is_sep " ") with true. cbn iota. by rewrite IH.
    + cbn [tokenize_loop]. change (is_sep " ") with true. cbn iota.
      rewrite <- IH by done. destruct (trimEnd s); [|done].
      change (negb (ch " " " ")) with false. cbn iota. cbn [tokenize_loop truthy].
      by destruct (truthy current).
  - cbn [tokenize_loop]. destruct (is_sep c); by rewrite IH.
Qed.

Lemma tokenize_trim (s : string) :
  every plain_space s = true -> tokenize (trim s) = tokenize s.
Proof.
  intros Hs. unfold tokenize, trim.
  rewrite tokenize_loop_trimEnd by (by apply every_trimStart).
  by apply tokenize_loop_trimStart.
Qed.

Lemma tokenize_loop_token (t rest : string) (tokens : list string) :
  token_ok t -> tail_ok rest ->
  tokenize_loop (t +:+ rest) tokens EmptyString
  = tokenize_loop rest (tokens ++ [t]) EmptyString.
Proof.
  intros Ht Hrest.
  assert (tokenize_loop t tokens EmptyString = tokens ++ [t]) as Hone.
  { rewrite tokenize_loop_acc. f_equal. by apply tokenize_token. }
  destruct Hrest as [->|[r ->]].
  - by rewrite append_nil_r.
  - by rewrite tokenize_loop_space, Hone.
Qed.

Lemma tokens_after_space (b : bool) (rest : string) (tokens : list string) :
  tokenize_loop (removeResults 0 (collapseSpaces b (String " " rest))) tokens EmptyString
  = tokenize_loop (removeResults 0 (collapseSpaces true rest)) tokens EmptyString.
Proof. by destruct b. Qed.

(** The tokens of the text once the runs of spaces are collapsed and the
    results removed. *)
Lemma tokens_after_clean (l : list Piece) :
  Forall piece_ok l ->
  forall b tokens,
    tokenize_loop
      (removeResults 0 (collapseSpaces b (unwords (without_number <$> l))))
      tokens EmptyString
    = tokens ++ concat (tokens_of <$> l).
Proof.
  induction 1 as [|p l Hp Hl IH]; intros b tokens; [by rewrite app_nil_r |].
  assert (forall b tokens,
            tokenize_loop
              (removeResults 0 (collapseSpaces b (after (without_number <$> l))))
              tokens EmptyString
            = tokens ++ concat (tokens_of <$> l)) as Hafter.
  { intros b' tokens'. destruct l as [|q l]; [by rewrite app_nil_r |].
    unfold after. rewrite fmap_cons, <- fmap_cons. rewrite tokens_after_space. apply IH. }
  rewrite !fmap_cons, unwords_cons.
  pose proof (tail_ok_after (without_number <$> l)) as Htail.
  destruct p as [t|d k|d|c|r]; cbn [without_number written tokens_of concat app];
    rewrite ?append_nil_l; try apply Hafter.
  - destruct Hp as [Htok Ht].
    rewrite collapseSpaces_word.
    + rewrite removeResults_keep; [| |by apply tail_ok_collapseSpaces].
      * rewrite tokenize_loop_token; [by rewrite Hafter, <- app_assoc | done |].
        destruct Htail as [->|[x ->]]; [by left | right; by eexists].
      * eapply every_impl; [|exact Ht]. intros a Ha.
        unfold no_result_char, move_char in *.
        apply negb_true_iff in Ha. apply negb_true_iff.
        do 6 (apply orb_false_iff in Ha as [Ha ?]).
        by repeat (apply orb_false_iff; split).
    + eapply every_impl; [|exact Ht]. intros a Ha. unfold move_char in Ha.
      apply negb_true_iff in Ha. apply negb_true_iff.
      by do 6 (apply orb_false_iff in Ha as [Ha ?]).
    + by destruct Htok as [->|[->|[? _]]].
  - rewrite append_cons, append_nil_l, tokens_after_space. apply Hafter.
  - rewrite collapseSpaces_word; [| by destruct Hp as [-> | [-> | [-> | ->]]]
                                   | by destruct Hp as [-> | [-> | [-> | ->]]]].
    rewrite removeResults_result by done. apply Hafter.
Qed.

(** X10. A move text written as pieces with one space between them, the
    pieces being moves, parentheses, move numbers, numeric annotation
    glyphs, comments in braces and results, is cleaned and tokenized into
    its moves and parentheses, in their order. *)
Theorem cleanPgn_keeps_moves (pieces : list Piece) :
  Forall piece_ok pieces ->
  tokenize (cleanPgn (unwords (written <$> pieces))) = concat (tokens_of <$> pieces).
Proof.
  intros Hok. unfold cleanPgn.
  rewrite clean_comments, clean_nags, clean_numbers by done.
  rewrite tokenize_trim by (apply removeResults_every, collapseSpaces_plain).
  unfold tokenize. by rewrite tokens_after_clean.
Qed.

Lemma cleanPgn_keeps_moves_example :
  tokenize (cleanPgn "1. e4 {best by test} e5 $1 ( 1... c5 ) 2. Nf3 1/2-1/2")
  = ["e4"; "e5"; "("; "c5"; ")"; "Nf3"].
Proof.
  apply (cleanPgn_keeps_moves
           [Number "1" 0; Token "e4"; Comment "best by test"; Token "e5"; Nag "1";
            Token "("; Number "1" 2; Token "c5"; Token ")"; Number "2" 0;
            Token "Nf3"; Result "1/2-1/2"]).
  repeat (apply List.Forall_cons; [vm_compute; intuition (discriminate || auto) |]).
  apply List.Forall_nil.
Defined.

(** ** Creating and deleting studies *)

Lemma deleteStudy_all (studies : list Study.t) (id : string) :
  deleteStudy studies id = studies <-> List.Forall (fun s => Study.id s <> id) studies.
Proof.
  unfold deleteStudy. induction studies as [|s studies IH]; simpl.
  - split; [constructor | done].
  - destruct (String.eqb_spec (Study.id s) id) as [Heq|Hne]; simpl.
    + split.
      * intros Hlen. exfalso.
        pose proof (List.filter_length_le
                      (fun s => negb (String.eqb (Study.id s) id)) studies) as Hle.
        rewrite Hlen in Hle. simpl in Hle. lia.
      * intros Hall. by inversion Hall.
    + split.
      * intros Heq. constructor; [done |]. apply IH. congruence.
      * intros Hall. inversion Hall as [|? ? _ Hrest]; subst. f_equal. by apply IH.
Qed.

(** X11. Deleting the study that [createStudy] has just made, appended to
    the list as [handleCreateStudy] does, gives back the list as it was
    exactly when no study of the list has the identity that the generator
    returned; otherwise the studies with this identity are lost with it.
    In every case no study with the identity remains and the other studies
    remain, in their order. *)
Theorem deleteStudy_created (random : nat -> string) (now : Z) (name pgn : string)
    (defaultColor : PlayerColor) (w : nat) (studies : list Study.t) :
  let study := fst (createStudy random now name pgn defaultColor w) in
  Study.id study = random w /\
  (deleteStudy (studies ++ [study]) (Study.id study) = studies
   <-> List.Forall (fun s => Study.id s <> random w) studies) /\
  deleteStudy (studies ++ [study]) (Study.id study)
  = List.filter (fun s => negb (String.eqb (Study.id s) (random w))) studies /\
  forall id,
    List.Forall (fun s => Study.id s <> id) (deleteStudy studies id) /\
    (forall s, In s studies -> Study.id s <> id -> In s (deleteStudy studies id)) /\
    sublist (deleteStudy studies id) studies.
Proof.
  cbn zeta. unfold createStudy, generateId. cbn [fst Study.id].
  assert (deleteStudy (studies ++ [Study.mk (random w) name pgn defaultColor now now])
            (random w) = deleteStudy studies (random w)) as Hdrop.
  { unfold deleteStudy. rewrite List.filter_app. simpl.
    rewrite String.eqb_refl. simpl. apply app_nil_r. }
  split; [done |]. split; [by rewrite Hdrop; apply deleteStudy_all |].
  split; [by rewrite Hdrop |].
  intros id. unfold deleteStudy. split; [|split].
  - apply List.Forall_forall. intros s [_ Hs]%List.filter_In.
    apply negb_true_iff in Hs. by apply String.eqb_neq in Hs.
  - intros s Hin Hne. apply List.filter_In. split; [done |].
    apply negb_true_iff. by apply String.eqb_neq.
  - clear Hdrop. induction studies as [|s studies IH]; simpl; [constructor |].
    destruct (negb (Study.id s =? id)%string); by constructor.
Qed.

(** ** Appearance *)

(** X12. The board image that [ChessBoard.vue] loads for a theme of the
    table of [AppearanceSettings.vue] has the file extension that the table
    gives to the theme, the one of its thumbnail; and for every piece set
    the image of the white knight on the board is the one previewed in the
    settings. *)
Theorem appearance_agrees (base : string) :
  (forall theme, In theme boardThemes ->
     boardUrl base (Some (Theme.id theme))
     = "url('" +:+ base +:+ "/board/" +:+ Theme.id theme +:+ "." +:+ Theme.ext theme
       +:+ "')") /\
  (forall set, set <> EmptyString ->
     pieceUrl base (Some set) "w" "N" = "url('" +:+ previewUrl base set +:+ "')").
Proof.
  split.
  - intros theme Hin. unfold boardThemes in Hin. simpl in Hin.
    repeat (destruct Hin as [<-|Hin]; [reflexivity |]). done.
  - intros set Hne. unfold pieceUrl, previewUrl.
    destruct set as [|c set]; [done |]. cbn [or_default].
    destruct (String.eqb_spec (String c set) "monarchy") as [->|Hmon]; cbn [negb andb].
    + by autorewrite with str.
    + destruct (String.eqb_spec (String c set) "mono") as [->|Hmono]; cbn [negb andb].
      * by autorewrite with str.
      * by autorewrite with str.
Qed.

(** ** The destinations shown on the board *)

Lemma foldl_addDest_lookup (l : list Move.t) :
  forall (d : gmap string (list string)) (sq : string),
    foldl addDest d l !! sq
    = let extra := Move.to <$> List.filter (fun m => String.eqb (Move.from m) sq) l in
      match d !! sq with
      | Some tos => Some (tos ++ extra)
      | None => match extra with [] => None | _ => Some extra end
      end.
Proof.
  induction l as [|m l IH]; intros d sq; cbn zeta.
  - simpl. destruct (d !! sq); [by rewrite app_nil_r | done].
  - cbn [foldl List.filter]. rewrite IH. cbn zeta. unfold addDest.
    destruct (String.eqb_spec (Move.from m) sq) as [<-|Hne].
    + rewrite fmap_cons.
      destruct (d !! Move.from m) as [tos|]; rewrite lookup_insert_eq;
        [by rewrite <- app_assoc | done].
    + destruct (d !! Move.from m) as [tos|]; by rewrite lookup_insert_ne.
Qed.

(** X13. [dests] maps a square to the destinations of the legal moves that
    start from it, in the order of the engine, and has no entry for a
    square from which no move starts; in drill mode it is empty when it is
    not the turn of the player. [movableColor] is ["none"] exactly then,
    and the side to move otherwise. *)
Theorem dests_by_origin (E : Engine) (moves : Game E -> list Move.t) (s : App E) :
  let blocked := match mode s with drill => negb (isPlayerTurn s) | edit => false end in
  let side := if turn_white E (game s) then white else black in
  (forall sq,
     dests moves s !! sq
     = if blocked then None
       else match Move.to <$> List.filter (fun m => String.eqb (Move.from m) sq)
                                (moves (game s)) with
            | [] => None
            | tos => Some tos
            end) /\
  (blocked = true -> dests moves s = ∅) /\
  movableColor s = if blocked then None else Some side.
Proof.
  cbn zeta. split; [|split].
  - intros sq. unfold dests.
    destruct (mode s); [|destruct (negb (isPlayerTurn s)); [done |]];
      rewrite foldl_addDest_lookup; cbn zeta; rewrite lookup_empty;
      by destruct (Move.to <$> _).

  - unfold dests. destruct (mode s); [done |]. by intros ->.
  - unfold movableColor, isPlayerTurn.
    destruct (mode s); [done |].
    by destruct (playerColor s), (turn_white E (game s)).
Qed.

(** ** Navigation in the tree *)

Section Navigation.

Context (E : Engine) (random : nat -> string).

Lemma playPath_app (H : Heap) (l1 l2 : list handle) :
  forall s : App E,
    playPath H (l1 ++ l2) s
    = match playPath H l1 s with
      | finished s1 => playPath H l2 s1
      | thrown s1 => thrown s1
      end.
Proof.
  induction l1 as [|n l1 IH]; intros s; simpl; [done |].
  destruct (H !! n ≫= MoveNode.move) as [m|]; [|apply IH].
  destruct (move_object E (game s) m) as [[m' g']|]; [apply IH | done].
Qed.

(** Along a line the loop ends at the position of the last node, with its
    move as the last move. *)
Lemma playPath_line (H : Heap) (c : handle) (line : list handle) :
  wf_heap H -> positions_ok E H ->
  line_to H c line ->
  forall nc r (s : App E),
    H !! c = Some nc -> H !! 0 = Some r -> fen_of E (game s) = MoveNode.fen r ->
    exists g,
      playPath H line s
      = finished (set_lastMove
                    (match MoveNode.move nc with
                     | Some m => [Move.from m; Move.to m]
                     | None => lastMove s
                     end) (set_game g s)) /\
      fen_of E g = MoveNode.fen nc.
Proof.
  intros Hwf Hpos. induction 1 as [|p line n c Hline IH Hp Hin]; intros nc r s Hc Hr Hs.
  - exists (game s). simplify_eq. destruct (wf_root H Hwf) as (r' & Hr' & _ & Hrm).
    assert (r' = nc) as -> by congruence. rewrite Hrm. split; [by destruct s | done].
  - destruct (IH n r s Hp Hr Hs) as (gp & Hrun & Hgp).
    destruct (wf_down H Hwf _ _ _ Hp Hin) as (Hlt & nc' & Hnc' & Hpar).
    assert (nc' = nc) as -> by congruence.
    destruct (Hpos c nc Hc) as [_ Hmove].
    destruct Hmove as (p' & np' & m & Hpar' & Hnp' & Hm & _ & Happ); [lia |].
    assert (p' = p) as -> by congruence.
    assert (np' = n) as -> by congruence.
    destruct (Happ gp Hgp) as (m' & g' & Hplay & Hg').
    exists g'. split; [|done].
    rewrite playPath_app, Hrun. simpl. rewrite Hc. simpl. by rewrite Hm, Hplay.
Qed.

(** X14. Under the contract of the engine, in edit mode [navigateToNode]
    called on a node of the parsed tree returns with the game at the
    position recorded in the node, the node as current node, the squares
    of its move as last move (none for the root) and the board refreshed
    once; everything else is unchanged. In drill mode it does nothing. *)
Theorem navigateToNode_shows_node (pgn : string) (w : nat) :
  engine_laws E ->
  exists H w',
    parsePgnToTree E random pgn w = Some (H, w') /\
    forall (s : App E) c nc,
      moveTree s = Some H -> H !! c = Some nc ->
      match mode s with
      | drill => navigateToNode c s = Some (finished s)
      | edit =>
          exists g,
            fen_of E g = MoveNode.fen nc /\
            navigateToNode c s
            = Some (finished
                (updateGame
                   (set_lastMove
                      (match MoveNode.move nc with
                       | Some m => [Move.from m; Move.to m]
                       | None => []
                       end)
                      (set_game g (set_currentNode (Some c) s)))))
      end.
Proof.
  intros Hlaws.
  destruct (parsePgnToTree_total E random pgn w) as [[H w'] Hparse].
  exists H, w'. split; [done |]. intros s c nc Hs Hc.
  pose proof (parsePgnToTree_wf _ _ _ _ _ _ Hparse) as Hwf.
  pose proof (parsePgnToTree_grows _ _ _ _ _ _ Hparse) as Hgrows.
  pose proof (grows_positions _ _ _ _ Hlaws Hgrows (positions_root_heap E)) as Hpos.
  simpl in Hpos.
  destruct (mode s) eqn:Hmode; unfold navigateToNode; rewrite Hmode; [|done].
  destruct (line_to_exists H Hwf c) as [line Hline]; [by eexists |].
  destruct (grows_extends _ _ _ _ Hgrows) as [_ Hext]. simpl in Hext.
  destruct (Hext 0 (root_node E) eq_refl) as (r & Hr & Hle).
  assert (MoveNode.fen r = fen_of E (new_Chess E)) as Hfen.
  { by destruct Hle as (_&_&_&->&_). }
  destruct (wf_root H Hwf) as (r' & Hr' & _ & Hrm).
  assert (r' = r) as -> by congruence.
  unfold tree. cbn [moveTree set_currentNode set_lastMove set_game]. rewrite Hs.
  change (default [] (Some H)) with H.
  rewrite (getPathToNode_spec H Hwf c line Hline).
  cbn [playPath]. rewrite Hr. cbn [mbind option_bind]. rewrite Hrm.
  destruct (playPath_line H c line Hwf Hpos Hline nc r
              (set_lastMove [] (set_game (new_Chess E) (set_currentNode (Some c) s)))
              Hc Hr) as (g & Hrun & Hg); [by rewrite Hfen |].
  exists g. split; [done |]. rewrite Hrun. reflexivity.
Qed.

End Navigation.

Lemma navigateToNode_shows_node_book :
  exists H w',
    parsePgnToTree Book.engine Book.tally "1. e4 (1. d4 d5) e5" 0 = Some (H, w') /\
    forall (s : App Book.engine) c nc,
      moveTree s = Some H -> H !! c = Some nc ->
      match mode s with
      | drill => navigateToNode c s = Some (finished s)
      | edit =>
          exists g,
            fen_of Book.engine g = MoveNode.fen nc /\
            navigateToNode c s
            = Some (finished
                (updateGame
                   (set_lastMove
                      (match MoveNode.move nc with
                       | Some m => [Move.from m; Move.to m]
                       | None => []
                       end)
                      (set_game g (set_currentNode (Some c) s)))))
      end.
Proof.
  apply (navigateToNode_shows_node Book.engine Book.tally "1. e4 (1. d4 d5) e5" 0).
  apply book_engine_laws.
Defined.

(** ** Starting a drill *)

Section Lines.

Context (H : Heap) (Hwf : wf_heap H).

Lemma getAllLines_lines (root : handle) (leaves : list handle) :
  getLeafNodes H root = Some leaves ->
  exists lines,
    getAllLines H root = Some lines /\ Forall2 (line_to H) leaves lines.
Proof.
  intros Hleaves.
  pose proof (getLeafNodes_fuel_leaves H (length H) root leaves Hleaves) as Hvalid.
  assert (exists lines,
            mapM (fun leaf => lineOf_fuel (S (length H)) H (Some leaf) []) leaves
            = Some lines /\
            Forall2 (line_to H) leaves lines) as (lines & Hlines & Hall).
  { clear Hleaves.
    induction Hvalid as [|leaf leaves (n & Hn & _) _ (lines & Hl & Hall)]; [by exists [] |].
    destruct (line_to_exists H Hwf leaf) as [line Hline]; [by eexists |].
    exists (line :: lines). split; [|by constructor].
    apply lookup_lt_Some in Hn.
    change (mapM ?f (leaf :: leaves)) with (x ← f leaf; k ← mapM f leaves; mret (x :: k)).
    rewrite Hl. cbv beta.
    rewrite (lineOf_fuel_spec H Hwf leaf line Hline) by lia.
    by rewrite app_nil_r. }
  exists lines. split; [|done]. unfold getAllLines. by rewrite Hleaves.
Qed.

(** The first leaf ends the chain of first children. *)
Lemma getLeafNodes_fuel_head (fuel : nat) :
  forall c leaves,
    getLeafNodes_fuel fuel H c = Some leaves ->
    exists leaf rest, leaves = leaf :: rest /\ first_child_leaf H c leaf.
Proof.
  induction fuel as [|fuel IH]; intros c leaves Hrun; [done |].
  simpl in Hrun. destruct (H !! c) as [n|] eqn:Hc; [|done].
  case_decide as Hlen.
  - simplify_eq. exists c, []. split; [done |].
    apply length_zero_iff_nil in Hlen. by econstructor.
  - apply fmap_Some in Hrun as (parts & Hparts & ->).
    destruct (MoveNode.children n) as [|x xs] eqn:Hch; [done |].
    apply mapM_Some_1 in Hparts.
    inversion Hparts as [|? part ? parts' Hx Hrest]; subst.
    destruct (IH x part Hx) as (leaf & rest & -> & Hfirst).
    exists leaf, (rest ++ concat parts'). split; [done |].
    by eapply fcl_step.
Qed.

Lemma line_to_nodes (c : handle) (line : list handle) :
  line_to H c line -> Forall (fun h => is_Some (H !! h)) line.
Proof.
  intros Hline. apply Forall_forall. intros h Hh.
  destruct (line_to_le H c line Hwf Hline h Hh) as [_ Hle].
  destruct (line_to_valid H Hwf c line Hline) as [nc Hc].
  apply lookup_lt_Some in Hc. apply lookup_lt_is_Some. lia.
Qed.

Lemma line_to_nil (c : handle) : line_to H c [] -> c = 0.
Proof.
  inversion 1 as [|p line n c' _ _ _ Heq]; [done |]. by destruct line.
Qed.

End Lines.

Lemma first_child_leaf_le (H : Heap) (h leaf : handle) :
  wf_heap H -> first_child_leaf H h leaf -> h <= leaf.
Proof.
  intros Hwf. induction 1 as [h n Hn Hch | h n c rest leaf Hn Hch _ IH]; [done |].
  destruct (wf_down H Hwf h n c Hn) as [Hlt _]; [rewrite Hch; by left | lia].
Qed.

Section NextLine.

Context (E : Engine) (H : Heap) (Hwf : wf_heap H).

Lemma startNextLine_outcome (s : App E) :
  moveTree s = Some H ->
  exists leaves lines,
    getLeafNodes H 0 = Some leaves /\
    Forall2 (line_to H) leaves lines /\
    startNextLine s
    = Some (match firstUnplayed H (completedLines s) lines with
            | None | Some [] => congratulated s
            | Some line => targeting line s
            end).
Proof.
  intros Hs. destruct (wf_root H Hwf) as (r & Hr & _).
  destruct (getLeafNodes_fuel_total H Hwf (length H) 0) as [leaves Hleaves];
    [by eexists | lia |].
  destruct (getAllLines_lines H Hwf 0 leaves Hleaves) as (lines & Hlines & Hall).
  exists leaves, lines. split; [done |]. split; [done |].
  unfold startNextLine, findNextUnplayedLine. rewrite Hs, Hlines. simpl.
  by destruct (firstUnplayed H (completedLines s) lines) as [[|h line]|].
Qed.

End NextLine.

(** X15. When the generator never returns the empty identity, [startDrill]
    on a parsed tree empties the completed set and targets the line that
    follows the first children from the root down to a leaf, with the
    board reset and the opponent callback pending; when the tree has no
    move, it congratulates and goes back to edit mode. *)
Theorem startDrill_main_line (E : Engine) (random : nat -> string)
    (pgn : string) (w : nat) :
  (forall a, random a <> EmptyString) ->
  exists H w',
    parsePgnToTree E random pgn w = Some (H, w') /\
    forall s : App E,
      moveTree s = Some H ->
      exists leaf line,
        first_child_leaf H 0 leaf /\ line_to H leaf line /\
        (leaf = 0 <-> length H = 1) /\
        startDrill s
        = Some (let s1 := set_completedLines ∅ (set_mode drill s) in
                if decide (leaf = 0) then congratulated s1 else targeting line s1).
Proof.
  intros Hids.
  destruct (parsePgnToTree_total E random pgn w) as [[H w'] Hparse].
  exists H, w'. split; [done |]. intros s Hs.
  pose proof (parsePgnToTree_wf _ _ _ _ _ _ Hparse) as Hwf.
  destruct (parsePgnToTree_ids E random pgn w H w' Hparse) as (_ & _ & Hrandom).
  destruct (startNextLine_outcome E H Hwf (set_completedLines ∅ (set_mode drill s)) Hs)
    as (leaves & lines & Hleaves & Hall & Hnext).
  destruct (getLeafNodes_fuel_head H (length H) 0 leaves Hleaves)
    as (leaf & rest & -> & Hfirst).
  inversion Hall as [|? line ? lrest Hline Hrest]; subst.
  exists leaf, line. split; [done |]. split; [done |].
  assert (leaf = 0 <-> length H = 1) as Hroot.
  { destruct (wf_root H Hwf) as (r & Hr & _). split.
    - intros ->. inversion Hfirst as [h n Hn Hch | h n c crest leaf' Hn Hch Hc]; subst.
      + destruct (decide (length H = 1)) as [|Hlen]; [done |].
        assert (is_Some (H !! 1)) as [n1 Hn1].
        { apply lookup_lt_is_Some. apply lookup_lt_Some in Hr. lia. }
        destruct (wf_up H Hwf 1 n1 Hn1) as (_ & p & np & Hp & Hnp & Hin); [lia |].
        destruct (wf_down H Hwf p np 1 Hnp Hin) as [Hlt _].
        assert (p = 0) as -> by lia. assert (np = n) as -> by congruence.
        rewrite Hch in Hin. by apply elem_of_nil in Hin.
      + destruct (wf_down H Hwf 0 n c Hn) as [Hlt _]; [rewrite Hch; by left |].
        apply (first_child_leaf_le H c 0 Hwf) in Hc. lia.
    - intros Hlen. destruct (line_to_valid H Hwf leaf line Hline) as [nl Hnl].
      apply lookup_lt_Some in Hnl. lia. }
  split; [done |].
  unfold startDrill. rewrite Hs, Hnext. f_equal. cbn zeta.
  cbn [firstUnplayed completedLines set_completedLines].
  destruct (decide (leaf = 0)) as [->|Hleaf].
  - assert (line = []) as -> by (by apply (line_to_unique H Hwf 0 line Hline), line_root).
    change (unplayed H ∅ []) with false. cbn iota.
    assert (rest = []) as ->.
    { unfold getLeafNodes in Hleaves. destruct (length H) as [|k] eqn:Hk; [done |].
      simpl in Hleaves. destruct (wf_root H Hwf) as (r & Hr & _). rewrite Hr in Hleaves.
      apply proj1 in Hroot. specialize (Hroot eq_refl).
      assert (MoveNode.children r = []) as Hch.
      { destruct (MoveNode.children r) as [|c cs] eqn:Hch; [done |].
        destruct (wf_down H Hwf 0 r c Hr) as (_ & nc & Hnc & _); [rewrite Hch; by left |].
        apply lookup_lt_Some in Hnc.
        destruct (wf_down H Hwf 0 r c Hr) as [Hlt _]; [rewrite Hch; by left |]. lia. }
      rewrite Hch in Hleaves. simpl in Hleaves. by simplify_eq. }
    inversion Hrest. subst. done.
  - destruct leaf as [|k]; [done |].
    destruct (line_to_valid H Hwf (S k) line Hline) as [nl Hnl].
    assert (unplayed H ∅ line = true) as ->.
    { apply unplayed_spec. exists (S k), nl.
      split; [|split; [done | split; [rewrite (Hrandom k nl Hnl); apply Hids | set_solver]]].
      inversion Hline as [|p l n c Hl Hp Hin Heq]; subst. by rewrite last_snoc. }
    destruct line as [|h line]; [|done].
    by apply line_to_nil in Hline.
Qed.

Lemma startDrill_main_line_book :
  exists H w',
    parsePgnToTree Book.engine Book.tally "1. e4 (1. d4 d5) e5" 0 = Some (H, w') /\
    forall s : App Book.engine,
      moveTree s = Some H ->
      exists leaf line,
        first_child_leaf H 0 leaf /\ line_to H leaf line /\
        (leaf = 0 <-> length H = 1) /\
        startDrill s
        = Some (let s1 := set_completedLines ∅ (set_mode drill s) in
                if decide (leaf = 0) then congratulated s1 else targeting line s1).
Proof.
  apply (startDrill_main_line Book.engine Book.tally "1. e4 (1. d4 d5) e5" 0).
  intros a. by destruct a.
Defined.

(** ** What a session keeps true *)

(** The fields of a state built by the setters. *)
Ltac fields :=
  cbn [mode playerColor moveTree currentNode completedLines currentTargetLine
       currentTargetIndex game gameVersion feedback lastMove timeouts alerts
       set_mode set_playerColor set_currentNode set_completedLines
       set_currentTargetLine set_currentTargetIndex set_game set_gameVersion
       set_feedback set_lastMove set_timeouts set_alerts setTimeout updateGame
       showFeedback resetBoard targeting congratulated] in *.

Section Session_inv.

Context (E : Engine) (H : Heap) (Hwf : wf_heap H).

Implicit Types s : App E.

(** A state that differs from a state of the invariant in what the
    invariant does not read, or by more leaves completed, another node of
    the tree as current node, and an index short of the end of the line. *)
Lemma session_inv_update s s' :
  session_inv H s ->
  moveTree s' = moveTree s ->
  currentTargetLine s' = currentTargetLine s ->
  (forall i, i ∈ completedLines s' -> i ∈ completedLines s \/ leaf_id H i) ->
  (forall c, currentNode s' = Some c -> is_Some (H !! c)) ->
  (mode s' = drill -> length (currentTargetLine s') <= currentTargetIndex s' ->
   exists c, currentNode s' = Some c /\ childless H c) ->
  (mode s' = edit -> racing s' ->
   forall c, currentNode s' = Some c -> childless H c) ->
  session_inv H s'.
Proof.
  intros (Htree & Hdone & Hcur & Hline & Hend & Hrace) Htree' Hline' Hdone' Hcur' Hend' Hrace'.
  split; [congruence |]. split.
  { intros i [Hi|Hi]%Hdone'; [by apply Hdone | done]. }
  split; [done |]. split; [by rewrite Hline' | done].
Qed.

Lemma tree_of s : moveTree s = Some H -> tree s = H.
Proof. unfold tree. by intros ->. Qed.

Lemma childless_id (l : handle) : childless H l -> leaf_id H (idOf H l).
Proof.
  intros (n & Hn & Hch). exists l, n. repeat split; [done | done |].
  unfold idOf. by rewrite Hn.
Qed.

Lemma expected_nodes s :
  moveTree s = Some H ->
  forall c, c ∈ getCurrentExpectedMoves s -> is_Some (H !! c).
Proof.
  intros Hs c. unfold getCurrentExpectedMoves, childrenOf. rewrite Hs.
  assert (forall h, c ∈ default [] (MoveNode.children <$> H !! h) -> is_Some (H !! c))
    as Hchild.
  { intros h. destruct (H !! h) as [n|] eqn:Hh; simpl; [|by intros ?%elem_of_nil].
    intros Hin. destruct (wf_down H Hwf h n c Hh Hin) as (_ & nc & Hnc & _). by eexists. }
  destruct (currentNode s); apply Hchild.
Qed.

(** The node at the end of a target line is its leaf. *)
Lemma target_last s (t : handle) :
  session_inv H s ->
  currentTargetLine s !! currentTargetIndex s = Some t ->
  is_Some (H !! t) /\
  (currentTargetIndex s + 1 = length (currentTargetLine s) -> childless H t).
Proof.
  intros (_ & _ & _ & Hline & _) Ht.
  destruct Hline as [Hnil | (leaf & Hline & Hleaf)]; [by rewrite Hnil in Ht |].
  split.
  - pose proof (line_to_nodes H Hwf leaf _ Hline) as Hall.
    by apply (Forall_lookup_1 _ _ _ _ Hall Ht).
  - intros Hend. assert (last (currentTargetLine s) = Some t) as Hlast.
    { rewrite last_lookup. rewrite <- Ht. f_equal. lia. }
    by rewrite <- (line_to_last H leaf _ t Hline Hlast) in Hleaf.
Qed.

(** What a callback of the opponent finds at the end of the target line,
    in drill mode or when it was pending: no current node, or a leaf. *)
Lemma end_of_line s :
  session_inv H s ->
  mode s = drill \/ opponent_pending s ->
  length (currentTargetLine s) <= currentTargetIndex s ->
  forall c, currentNode s = Some c -> childless H c.
Proof.
  intros (_ & _ & _ & _ & Hend & Hrace) Hwhen Hidx c Hc.
  destruct (mode s) eqn:Hmode.
  - destruct Hwhen as [? | Hpending]; [done |]. by apply (Hrace eq_refl (conj Hpending Hidx)).
  - destruct (Hend eq_refl Hidx) as (c' & Hc' & Hleaf). congruence.
Qed.

Lemma session_inv_startNextLine s s' :
  session_inv H s -> startNextLine s = Some s' -> session_inv H s'.
Proof.
  intros Hinv Hrun. pose proof Hinv as (Htree & Hdone & Hcur & Hline & Hend & Hrace).
  destruct (startNextLine_outcome E H Hwf s Htree)
    as (leaves & lines & Hleaves & Hall & Hnext).
  rewrite Hnext in Hrun. injection Hrun as <-.
  assert (session_inv H (congratulated s)) as Hnone.
  { apply (session_inv_update s); try done; fields.
    - intros i Hi. by left.
    - intros _ [Hpending Hidx]. apply (end_of_line s Hinv); [by right | done]. }
  destruct (firstUnplayed H (completedLines s) lines) as [line|] eqn:Hfirst; [|done].
  pose proof (firstUnplayed_spec H (completedLines s) lines) as Hspec.
  rewrite Hfirst in Hspec. destruct Hspec as (k & Hk & _).
  destruct (Forall2_lookup_r _ _ _ _ _ Hall Hk) as (leaf & Hleaf & Hto).
  destruct line as [|h line]; [done |].
  split; [done |]. split; [done |]. split; [done |]. split.
  - right. exists leaf. split; [done |].
    pose proof (getLeafNodes_fuel_leaves H (length H) 0 leaves Hleaves) as Hvalid.
    by apply (Forall_lookup_1 _ _ _ _ Hvalid Hleaf).
  - split; [simpl; lia |]. intros _ [_ Hidx]. simpl in Hidx. lia.
Qed.

(** [playOpponentMove], when the callback returns: it completes the
    current node at the end of the line, which is then no node or a leaf,
    or plays the next move of the line. *)
Lemma session_inv_playOpponentMove s s' :
  session_inv H s ->
  (length (currentTargetLine s) <= currentTargetIndex s ->
   forall c, currentNode s = Some c -> childless H c) ->
  playOpponentMove s = Some s' -> session_inv H s'.
Proof.
  intros Hinv Hquiet Hrun.
  pose proof Hinv as (Htree & Hdone & Hcur & Hline & Hend & Hrace).
  unfold playOpponentMove in Hrun. case_decide as Hidx.
  - injection Hrun as <-.
    destruct (currentNode s) as [c|] eqn:Hc.
    + apply (session_inv_update s); try done; fields.
      * intros i Hi.
        apply elem_of_union in Hi as [->%elem_of_singleton | Hi]; [right | by left].
        rewrite (tree_of s Htree). by apply childless_id, (Hquiet Hidx).
      * rewrite Hc. by apply Hcur.
      * rewrite Hc. by apply Hend.
      * intros _ _ c' Hc'. rewrite Hc in Hc'. by apply (Hquiet Hidx).
    + apply (session_inv_update s); try done; fields.
      * intros i Hi. by left.
      * by rewrite Hc.
      * rewrite Hc. by apply Hend.
      * intros _ _ c' Hc'. by rewrite Hc in Hc'.
  - destruct (currentTargetLine s !! currentTargetIndex s) as [next|] eqn:Hnext;
      [|by injection Hrun as <-].
    destruct (target_last s next Hinv Hnext) as [Hvalid Hlast].
    destruct (tree s !! next ≫= MoveNode.move) as [m|]; [|by injection Hrun as <-].
    destruct (move_object E (game s) m) as [[m' g']|]; [|done].
    cbn zeta in Hrun. fields.
    case_decide as Hfull; injection Hrun as <-.
    + apply (session_inv_update s); try done; fields.
      * intros i Hi.
        apply elem_of_union in Hi as [->%elem_of_singleton | Hi]; [right | by left].
        rewrite tree_of by exact Htree. by apply childless_id, Hlast.
      * intros c [= <-]. done.
      * intros _ _. exists next. split; [done |]. by apply Hlast.
      * intros _ _ c [= <-]. by apply Hlast.
    + apply (session_inv_update s); try done; fields.
      * intros i Hi. by left.
      * intros c [= <-]. done.
      * intros _ Hle. lia.
      * intros _ [_ Hle]. fields. lia.
Qed.

(** [playOpponentMove] does not return exactly when the engine refuses the
    next move of the target line. *)
Lemma playOpponentMove_throws s :
  playOpponentMove s = None <->
  exists node m,
    currentTargetLine s !! currentTargetIndex s = Some node /\
    tree s !! node ≫= MoveNode.move = Some m /\
    move_object E (game s) m = None.
Proof.
  unfold playOpponentMove. split.
  - case_decide as Hidx; [done |].
    destruct (currentTargetLine s !! currentTargetIndex s) as [node|]; [|done].
    destruct (tree s !! node ≫= MoveNode.move) as [m|] eqn:Hm; [|done].
    destruct (move_object E (game s) m) as [[m' g']|] eqn:Hmove.
    + cbn zeta. by case_decide.
    + intros _. by exists node, m.
  - intros (node & m & Hnode & Hm & Hmove).
    apply lookup_lt_Some in Hnode as Hlt. case_decide as Hidx; [lia |].
    by rewrite Hnode, Hm, Hmove.
Qed.

(** [handleMove] does not return exactly when the engine refuses the move:
    it throws. *)
Lemma handleMove_throws s (orig dest : string) :
  session_inv H s ->
  handleMove orig dest s = None <-> move_squares E (game s) orig dest = None.
Proof.
  intros (Htree & _). unfold handleMove.
  destruct (mode s); destruct (move_squares E (game s) orig dest) as [[move g']|];
    try done; cbn zeta.
  destruct (onTarget move (set_game g' s)); [by case_decide |].
  destruct (find _ _) as [matching|] eqn:Hfind; [|done].
  apply find_some in Hfind as [Hin%list_elem_of_In _].
  pose proof (expected_nodes (set_game g' s) Htree matching Hin) as Hvalid.
  rewrite !tree_of by exact Htree. fields.
  destruct (markVariationComplete_spec H (completedLines s) (length H) Hwf
              matching Hvalid) as (leaf & nleaf & _ & _ & _ & ->); [lia |].
  done.
Qed.

Lemma handleMove_inv s s' (orig dest : string) :
  session_inv H s -> (mode s = edit -> ~ racing s) ->
  handleMove orig dest s = Some s' -> session_inv H s'.
Proof.
  intros Hinv Hcalm Hrun.
  pose proof Hinv as (Htree & Hdone & Hcur & Hline & Hend & Hrace).
  unfold handleMove in Hrun. destruct (mode s) eqn:Hmode.
  - destruct (move_squares E (game s) orig dest) as [[move g']|]; [|done].
    injection Hrun as <-. cbn zeta.
    apply (session_inv_update s); try done; fields.
    + intros i Hi. by left.
    + intros c Hc. apply find_some in Hc as [Hc%list_elem_of_In _].
      by apply (expected_nodes (set_game g' s) Htree).
    + congruence.
    + intros _ Hracing. by destruct (Hcalm eq_refl).
  - destruct (move_squares E (game s) orig dest) as [[move g']|]; [|done].
    cbn zeta in Hrun. destruct (onTarget move (set_game g' s)) as [target|] eqn:Htarget.
    + unfold onTarget in Htarget. fields.
      destruct (currentTargetLine s !! currentTargetIndex s) as [t|] eqn:Ht; [|done].
      destruct (lanMatches (tree (set_game g' s)) move t); [|done].
      injection Htarget as ->.
      destruct (target_last s target Hinv Ht) as [Hvalid Hlast].
      apply lookup_lt_Some in Ht as Hlt.
      case_decide as Hfull; injection Hrun as <-;
        apply (session_inv_update s); try done; fields; try congruence.
      * intros i Hi.
        apply elem_of_union in Hi as [->%elem_of_singleton | Hi]; [right | by left].
        rewrite tree_of by exact Htree. by apply childless_id, Hlast.
      * intros _ _. exists target. split; [done |]. by apply Hlast.
      * intros i Hi. by left.
      * intros _ Hle. lia.
    + destruct (find (lanMatches (tree (set_game g' s)) move)
                  (getCurrentExpectedMoves (set_game g' s))) as [matching|] eqn:Hfind.
      * apply find_some in Hfind as [Hin%list_elem_of_In _].
        pose proof (expected_nodes (set_game g' s) Htree matching Hin) as Hvalid.
        rewrite !tree_of in Hrun by exact Htree. fields.
        destruct (markVariationComplete_spec H (completedLines s) (length H) Hwf
                    matching Hvalid) as (leaf & nleaf & _ & Hleaf & Hch & Hmark); [lia |].
        rewrite Hmark in Hrun. injection Hrun as <-.
        apply (session_inv_update s); try done; fields; try congruence.
        -- intros i Hi.
           apply elem_of_union in Hi as [->%elem_of_singleton | Hi]; [right | by left].
           by exists leaf, nleaf.
        -- intros _ Hle. destruct (Hend eq_refl Hle) as (c & Hc & (n & Hn & Hnil)).
           exfalso. unfold getCurrentExpectedMoves, childrenOf in Hin. fields.
           rewrite Htree, Hc, Hn in Hin. simpl in Hin. rewrite Hnil in Hin.
           by apply elem_of_nil in Hin.
      * injection Hrun as <-.
        apply (session_inv_update s); try done; fields; try congruence.
        -- intros i Hi. by left.
        -- intros _. by apply Hend.
Qed.

(** Fewer timeouts pending. *)
Lemma session_inv_timeouts s (pending : list (Callback * nat)) :
  session_inv H s -> (forall t, t ∈ pending -> t ∈ timeouts s) ->
  session_inv H (set_timeouts pending s).
Proof.
  intros Hinv Hsub. pose proof Hinv as (Htree & Hdone & Hcur & Hline & Hend & Hrace).
  apply (session_inv_update s); try done; fields.
  - intros i Hi. by left.
  - intros Hmode [(t & Ht & Hopp) Hidx]. fields.
    apply (Hrace Hmode). split; [|done]. exists t. split; [by apply Hsub | done].
Qed.

Lemma runCallback_inv s s' before cb delay after :
  session_inv H s ->
  timeouts s = before ++ (cb, delay) :: after ->
  runCallback cb (set_timeouts (before ++ after) s) = Some s' ->
  session_inv H s'.
Proof.
  intros Hinv Htimers Hrun. pose proof Hinv as (Htree & _).
  assert (session_inv H (set_timeouts (before ++ after) s)) as Hinv1.
  { apply session_inv_timeouts; [done |]. intros t Ht. rewrite Htimers.
    apply elem_of_app in Ht as [Ht|Ht]; apply elem_of_app; [by left | right; by right]. }
  assert (opponent_callback cb = true ->
          length (currentTargetLine s) <= currentTargetIndex s ->
          forall c, currentNode s = Some c -> childless H c) as Hquiet.
  { intros Hopp. apply (end_of_line s Hinv). right. exists (cb, delay).
    split; [|done]. rewrite Htimers. apply elem_of_app. right. by left. }
  destruct cb; cbn [runCallback] in Hrun.
  - by apply (session_inv_startNextLine _ s' Hinv1).
  - apply (session_inv_playOpponentMove _ s' Hinv1); [|done]. by apply Hquiet.
  - injection Hrun as <-. apply (session_inv_update (set_timeouts (before ++ after) s));
      try done; try apply Hinv1.
    intros i Hi. by left.
  - destruct (isPlayerTurn _); [by injection Hrun as <- |].
    apply (session_inv_playOpponentMove _ s' Hinv1); [|done]. by apply Hquiet.
Qed.

(** A callback does not return only when it is one of the opponent and the
    engine refuses the next move of the target line. *)
Lemma runCallback_throws s (cb : Callback) :
  session_inv H s -> runCallback cb s = None ->
  opponent_callback cb = true /\
  exists node m,
    currentTargetLine s !! currentTargetIndex s = Some node /\
    H !! node ≫= MoveNode.move = Some m /\
    move_object E (game s) m = None.
Proof.
  intros (Htree & _) Hrun.
  assert (playOpponentMove s = None ->
          exists node m,
            currentTargetLine s !! currentTargetIndex s = Some node /\
            H !! node ≫= MoveNode.move = Some m /\
            move_object E (game s) m = None) as Hthrows.
  { intros Hnone%playOpponentMove_throws. by rewrite (tree_of s Htree) in Hnone. }
  destruct cb; cbn [runCallback] in Hrun.
  - destruct (startNextLine_outcome E H Hwf s Htree) as (? & ? & _ & _ & Hnext).
    congruence.
  - split; [done | by apply Hthrows].
  - done.
  - destruct (isPlayerTurn s); [done |]. split; [done | by apply Hthrows].
Qed.

Lemma session_inv_cleared s :
  session_inv H s -> session_inv H (set_completedLines ∅ s).
Proof.
  intros Hinv. apply (session_inv_update s); try done; apply Hinv.
Qed.

Lemma startDrill_returns s :
  session_inv H s -> exists s', startDrill s = Some s' /\ session_inv H s'.
Proof.
  intros Hinv. pose proof Hinv as (Htree & Hdone & Hcur & Hline & Hend & Hrace).
  unfold startDrill. rewrite Htree.
  destruct (startNextLine_outcome E H Hwf (set_completedLines ∅ (set_mode drill s)) Htree)
    as (leaves & lines & Hleaves & Hall & Hnext).
  eexists. split; [exact Hnext |].
  pose proof (firstUnplayed_spec H ∅ lines) as Hspec. fields.
  assert (session_inv H (congratulated (set_completedLines ∅ (set_mode drill s)))) as Hnone.
  { apply (session_inv_update s); try done; fields.
    intros _ [Hpending Hidx]. fields. apply (end_of_line s Hinv); [by right | done]. }
  destruct (firstUnplayed H ∅ lines) as [[|h line]|] eqn:Hfirst; [done | | done].
  destruct Hspec as (k & Hk & _).
  destruct (Forall2_lookup_r _ _ _ _ _ Hall Hk) as (leaf & Hleaf & Hto).
  split; [done |]. split; [intros i Hi; by apply elem_of_empty in Hi |].
  split; [done |]. split.
  - right. exists leaf. split; [done |].
    pose proof (getLeafNodes_fuel_leaves H (length H) 0 leaves Hleaves) as Hvalid.
    by apply (Forall_lookup_1 _ _ _ _ Hvalid Hleaf).
  - fields. split; [simpl; lia | done].
Qed.

Lemma session_step_inv s s' :
  session_inv H s -> session_step H s s' -> session_inv H s'.
Proof.
  intros Hinv Hstep. pose proof Hinv as (Htree & Hdone & Hcur & Hline & Hend & Hrace).
  destruct Hstep as [orig dest s s' Hcalm Hrun | before cb delay after s s' Htimers Hrun
                    | before cb delay after s Htimers _ _
                    | node s s' Hnode Hcalm Hrun | c s | s | s s' Hrun | s s' Hrun].
  - by apply (handleMove_inv s s' orig dest).
  - by apply (runCallback_inv s s' before cb delay after).
  - apply session_inv_timeouts; [done |]. intros t Ht. rewrite Htimers.
    apply elem_of_app in Ht as [Ht|Ht]; apply elem_of_app; [by left | right; by right].
  - unfold navigateToNode in Hrun. destruct (mode s) eqn:Hmode.
    + fields. destruct (getPathToNode _ node) as [path|]; [|by destruct Hrun].
      assert (forall l (a : App E),
                currentNode a = Some node -> moveTree a = moveTree s ->
                completedLines a = completedLines s ->
                currentTargetLine a = currentTargetLine s -> mode a = edit ->
                currentTargetIndex a = currentTargetIndex s -> timeouts a = timeouts s ->
                forall b, playPath (tree (set_lastMove []
                            (set_game (new_Chess E) (set_currentNode (Some node) s))))
                            l a = finished b \/
                          playPath (tree (set_lastMove []
                            (set_game (new_Chess E) (set_currentNode (Some node) s))))
                            l a = thrown b ->
                          currentNode b = Some node /\ moveTree b = moveTree s /\
                          completedLines b = completedLines s /\
                          currentTargetLine b = currentTargetLine s /\ mode b = edit /\
                          currentTargetIndex b = currentTargetIndex s /\
                          timeouts b = timeouts s)
        as Hloop.
      { induction l as [|n l IH]; intros a Ha1 Ha2 Ha3 Ha4 Ha5 Ha6 Ha7 b Hb;
          cbn [playPath] in Hb.
        - by destruct Hb as [[= <-] | [=]].
        - destruct (_ !! n ≫= MoveNode.move) as [m|]; [|by apply (IH a)].
          destruct (move_object E (game a) m) as [[m' g']|].
          + by apply (IH (set_lastMove [Move.from m; Move.to m] (set_game g' a))).
          + by destruct Hb as [[=] | [= <-]]. }
      assert (forall s3, currentNode s3 = Some node -> moveTree s3 = moveTree s ->
                completedLines s3 = completedLines s ->
                currentTargetLine s3 = currentTargetLine s -> mode s3 = edit ->
                currentTargetIndex s3 = currentTargetIndex s ->
                timeouts s3 = timeouts s -> session_inv H s3) as Hkeeps.
      { intros s3 H1 H2 H3 H4 H5 H6 H7.
        apply (session_inv_update s); try done.
        - intros i Hi. left. by rewrite <- H3.
        - intros c Hc. by simplify_eq.
        - congruence.
        - intros _ [(t & Ht & Hopp) Hidx]. destruct (Hcalm eq_refl).
          split; [exists t; by rewrite <- H7 | by rewrite <- H4, <- H6]. }
      destruct (playPath _ path _) as [s3|s3] eqn:Hplay.
      * destruct (Hloop path
                    (set_lastMove [] (set_game (new_Chess E) (set_currentNode (Some node) s)))
                    eq_refl eq_refl eq_refl eq_refl Hmode eq_refl eq_refl
                    s3 (or_introl Hplay))
          as (H1 & H2 & H3 & H4 & H5 & H6 & H7).
        assert (s' = updateGame s3) as -> by (destruct Hrun as [[= <-] | [=]]; done).
        by apply Hkeeps.
      * destruct (Hloop path
                    (set_lastMove [] (set_game (new_Chess E) (set_currentNode (Some node) s)))
                    eq_refl eq_refl eq_refl eq_refl Hmode eq_refl eq_refl
                    s3 (or_intror Hplay))
          as (H1 & H2 & H3 & H4 & H5 & H6 & H7).
        assert (s' = s3) as -> by (destruct Hrun as [[=] | [= <-]]; done).
        by apply Hkeeps.
    + assert (s' = s) as -> by (destruct Hrun as [[= <-] | [=]]; done). done.
  - apply (session_inv_update s); try done. intros i Hi. by left.
  - apply (session_inv_update s); try done; fields.
    intros i Hi. by left.
  - destruct (startDrill_returns s Hinv) as (s'' & Hrun' & Hinv'). by simplify_eq.
  - unfold resetDrill in Hrun.
    apply (session_inv_startNextLine (set_completedLines ∅ s)); [|exact Hrun].
    by apply session_inv_cleared.
Qed.

End Session_inv.

Lemma session_run_inv (E : Engine) (H : Heap) (s0 s : App E) :
  wf_heap H -> rtc (session_step H) s0 s -> session_inv H s0 -> session_inv H s.
Proof.
  intros Hwf. induction 1 as [|x y z Hxy _ IH]; [done |].
  intros Hinv. by apply IH, (session_step_inv E H Hwf x).
Qed.

(** A session on a parsed tree that starts in edit mode with nothing
    completed, no current node and no target line. *)
Lemma session_run (E : Engine) (random : nat -> string)
    (pgn : string) (w : nat) :
  exists H w' leaves,
    parsePgnToTree E random pgn w = Some (H, w') /\
    getLeafNodes H 0 = Some leaves /\
    forall s0 s : App E,
      moveTree s0 = Some H -> mode s0 = edit -> completedLines s0 = ∅ ->
      currentNode s0 = None -> currentTargetLine s0 = [] ->
      rtc (session_step H) s0 s ->
      moveTree s = Some H /\
      (forall i, i ∈ completedLines s -> leaf_id H i) /\
      completedCount s <= length leaves /\
      (forall orig dest,
          handleMove orig dest s = None <-> move_squares E (game s) orig dest = None) /\
      (forall cb, runCallback cb s = None ->
          opponent_callback cb = true /\
          exists node m,
            currentTargetLine s !! currentTargetIndex s = Some node /\
            H !! node ≫= MoveNode.move = Some m /\
            move_object E (game s) m = None) /\
      is_Some (startDrill s) /\ is_Some (resetDrill s).
Proof.
  destruct (parsePgnToTree_total E random pgn w) as [[H w'] Hparse].
  pose proof (parsePgnToTree_wf E random pgn w H w' Hparse) as Hwf.
  pose proof (parsePgnToTree_children_nodup E random pgn w H w' Hparse) as Hnd.
  destruct (wf_root H Hwf) as (r & Hr & _).
  destruct (getLeafNodes_fuel_total H Hwf (length H) 0) as [leaves Hleaves];
    [by eexists | lia |].
  exists H, w', leaves. split; [done |]. split; [done |].
  intros s0 s Htree0 Hmode0 Hdone0 Hcur0 Hline0 Hrun.
  assert (session_inv H s0) as Hinv0.
  { split; [done |]. split; [rewrite Hdone0; by intros i ?%elem_of_empty |].
    split; [by rewrite Hcur0 |]. split; [by left |].
    split; [by rewrite Hmode0 | by rewrite Hcur0]. }
  pose proof (session_run_inv E H s0 s Hwf Hrun Hinv0) as Hinv.
  pose proof Hinv as (Htree & Hdone & _).
  split; [done |]. split; [done |]. split.
  { destruct (getLeafNodes_fuel_spec H Hwf Hnd (length H) 0 leaves Hleaves) as [_ Hspec].
    unfold completedCount.
    change (size (completedLines s)) with (length (elements (completedLines s))).
    rewrite <- (length_fmap (idOf H) leaves).
    apply submseteq_length, NoDup_submseteq; [apply NoDup_elements |].
    intros i Hi%elem_of_elements. destruct (Hdone i Hi) as (l & n & Hn & Hch & <-).
    apply list_elem_of_fmap. exists l. split; [unfold idOf; by rewrite Hn |].
    apply Hspec. split; [apply (descends_root H Hwf); by eexists | by exists n]. }
  split; [intros orig dest; by apply (handleMove_throws E H Hwf) |].
  split; [intros cb; by apply (runCallback_throws E H Hwf) |].
  split.
  { destruct (startDrill_returns E H Hwf s Hinv) as (? & -> & _). done. }
  unfold resetDrill.
  destruct (startNextLine_outcome E H Hwf (set_completedLines ∅ s) Htree)
    as (? & ? & _ & _ & ->).
  done.
Qed.

(** X16. After a study is selected on the freshly mounted page, whatever
    the moves on the board, the timeouts that fire (in any mode and in any
    order, returning or thrown out of by the engine), and the clicks on
    nodes, colours, Edit, Drill and Restart, provided that in edit mode the
    user makes no move and clicks no node while a callback of the opponent
    is pending with the target line played to its end: the completed set
    only holds identities of leaves of the tree, and the completed count
    never exceeds [totalLines], which is at least 1. [handleMove] fails to
    return exactly when the engine refuses the move, a callback only when
    it is one of the opponent and the engine refuses the next move of the
    target line; [startDrill] and [resetDrill] return. *)
Theorem session_completed_leaves (E : Engine) (random : nat -> string)
    (stored : list Study.t) (study : Study.t) :
  exists p H,
    Page.selectStudy E random study (Page.mounted E stored) = Some p /\
    moveTree (Page.app p) = Some H /\
    Page.currentStudy p = Some study /\
    1 <= Page.totalLines p /\
    forall s : App E,
      rtc (session_step H) (Page.app p) s ->
      moveTree s = Some H /\
      (forall i, i ∈ completedLines s -> leaf_id H i) /\
      completedCount s <= Page.totalLines p /\
      (forall orig dest,
          handleMove orig dest s = None <-> move_squares E (game s) orig dest = None) /\
      (forall cb, runCallback cb s = None ->
          opponent_callback cb = true /\
          exists node m,
            currentTargetLine s !! currentTargetIndex s = Some node /\
            H !! node ≫= MoveNode.move = Some m /\
            move_object E (game s) m = None) /\
      is_Some (startDrill s) /\ is_Some (resetDrill s).
Proof.
  destruct (session_run E random (Study.pgn study) 0)
    as (H & w' & leaves & Hparse & Hleaves & Hrun).
  unfold Page.selectStudy, Page.loadStudyTree, Page.mounted.
  cbn [Page.calls Page.app Page.studies Page.currentStudy Page.totalLines].
  rewrite Hparse, Hleaves.
  eexists _, H. split; [done |].
  cbn [Page.calls Page.app Page.studies Page.currentStudy Page.totalLines].
  split; [done |]. split; [done |]. split.
  { destruct leaves as [|l leaves]; [|simpl; lia].
    pose proof (parsePgnToTree_wf E random _ _ _ _ Hparse) as Hwf.
    destruct (getLeafNodes_fuel_head H (length H) 0 [] Hleaves) as (? & ? & ? & _).
    done. }
  intros s Hsteps. eapply Hrun; [| | | | | exact Hsteps]; done.
Qed.

(** X25. The proviso of X16 cannot be dropped. No timeout is cleared when
    the mode changes and [playOpponentMove] does not look at the mode: in
    edit mode, when the target line has been played to its end and a
    callback [playOpponentMove] is still pending, a click on any node of the
    tree, a node with children as well, makes it the current node, and the
    callback then adds its identity to the completed set and schedules
    [startNextLine]. *)
Theorem stale_callback_completes_current_node (E : Engine) (H : Heap) (s s1 : App E)
    (node : handle) (n : MoveNode.t) (before after : list (Callback * nat)) (delay : nat) :
  moveTree s = Some H -> mode s = edit ->
  H !! node = Some n ->
  length (currentTargetLine s) <= currentTargetIndex s ->
  timeouts s = before ++ (cb_playOpponentMove, delay) :: after ->
  navigateToNode node s = Some (finished s1) \/
  navigateToNode node s = Some (thrown s1) ->
  exists s2,
    timeouts s1 = before ++ (cb_playOpponentMove, delay) :: after /\
    runCallback cb_playOpponentMove (set_timeouts (before ++ after) s1) = Some s2 /\
    completedLines s2 = {[MoveNode.id n]} ∪ completedLines s /\
    timeouts s2 = before ++ after ++ [(cb_startNextLine, 500)] /\
    mode s2 = edit.
Proof.
  intros Htree Hmode Hnode Hidx Htimers Hrun.
  unfold navigateToNode in Hrun. rewrite Hmode in Hrun. fields.
  destruct (getPathToNode _ node) as [path|]; [|by destruct Hrun].
  assert (forall l (a : App E),
            currentNode a = Some node -> moveTree a = moveTree s ->
            completedLines a = completedLines s ->
            currentTargetLine a = currentTargetLine s -> mode a = edit ->
            currentTargetIndex a = currentTargetIndex s -> timeouts a = timeouts s ->
            forall b, playPath (tree (set_lastMove []
                        (set_game (new_Chess E) (set_currentNode (Some node) s))))
                        l a = finished b \/
                      playPath (tree (set_lastMove []
                        (set_game (new_Chess E) (set_currentNode (Some node) s))))
                        l a = thrown b ->
                      currentNode b = Some node /\ moveTree b = moveTree s /\
                      completedLines b = completedLines s /\
                      currentTargetLine b = currentTargetLine s /\ mode b = edit /\
                      currentTargetIndex b = currentTargetIndex s /\
                      timeouts b = timeouts s)
    as Hloop.
  { induction l as [|c l IH]; intros a Ha1 Ha2 Ha3 Ha4 Ha5 Ha6 Ha7 b Hb;
      cbn [playPath] in Hb.
    - by destruct Hb as [[= <-] | [=]].
    - destruct (_ !! c ≫= MoveNode.move) as [m|]; [|by apply (IH a)].
      destruct (move_object E (game a) m) as [[m' g']|].
      + by apply (IH (set_lastMove [Move.from m; Move.to m] (set_game g' a))).
      + by destruct Hb as [[=] | [= <-]]. }
  assert (currentNode s1 = Some node /\ moveTree s1 = moveTree s /\
          completedLines s1 = completedLines s /\
          currentTargetLine s1 = currentTargetLine s /\ mode s1 = edit /\
          currentTargetIndex s1 = currentTargetIndex s /\
          timeouts s1 = timeouts s) as (H1 & H2 & H3 & H4 & H5 & H6 & H7).
  { destruct (playPath _ path _) as [s3|s3] eqn:Hplay.
    - destruct (Hloop path
                  (set_lastMove [] (set_game (new_Chess E) (set_currentNode (Some node) s)))
                  eq_refl eq_refl eq_refl eq_refl Hmode eq_refl eq_refl
                  s3 (or_introl Hplay))
        as (H1 & H2 & H3 & H4 & H5 & H6 & H7).
      assert (s1 = updateGame s3) as -> by (destruct Hrun as [[= <-] | [=]]; done).
      done.
    - destruct (Hloop path
                  (set_lastMove [] (set_game (new_Chess E) (set_currentNode (Some node) s)))
                  eq_refl eq_refl eq_refl eq_refl Hmode eq_refl eq_refl
                  s3 (or_intror Hplay))
        as (H1 & H2 & H3 & H4 & H5 & H6 & H7).
      assert (s1 = s3) as -> by (destruct Hrun as [[=] | [= <-]]; done).
      done. }
  eexists. split; [congruence |]. cbn [runCallback]. unfold playOpponentMove. fields.
  rewrite decide_True by (by rewrite H4, H6). rewrite H1.
  split; [done |]. fields.
  split; [|split; [by rewrite <- app_assoc | done]].
  unfold tree, idOf. fields. rewrite H2, Htree. simpl. by rewrite Hnode, H3.
Qed.

(** The hasty session reaches such a state: the line e4 e5 is played to
    its end and the callback that [handleMove] scheduled after e2-e4 is
    pending. After a click on the node of e4, which has the child e5, the
    callback adds the identity of e4, which is the identity of no leaf. *)
Lemma stale_callback_completes_current_node_book :
  hasty_session = Some hasty_state /\
  ~ leaf_id Book.tree_variation (Book.tally 0) /\
  exists s2,
    timeouts hasty_clicked
    = [(cb_clearFeedback, 800)] ++ (cb_playOpponentMove, 500) :: [(cb_startNextLine, 800)] /\
    runCallback cb_playOpponentMove
      (set_timeouts ([(cb_clearFeedback, 800)] ++ [(cb_startNextLine, 800)]) hasty_clicked)
    = Some s2 /\
    completedLines s2
    = {[MoveNode.id (node_of Book.engine Book.tally 0 Book.m_e4
                       [Book.e4; Book.start] [4] 0 true)]}
      ∪ completedLines hasty_state /\
    timeouts s2
    = [(cb_clearFeedback, 800)] ++ [(cb_startNextLine, 800)] ++ [(cb_startNextLine, 500)] /\
    mode s2 = edit.
Proof.
  split; [by vm_compute |]. split.
  { intros (l & n & Hn & Hch & Hid).
    do 5 (destruct l as [|l];
          [vm_compute in Hn; injection Hn as <-; (discriminate Hch || discriminate Hid) |]).
    discriminate Hn. }
  apply (stale_callback_completes_current_node Book.engine Book.tree_variation
           hasty_state hasty_clicked 1
           (node_of Book.engine Book.tally 0 Book.m_e4 [Book.e4; Book.start] [4] 0 true)
           [(cb_clearFeedback, 800)] [(cb_startNextLine, 800)] 500).
  - reflexivity.
  - reflexivity.
  - reflexivity.
  - vm_compute. lia.
  - reflexivity.
  - left. by vm_compute.
Defined.

(** ** The forms of the study manager *)

Lemma trimEnd_idem (s : string) : trimEnd (trimEnd s) = trimEnd s.
Proof.
  induction s as [|c s IH]; [done |].
  cbn [trimEnd]. destruct (is_space c && negb (truthy (trimEnd s))) eqn:Hdrop; [done |].
  cbn [trimEnd]. by rewrite IH, Hdrop.
Qed.

Lemma trimStart_head (s : string) :
  match trimStart s with
  | EmptyString => True
  | String c _ => is_space c = false
  end.
Proof.
  induction s as [|c s IH]; [done |].
  cbn [trimStart]. by destruct (is_space c) eqn:Hc.
Qed.

Lemma trim_idem (s : string) : trim (trim s) = trim s.
Proof.
  unfold trim. pose proof (trimStart_head s) as Hhead.
  destruct (trimStart s) as [|c t]; [done |].
  assert (trimEnd (String c t) = String c (trimEnd t)) as Hkeep.
  { cbn [trimEnd]. by rewrite Hhead. }
  rewrite Hkeep. cbn [trimStart]. rewrite Hhead, <- Hkeep. apply trimEnd_idem.
Qed.

(** X17. A study made from the create form: its name and text are trimmed
    and not empty. Opening the edit form on it and saving without a change
    emits the study itself, and [updateStudy] with it changes [updatedAt]
    only. *)
Theorem saveEdit_unchanged (random : nat -> string) (now : Z) (w : nat)
    (f f' g : StudyManager.t) (name pgn : string) (color : PlayerColor) :
  StudyManager.handleCreate f = (f', Some (StudyManager.emit_create name pgn color)) ->
  let study := fst (createStudy random now name pgn color w) in
  name <> EmptyString /\ pgn <> EmptyString /\
  trim name = name /\ trim pgn = pgn /\
  StudyManager.saveEdit (StudyManager.startEdit study g)
  = (StudyManager.cancelEdit (StudyManager.startEdit study g),
     Some (StudyManager.emit_update study)) /\
  forall now',
    updateStudy now' study (Study.whole study)
    = Study.mk (random w) name pgn color now now'.
Proof.
  unfold StudyManager.handleCreate.
  destruct (truthy (trim (StudyManager.newStudyName f))) eqn:Hname; [|done].
  destruct (truthy (trim (StudyManager.newStudyPgn f))) eqn:Hpgn; [|done].
  intros [= _ <- <- <-]. cbn zeta.
  split; [by apply truthy_true |]. split; [by apply truthy_true |].
  split; [apply trim_idem |]. split; [apply trim_idem |].
  split; [|done].
  unfold StudyManager.saveEdit, StudyManager.startEdit, createStudy, generateId.
  cbn [fst StudyManager.editingStudy StudyManager.editName StudyManager.editPgn
       StudyManager.editColor Study.name Study.pgn Study.defaultColor].
  rewrite trim_idem, Hname. unfold saveEdit_payload.
  cbn [Study.id Study.createdAt Study.updatedAt]. by rewrite !trim_idem.
Qed.

Lemma saveEdit_unchanged_example :
  let f := StudyManager.mk true " Italian " "1. e4 e5 " black None EmptyString
             EmptyString white in
  let study := fst (createStudy Book.tally 7 "Italian" "1. e4 e5" black 0) in
  StudyManager.saveEdit (StudyManager.startEdit study f)
  = (StudyManager.cancelEdit (StudyManager.startEdit study f),
     Some (StudyManager.emit_update study)).
Proof.
  intros f study.
  apply (saveEdit_unchanged Book.tally 7 0 f
           (StudyManager.mk false EmptyString EmptyString white None EmptyString
              EmptyString white) f
           "Italian" "1. e4 e5" black).
  reflexivity.
Defined.

(** ** The move list *)



Section Render.

Context (H : Heap) (Hwf : wf_heap H) (Hnd : children_nodup H).
Context (white_move : handle -> bool).
Context (currentNodeId : string) (completedLines : gset string).





End Render.


(** ** Playing a line to its end *)

Section Squares.

Context (E : Engine) (random : nat -> string).

Lemma step_squares st st' :
  engine_laws E -> squares_law E ->
  attach_step E random st st' ->
  positions_ok E st.1 -> squares_ok E st.1 -> squares_ok E st'.1.
Proof.
  intros [Hload _] Hlaw. destruct 1 as [H w cur ncur g token m g' main Hc Hs Hm]. simpl.
  intros Hpos Hsq c nc Hcn Hc0.
  pose proof (extends_attach H cur
    (MoveNode.mk (random w) (Some m) (Move.san m) (fen_of E g') [] (Some cur) main)
    ncur Hc) as [_ Hext].
  assert (fen_of E g = MoveNode.fen ncur) as Hg.
  { destruct Hs as [Hs | ->]; [done |].
    destruct (Hpos _ _ Hc) as [[g0 Hg0] _]. by rewrite <- Hg0. }
  destruct (lookup_attach_inv _ _ _ _ _ _ Hc Hcn) as [[-> ->] | [[-> ->] | (Hne1 & Hne2 & Hc')]].
  - exists cur, (MoveNode.push (length H) ncur), m. simpl.
    split; [done |]. split; [by apply lookup_attach_cur |]. split; [done |].
    rewrite <- Hg. by eapply Hlaw.
  - destruct (Hsq _ _ Hc Hc0) as (p & np & m0 & Hp & Hnp & Hm0 & Happ).
    destruct (Hext p np Hnp) as (np' & Hnp' & Hle).
    exists p, np', m0. simpl. repeat (split; [done |]).
    destruct Hle as (_&_&_&->&_). done.
  - destruct (Hsq _ _ Hc' Hc0) as (p & np & m0 & Hp & Hnp & Hm0 & Happ).
    destruct (Hext p np Hnp) as (np' & Hnp' & Hle).
    exists p, np', m0. repeat (split; [done |]).
    destruct Hle as (_&_&_&->&_). done.
Qed.

Lemma grows_squares st st' :
  engine_laws E -> squares_law E ->
  grows E random st st' ->
  positions_ok E st.1 -> squares_ok E st.1 -> squares_ok E st'.1.
Proof.
  intros Hlaws Hlaw. induction 1 as [|x y z Hxy _ IH]; [done |]. intros Hpos Hsq.
  apply IH; [by apply (step_positions E random x) | by apply (step_squares x)].
Qed.

Lemma parsePgnToTree_squares (pgn : string) (w : nat) (H : Heap) (w' : nat) :
  engine_laws E -> squares_law E ->
  parsePgnToTree E random pgn w = Some (H, w') ->
  positions_ok E H /\ squares_ok E H.
Proof.
  intros Hlaws Hlaw Hparse.
  pose proof (parsePgnToTree_grows _ _ _ _ _ _ Hparse) as Hgrows.
  split.
  - apply (grows_positions _ _ _ _ Hlaws Hgrows (positions_root_heap E)).
  - apply (grows_squares _ _ Hlaws Hlaw Hgrows (positions_root_heap E)).
    intros c nc Hc Hc0. destruct c as [|c]; [done | by destruct c].
Qed.

End Squares.

Section Play.

Context (E : Engine) (H : Heap) (Hwf : wf_heap H).
Context (Hpos : positions_ok E H).

Implicit Types s : App E.

Lemma squares_ok_by_squares (c : handle) :
  squares_ok E H -> is_Some (H !! c) -> c <> 0 -> by_squares E H c.
Proof.
  intros Hsq [nc Hc] Hc0.
  destruct (Hsq c nc Hc Hc0) as (p & np & m & Hp & Hnp & Hm & Happ).
  by exists nc, p, np, m.
Qed.

Lemma run_line_app (players1 players2 : list bool) (line1 line2 : list handle) :
  length players1 = length line1 ->
  forall s,
    run_line E H (players1 ++ players2) (line1 ++ line2) s
    = run_line E H players1 line1 s ≫= run_line E H players2 line2.
Proof.
  revert line1. induction players1 as [|who players1 IH]; intros [|node line1] Hlen s;
    try done.
  simpl. destruct (H !! node ≫= MoveNode.move) as [m|]; [|done].
  destruct (if who then _ else _) as [s1|]; [|done].
  apply IH. simpl in Hlen. lia.
Qed.

(** One move of the target line, by either side: the node becomes the
    current node, its position the position of the game; at the end of
    the line the leaf is completed and the next line is scheduled. The
    move of the player has to be one that its squares play. *)
Lemma play_target (who : bool) s (node : handle) (n : MoveNode.t) (m : Move.t)
    (before : string) :
  moveTree s = Some H -> mode s = drill ->
  currentTargetLine s !! currentTargetIndex s = Some node ->
  H !! node = Some n -> MoveNode.move n = Some m ->
  applies E before m (MoveNode.fen n) ->
  (who = true -> squares_apply E before m (MoveNode.fen n)) ->
  fen_of E (game s) = before ->
  exists s1,
    (if who then handleMove (Move.from m) (Move.to m) s
     else playOpponentMove s) = Some s1 /\
    moveTree s1 = Some H /\ mode s1 = drill /\
    currentTargetLine s1 = currentTargetLine s /\
    currentTargetIndex s1 = currentTargetIndex s + 1 /\
    currentNode s1 = Some node /\
    fen_of E (game s1) = MoveNode.fen n /\
    (currentTargetIndex s + 1 <> length (currentTargetLine s) ->
     completedLines s1 = completedLines s) /\
    (currentTargetIndex s + 1 = length (currentTargetLine s) ->
     completedLines s1 = {[MoveNode.id n]} ∪ completedLines s /\
     (cb_startNextLine, 800) ∈ timeouts s1).
Proof.
  intros Htree Hmode Hnode Hn Hm Happ Hsq Hfen.
  apply lookup_lt_Some in Hnode as Hlt.
  destruct who.
  - destruct (Hsq eq_refl (game s) Hfen) as (m'' & g'' & Hplay & Hlan & Hg'').
    unfold handleMove. rewrite Hmode, Hplay. cbn zeta.
    unfold onTarget. fields. rewrite Hnode.
    unfold lanMatches. rewrite (tree_of E H) by exact Htree. rewrite Hn. simpl.
    rewrite Hm, Hlan, String.eqb_refl.
    case_decide as Hend; (eexists; split; [done |]); fields;
      repeat (split; [done || congruence |]).
    + intros _. rewrite (tree_of E H) by exact Htree.
      unfold idOf. rewrite Hn. split; [done |].
      apply elem_of_app. right. by left.
    + lia.
  - destruct (Happ (game s) Hfen) as (m' & g' & Hobject & Hg').
    unfold playOpponentMove.
    case_decide as Hidx; [lia |]. rewrite Hnode.
    rewrite (tree_of E H) by exact Htree. rewrite Hn. simpl. rewrite Hm, Hobject.
    cbn zeta. fields.
    case_decide as Hend; (eexists; split; [done |]); fields;
      repeat (split; [done || congruence |]).
    + intros _. rewrite (tree_of E H) by exact Htree.
      unfold idOf. rewrite Hn. split; [done |].
      apply elem_of_app. right. by left.
    + lia.
Qed.

(** The moves of a prefix of the target line, played from its start. *)
Lemma play_prefix (target : list handle) (c : handle) (line : list handle) :
  line_to H c line ->
  forall rest players s nc r,
    target = line ++ rest ->
    Forall2 (fun (who : bool) node => who = true -> by_squares E H node) players line ->
    moveTree s = Some H -> mode s = drill ->
    currentTargetLine s = target -> currentTargetIndex s = 0 ->
    H !! 0 = Some r -> fen_of E (game s) = MoveNode.fen r ->
    H !! c = Some nc ->
    exists s1,
      run_line E H players line s = Some s1 /\
      moveTree s1 = Some H /\ mode s1 = drill /\
      currentTargetLine s1 = target /\
      currentTargetIndex s1 = length line /\
      fen_of E (game s1) = MoveNode.fen nc /\
      (line <> [] -> currentNode s1 = Some c) /\
      (rest <> [] -> completedLines s1 = completedLines s) /\
      (rest = [] -> line <> [] ->
       completedLines s1 = {[MoveNode.id nc]} ∪ completedLines s /\
       (cb_startNextLine, 800) ∈ timeouts s1).
Proof.
  induction 1 as [|p line n c Hline IH Hp Hin];
    intros rest players s nc r Htarget Hplayers Htree Hmode Hcur Hidx Hr Hfen Hc.
  - apply Forall2_nil_inv_r in Hplayers as ->. exists s. simplify_eq.
    repeat (split; [done |]). done.
  - destruct (wf_down H Hwf _ _ _ Hp Hin) as (Hlt & nc' & Hnc' & Hpar).
    assert (nc' = nc) as -> by congruence.
    destruct (Hpos c nc Hc) as [_ Hmove].
    destruct Hmove as (p' & np' & m & Hpar' & Hnp' & Hm & _ & Happ); [lia |].
    assert (p' = p) as -> by congruence.
    assert (np' = n) as -> by congruence.
    apply Forall2_app_inv_r in Hplayers as (players' & final & Hplayers' & Hfinal & ->).
    apply Forall2_cons_inv_r in Hfinal as (who & nothing & Hwho & Hnothing & ->).
    apply Forall2_nil_inv_r in Hnothing as ->.
    pose proof (Forall2_length _ _ _ Hplayers') as Hlen.
    assert (who = true -> squares_apply E (MoveNode.fen n) m (MoveNode.fen nc)) as Hsq.
    { intros Htrue.
      destruct (Hwho Htrue) as (nc' & p' & np' & m' & Hc' & Hpar'' & Hnp'' & Hm' & Hsq).
      assert (nc' = nc) as -> by congruence.
      assert (p' = p) as -> by congruence.
      assert (np' = n) as -> by congruence.
      assert (m' = m) as -> by congruence. done. }
    destruct (IH ([c] ++ rest) players' s n r) as
      (s1 & Hrun & Htree1 & Hmode1 & Hcur1 & Hidx1 & Hfen1 & _ & Hdone1 & _);
      try done; [by rewrite Htarget, <- app_assoc |].
    assert (currentTargetLine s1 !! currentTargetIndex s1 = Some c) as Hnode.
    { rewrite Hcur1, Hidx1, Htarget, <- app_assoc. by apply list_lookup_middle. }
    destruct (play_target who s1 c nc m (MoveNode.fen n) Htree1 Hmode1 Hnode Hc Hm
                Happ Hsq Hfen1)
      as (s2 & Hstep & Htree2 & Hmode2 & Hcur2 & Hidx2 & Hnode2 & Hfen2 & Hsame & Hend).
    exists s2. rewrite run_line_app by lia. rewrite Hrun. simpl.
    rewrite Hc. simpl. rewrite Hm, Hstep.
    assert (length target = length line + 1 + length rest) as Htotal.
    { rewrite Htarget, !length_app. simpl. lia. }
    split; [done |]. split; [done |]. split; [done |]. split; [congruence |].
    split; [rewrite Hidx2, Hidx1, length_app; simpl; lia |].
    split; [done |]. split; [done |]. split.
    + intros Hrest. rewrite Hsame; [by apply Hdone1 |].
      rewrite Hcur1, Hidx1, Htotal. destruct rest; [done | simpl; lia].
    + intros -> _. destruct Hend as [Hdone2 Htimer].
      { rewrite Hcur1, Hidx1, Htotal. simpl. lia. }
      split; [|done]. rewrite Hdone2. by rewrite Hdone1.
Qed.

End Play.

(** X19. Under the contract of the engine on moves replayed as objects,
    once [startNextLine] has targeted a line of a parsed tree in drill
    mode, playing the moves of the line in order, each by the player on the
    board or by the callback of the opponent, ends at the last node of the
    line, provided that the squares of each move that the player has to
    make play that move (promoting to a queen): no handler throws, the last
    node is the current node, the game is at its position, its identity is
    added to the completed set and the next line is scheduled. *)
Theorem drill_line_completes (E : Engine) (random : nat -> string)
    (pgn : string) (w : nat) (H : Heap) (w' : nat) (s : App E)
    (leaf : handle) (nleaf : MoveNode.t) (line : list handle) (players : list bool) :
  engine_laws E ->
  parsePgnToTree E random pgn w = Some (H, w') ->
  moveTree s = Some H -> mode s = drill ->
  line_to H leaf line -> line <> [] -> H !! leaf = Some nleaf ->
  Forall2 (fun (who : bool) node => who = true -> by_squares E H node) players line ->
  exists s',
    run_line E H players line (targeting line s) = Some s' /\
    mode s' = drill /\
    currentNode s' = Some leaf /\
    currentTargetIndex s' = length line /\
    fen_of E (game s') = MoveNode.fen nleaf /\
    completedLines s' = {[MoveNode.id nleaf]} ∪ completedLines s /\
    (cb_startNextLine, 800) ∈ timeouts s'.
Proof.
  intros Hlaws Hparse Htree Hmode Hline Hne Hleaf Hplayers.
  pose proof (parsePgnToTree_wf _ _ _ _ _ _ Hparse) as Hwf.
  pose proof (parsePgnToTree_grows _ _ _ _ _ _ Hparse) as Hgrows.
  pose proof (grows_positions _ _ _ _ Hlaws Hgrows (positions_root_heap E)) as Hpos.
  destruct (grows_extends _ _ _ _ Hgrows) as [_ Hext]. simpl in Hext.
  destruct (Hext 0 (root_node E) eq_refl) as (r & Hr & Hle).
  assert (MoveNode.fen r = fen_of E (new_Chess E)) as Hfen.
  { by destruct Hle as (_&_&_&->&_). }
  destruct (play_prefix E H Hwf Hpos line leaf line Hline [] players
              (targeting line s) nleaf r)
    as (s' & Hrun & _ & Hmode' & _ & Hidx & Hgame & Hcur & _ & Hend);
    try done; [by rewrite app_nil_r |].
  destruct (Hend eq_refl Hne) as [Hdone Htimer].
  exists s'. repeat (split; [done |]). split; [by apply Hcur |]. done.
Qed.

(** The moves of the opening book can be played by their squares. *)
Lemma book_squares_law : squares_law Book.engine.
Proof.
  intros g token m g' Hmove g2 Hg2.
  change (Book.play (fun m0 => String.eqb (Move.san m0) token) g = Some (m, g')) in Hmove.
  change (exists m' g'',
             Book.play (fun m0 => String.eqb (Move.from m0) (Move.from m)
                                  && String.eqb (Move.to m0) (Move.to m)) g2
             = Some (m', g'') /\
             Move.lan m' = Move.lan m /\ Book.top g'' = Book.top g').
  change (Book.top g2 = Book.top g) in Hg2.
  apply book_play_inv in Hmove as (after & Hin & ->).
  unfold Book.play. rewrite Hg2. change (Book.top (after :: g)) with after.
  unfold Book.table in Hin |- *. cbn [In] in Hin.
  repeat (destruct Hin as [[= <- <- <-]|Hin]; [vm_compute; eauto |]).
  done.
Qed.

(** In the tree of "1. e4 (1. d4 d5) e5" the player, with the white
    pieces, plays e2-e4 on the board and the callback answers e7-e5. *)
Lemma drill_line_completes_book :
  exists s',
    run_line Book.engine Book.tree_variation [true; false] [1; 4]
      (targeting [1; 4] (Book.session Book.tree_variation [])) = Some s' /\
    mode s' = drill /\
    currentNode s' = Some 4 /\
    currentTargetIndex s' = length [1; 4] /\
    fen_of Book.engine (game s')
    = MoveNode.fen (node_of Book.engine Book.tally 3 Book.m_e5
                      [Book.e4e5; Book.e4; Book.start] [] 1 true) /\
    completedLines s'
    = {[MoveNode.id (node_of Book.engine Book.tally 3 Book.m_e5
                       [Book.e4e5; Book.e4; Book.start] [] 1 true)]}
      ∪ completedLines (Book.session Book.tree_variation []) /\
    (cb_startNextLine, 800) ∈ timeouts s'.
Proof.
  assert (parsePgnToTree Book.engine Book.tally "1. e4 (1. d4 d5) e5" 0
          = Some (Book.tree_variation, 4)) as Hparse by (by vm_compute).
  assert (squares_ok Book.engine Book.tree_variation) as Hsq.
  { apply (parsePgnToTree_squares Book.engine Book.tally _ _ _ _
             book_engine_laws book_squares_law Hparse). }
  apply (drill_line_completes Book.engine Book.tally "1. e4 (1. d4 d5) e5" 0
           Book.tree_variation 4 (Book.session Book.tree_variation []) 4
           (node_of Book.engine Book.tally 3 Book.m_e5
              [Book.e4e5; Book.e4; Book.start] [] 1 true) [1; 4] [true; false]).
  - apply book_engine_laws.
  - exact Hparse.
  - reflexivity.
  - reflexivity.
  - apply (line_child Book.tree_variation 1 [1]
             (node_of Book.engine Book.tally 0 Book.m_e4 [Book.e4; Book.start] [4] 0 true) 4);
      [| reflexivity | by left].
    apply (line_child Book.tree_variation 0 []
             (root_with Book.engine [1; 2]) 1); [apply line_root | reflexivity | by left].
  - discriminate.
  - reflexivity.
  - constructor; [|constructor; [discriminate | constructor]].
    intros _. apply (squares_ok_by_squares Book.engine); [exact Hsq | by eexists | lia].
Defined.

(** One call of [handleMove] that returns, when no squares play the move
    of the target node. *)
Lemma handleMove_off_target (E : Engine) (a b : App E) (target : handle) (m : Move.t)
    (orig dest : string) :
  currentTargetLine a !! currentTargetIndex a = Some target ->
  tree a !! target ≫= MoveNode.move = Some m ->
  (forall g orig dest m' g',
      move_squares E g orig dest = Some (m', g') -> Move.lan m' <> Move.lan m) ->
  handleMove orig dest a = Some b ->
  moveTree b = moveTree a /\ mode b = mode a /\
  currentTargetLine b = currentTargetLine a /\
  currentTargetIndex b = currentTargetIndex a /\
  (feedback b = Some correct -> feedback a = Some correct) /\
  (forall t, t ∈ timeouts b -> t.1 = cb_playOpponentMove -> t ∈ timeouts a).
Proof.
  intros Htarget Hm Hsquares Hrun. unfold handleMove in Hrun.
  destruct (mode a) eqn:Hmode.
  - destruct (move_squares E (game a) orig dest) as [[m' g']|]; [|done].
    injection Hrun as <-. by fields.
  - destruct (move_squares E (game a) orig dest) as [[m' g']|] eqn:Hmove; [|done].
    cbn zeta in Hrun.
    assert (onTarget m' (set_game g' a) = None) as Hoff.
    { unfold onTarget, lanMatches. fields. rewrite Htarget.
      change (tree (set_game g' a)) with (tree a). rewrite Hm.
      destruct (String.eqb_spec (Move.lan m) (Move.lan m')) as [Heq|]; [|done].
      by destruct (Hsquares _ _ _ _ _ Hmove). }
    rewrite Hoff in Hrun.
    assert (forall t (l : list (Callback * nat)) (extra : list (Callback * nat)),
              t ∈ filter (fun t0 => negb (is_clearFeedback t0)) l ++ extra ->
              t.1 = cb_playOpponentMove ->
              (forall e, e ∈ extra -> e.1 <> cb_playOpponentMove) -> t ∈ l) as Hkept.
    { intros t l extra [Hin | Hin]%elem_of_app Ht Hextra.
      - by apply list_elem_of_filter in Hin as [_ Hin].
      - by destruct (Hextra t Hin). }
    destruct (find _ _) as [matching|].
    + destruct (markVariationComplete _ _ _ _) as [completed|]; [|done].
      injection Hrun as <-. fields. repeat (split; [done |]).
      intros t Hin Ht. rewrite <- app_assoc in Hin.
      apply (Hkept t _ _ Hin Ht). intros e He.
      apply elem_of_cons in He as [-> | He]; [done |].
      by apply list_elem_of_singleton in He as ->.
    + injection Hrun as <-. fields. repeat (split; [done |]).
      intros t Hin Ht. apply (Hkept t _ _ Hin Ht). intros e He.
      by apply list_elem_of_singleton in He as ->.
Qed.

(** X26. [handleMove] passes [promotion: "q"] with the two squares. When
    no squares, played that way, give the move of the target node (in
    chess.js: the target is a promotion to a rook, a bishop or a knight),
    no sequence of moves on the board gets the player past it: the target
    line and the target index stay as they are, the feedback never becomes
    "correct" and no answer of the opponent is scheduled. *)
Theorem underpromotion_never_accepted (E : Engine) (s s' : App E)
    (target : handle) (m : Move.t) :
  currentTargetLine s !! currentTargetIndex s = Some target ->
  tree s !! target ≫= MoveNode.move = Some m ->
  (forall g orig dest m' g',
      move_squares E g orig dest = Some (m', g') -> Move.lan m' <> Move.lan m) ->
  rtc (fun a b => exists orig dest, handleMove orig dest a = Some b) s s' ->
  moveTree s' = moveTree s /\ mode s' = mode s /\
  currentTargetLine s' = currentTargetLine s /\
  currentTargetIndex s' = currentTargetIndex s /\
  (feedback s' = Some correct -> feedback s = Some correct) /\
  (forall t, t ∈ timeouts s' -> t.1 = cb_playOpponentMove -> t ∈ timeouts s).
Proof.
  intros Htarget Hm Hsquares Hrun. revert Htarget Hm.
  induction Hrun as [a | a b c (orig & dest & Hstep) _ IH]; intros Htarget Hm; [done |].
  destruct (handleMove_off_target E a b target m orig dest Htarget Hm Hsquares Hstep)
    as (Htree & Hmode & Hline & Hidx & Hfb & Htimers).
  destruct IH as (Htree' & Hmode' & Hline' & Hidx' & Hfb' & Htimers').
  { by rewrite Hline, Hidx. }
  { unfold tree in *. by rewrite Htree. }
  repeat (split; [congruence |]). split; [auto |].
  intros t Hin Ht. apply Htimers; [by apply Htimers' | done].
Qed.

(** In the engine with the promotion, the squares e7 and e8 play the
    promotion to the queen, whatever the game: in a drill of "1. e8=N" the
    move e7-e8 gets the feedback "wrong". *)
Lemma underpromotion_never_accepted_promo :
  exists s',
    handleMove "e7" "e8" Promo.session = Some s' /\
    feedback s' = Some wrong /\
    moveTree s' = moveTree Promo.session /\ mode s' = mode Promo.session /\
    currentTargetLine s' = currentTargetLine Promo.session /\
    currentTargetIndex s' = currentTargetIndex Promo.session /\
    (feedback s' = Some correct -> feedback Promo.session = Some correct) /\
    (forall t, t ∈ timeouts s' -> t.1 = cb_playOpponentMove -> t ∈ timeouts Promo.session).
Proof.
  destruct (handleMove "e7" "e8" Promo.session) as [s'|] eqn:Hstep; [|by vm_compute in Hstep].
  exists s'. split; [done |]. split.
  { vm_compute in Hstep. by injection Hstep as <-. }
  apply (underpromotion_never_accepted Promo.engine Promo.session s' 1 Promo.m_N).
  - reflexivity.
  - reflexivity.
  - intros g orig dest m' g' Hmove.
    change (Promo.play (fun m0 => String.eqb (Move.from m0) orig
                                  && String.eqb (Move.to m0) dest) g = Some (m', g'))
      in Hmove.
    unfold Promo.play, Promo.table in Hmove. cbn [find fst snd] in Hmove.
    change (Move.from Promo.m_N) with (Move.from Promo.m_Q) in Hmove.
    change (Move.to Promo.m_N) with (Move.to Promo.m_Q) in Hmove.
    destruct (String.eqb Promo.start (Promo.top g)
              && (String.eqb (Move.from Promo.m_Q) orig
                  && String.eqb (Move.to Promo.m_Q) dest)); [|done].
    by injection Hmove as <- _.
  - apply rtc_once. by exists "e7", "e8".
Defined.

(** ** The studies of the page *)

Section Studies.

Context (E : Engine) (random : nat -> string).

Lemma loadStudyTree_returns (study : Study.t) (p : Page.t E) :
  exists tree w' leaves,
    parsePgnToTree E random (Study.pgn study) (Page.calls p) = Some (tree, w') /\
    getLeafNodes tree 0 = Some leaves /\ leaves <> [] /\
    Page.loadStudyTree E random study p
    = Some (Page.mk
              (resetBoard (set_completedLines ∅ (set_currentNode None
                 (set_moveTree (Some tree) (Page.app p)))))
              (Page.studies p) (Page.currentStudy p) (length leaves) w').
Proof.
  destruct (parsePgnToTree_total E random (Study.pgn study) (Page.calls p))
    as [[tree w'] Hparse].
  pose proof (parsePgnToTree_wf _ _ _ _ _ _ Hparse) as Hwf.
  destruct (wf_root tree Hwf) as (r & Hr & _).
  destruct (getLeafNodes_fuel_total tree Hwf (length tree) 0) as [leaves Hleaves];
    [by eexists | lia |].
  exists tree, w', leaves. split; [done |]. split; [done |]. split.
  - destruct (getLeafNodes_fuel_head tree (length tree) 0 leaves Hleaves)
      as (? & ? & -> & _).
    done.
  - unfold Page.loadStudyTree. rewrite Hparse. unfold getLeafNodes. by rewrite Hleaves.
Qed.

End Studies.

(** X20. [handleCreateStudy] returns with the new study appended, selected
    and loaded in edit mode with nothing completed. Deleting this study
    then closes it: no current study, no tree, no current node; the list is
    as before the creation exactly when the identity was not in use.
    Deleting a study that is not the current one leaves the session as it
    is. *)
Theorem create_then_delete (E : Engine) (random : nat -> string) (now : Z)
    (name pgn : string) (color : PlayerColor) (p : Page.t E) :
  let study := Study.mk (random (Page.calls p)) name pgn color now now in
  exists p1 tree,
    Page.handleCreateStudy E random now name pgn color p = Some p1 /\
    Page.studies p1 = Page.studies p ++ [study] /\
    Page.currentStudy p1 = Some study /\
    moveTree (Page.app p1) = Some tree /\
    (exists w', parsePgnToTree E random pgn (S (Page.calls p)) = Some (tree, w')) /\
    mode (Page.app p1) = edit /\
    playerColor (Page.app p1) = color /\
    completedLines (Page.app p1) = ∅ /\
    currentNode (Page.app p1) = None /\
    1 <= Page.totalLines p1 /\
    (let p2 := Page.handleDeleteStudy E (Study.id study) p1 in
     Page.currentStudy p2 = None /\
     moveTree (Page.app p2) = None /\
     currentNode (Page.app p2) = None /\
     (Page.studies p2 = Page.studies p
      <-> List.Forall (fun s => Study.id s <> random (Page.calls p)) (Page.studies p))) /\
    (forall id, id <> Study.id study ->
       Page.app (Page.handleDeleteStudy E id p1) = Page.app p1 /\
       Page.currentStudy (Page.handleDeleteStudy E id p1) = Some study).
Proof.
  cbn zeta. unfold Page.handleCreateStudy, createStudy, generateId, Page.selectStudy.
  cbn [Page.app Page.studies Page.currentStudy Page.totalLines Page.calls
       Study.defaultColor].
  destruct (loadStudyTree_returns E random
              (Study.mk (random (Page.calls p)) name pgn color now now)
              (Page.mk (set_playerColor color (Page.app p))
                 (Page.studies p ++ [Study.mk (random (Page.calls p)) name pgn color now now])
                 (Some (Study.mk (random (Page.calls p)) name pgn color now now))
                 (Page.totalLines p) (S (Page.calls p))))
    as (tree & w' & leaves & Hparse & Hleaves & Hne & ->).
  cbn [Page.app Page.studies Page.currentStudy Page.totalLines Page.calls Study.pgn]
    in *.
  eexists _, tree. split; [done |].
  cbn [Page.app Page.studies Page.currentStudy Page.totalLines Page.calls].
  split; [done |]. split; [done |]. split; [done |]. split; [by exists w' |].
  split; [done |]. split; [done |]. split; [done |]. split; [done |].
  split; [destruct leaves; [done | simpl; lia] |].
  unfold Page.handleDeleteStudy, Page.isCurrent.
  cbn [Page.app Page.studies Page.currentStudy Page.totalLines Page.calls Study.id].
  split.
  - rewrite String.eqb_refl.
    cbn [Page.app Page.studies Page.currentStudy Page.totalLines Page.calls].
    split; [done |]. split; [done |]. split; [done |].
    unfold deleteStudy. rewrite List.filter_app. simpl.
    rewrite String.eqb_refl. simpl. rewrite app_nil_r.
    apply deleteStudy_all.
  - intros id Hid. apply String.eqb_neq in Hid. rewrite String.eqb_sym in Hid.
    cbn [Study.id] in Hid. by rewrite Hid.
Qed.

(** X21. [handleUpdateStudy] with the current study, changed or not, parses
    its text again: the tree is replaced by a new one, the completed set
    is emptied and the current node dropped, while the mode and the target
    line of the drill stay as they were. With another study the session is
    untouched. *)
Theorem update_reloads_current (E : Engine) (random : nat -> string) (now : Z)
    (study : Study.t) (p : Page.t E) :
  exists p',
    Page.handleUpdateStudy E random now study p = Some p' /\
    Page.studies p' = handleUpdateStudy now (Page.studies p) study /\
    if Page.isCurrent E (Study.id study) p then
      exists tree,
        parsePgnToTree E random (Study.pgn study) (Page.calls p)
        = Some (tree, Page.calls p') /\
        Page.currentStudy p' = Some study /\
        moveTree (Page.app p') = Some tree /\
        completedLines (Page.app p') = ∅ /\
        currentNode (Page.app p') = None /\
        playerColor (Page.app p') = Study.defaultColor study /\
        mode (Page.app p') = mode (Page.app p) /\
        currentTargetLine (Page.app p') = currentTargetLine (Page.app p) /\
        currentTargetIndex (Page.app p') = currentTargetIndex (Page.app p) /\
        1 <= Page.totalLines p'
    else
      Page.app p' = Page.app p /\ Page.currentStudy p' = Page.currentStudy p /\
      Page.totalLines p' = Page.totalLines p /\ Page.calls p' = Page.calls p.
Proof.
  unfold Page.handleUpdateStudy.
  change (Page.isCurrent E (Study.id study)
            (Page.mk (Page.app p) (handleUpdateStudy now (Page.studies p) study)
               (Page.currentStudy p) (Page.totalLines p) (Page.calls p)))
    with (Page.isCurrent E (Study.id study) p).
  destruct (Page.isCurrent E (Study.id study) p); [|by eexists].
  cbn zeta. cbn [Page.app Page.studies Page.currentStudy Page.totalLines Page.calls].
  destruct (loadStudyTree_returns E random study
              (Page.mk (Page.app p) (handleUpdateStudy now (Page.studies p) study)
                 (Some study) (Page.totalLines p) (Page.calls p)))
    as (tree & w' & leaves & Hparse & Hleaves & Hne & ->).
  cbn [Page.app Page.studies Page.currentStudy Page.totalLines Page.calls] in *.
  eexists. split; [done |].
  cbn [Page.app Page.studies Page.currentStudy Page.totalLines Page.calls].
  split; [done |]. exists tree. repeat (split; [done |]).
  destruct leaves; [done | simpl; lia].
Qed.

(** ** Move numbers *)

Section Numbers.

Context (H : Heap) (Hwf : wf_heap H).

(** The loop of [getMoveNumber] counts the depth of the node. *)
Lemma depth_fuel_spec (c d : nat) :
  at_depth H c d ->
  forall fuel acc, c < fuel -> depth_fuel H fuel (Some c) acc = Some (acc + d).
Proof.
  induction 1 as [|p n c d _ IH Hp Hin]; intros fuel acc Hfuel.
  - destruct (wf_root H Hwf) as (r & Hr & Hpar & _).
    destruct fuel as [|fuel]; [lia |]. simpl. rewrite Hr, Hpar. f_equal. lia.
  - destruct (wf_down H Hwf _ _ _ Hp Hin) as (Hlt & nc & Hnc & Hpar).
    destruct fuel as [|fuel]; [lia |]. simpl. rewrite Hnc, Hpar.
    rewrite IH by lia. f_equal. lia.
Qed.

End Numbers.

(** X22. For a node of a parsed tree other than the root, at depth [d],
    [getMoveNumber] returns the number of the full move, the depth halved
    and rounded up: followed by one dot for a move of White; followed by
    three dots for a move of Black that is not the first child of its
    parent or is at depth 1; and nothing for the other moves of Black. For
    the root it returns the empty text. *)
Theorem getMoveNumber_depth (E : Engine) (random : nat -> string)
    (pgn : string) (w : nat) (white_move : handle -> bool) :
  exists H w',
    parsePgnToTree E random pgn w = Some (H, w') /\
    getMoveNumber H white_move 0 = Some EmptyString /\
    forall c nc d p np,
      H !! c = Some nc -> c <> 0 -> at_depth H c d ->
      MoveNode.parent nc = Some p -> H !! p = Some np ->
      getMoveNumber H white_move c
      = Some (if white_move c then decimal (Nat.div2 (S d)) +:+ "."
              else if negb (bool_decide (head (MoveNode.children np) = Some c))
                      || (d =? 1)%nat
                   then decimal (Nat.div2 (S d)) +:+ "..."
                   else EmptyString).
Proof.
  destruct (parsePgnToTree_total E random pgn w) as [[H w'] Hparse].
  pose proof (parsePgnToTree_wf _ _ _ _ _ _ Hparse) as Hwf.
  exists H, w'. split; [done |]. split.
  - destruct (wf_root H Hwf) as (r & Hr & _ & Hmove).
    unfold getMoveNumber. by rewrite Hr, Hmove.
  - intros c nc d p np Hc Hc0 Hd Hpar Hp.
    destruct (wf_up H Hwf c nc Hc Hc0) as ([m Hm] & _).
    unfold getMoveNumber. rewrite Hc, Hm.
    rewrite (depth_fuel_spec H Hwf c d Hd) by (apply lookup_lt_Some in Hc; lia).
    cbn zeta. change (0 + d) with d.
    unfold isFirstInVariation, childrenOf. rewrite Hpar, Hp. simpl.
    destruct (white_move c); [done |].
    by destruct (negb _ || _).
Qed.

(** ** The parser and the structure of the move text *)

Lemma depth_after_app (l k : list string) :
  forall d, depth_after d (l ++ k) = depth_after d l ≫= fun d' => depth_after d' k.
Proof.
  induction l as [|t l IH]; intros d; [done |]. simpl.
  destruct (decide (t = "(")); [apply IH |].
  destruct (decide (t = ")")); [|apply IH].
  destruct d; [done | apply IH].
Qed.

(** The parentheses of a structured text match. *)
Lemma depth_after_flatten (n : nat) :
  forall items, length (flatten items) <= n -> Forall item_ok items ->
    forall d, depth_after d (flatten items) = Some d.
Proof.
  induction n as [|n IH]; intros items Hsize Hok d.
  - destruct items as [|[t|body] items]; [done | |]; simpl in Hsize; lia.
  - destruct items as [|it items]; [done |].
    apply Forall_cons in Hok as [Hit Hok].
    unfold flatten in *. cbn [List.flat_map] in *. rewrite length_app in Hsize.
    rewrite depth_after_app.
    assert (depth_after d (flatten_item it) = Some d) as ->.
    { destruct it as [t|body].
      - inversion Hit as [? [Hopen Hclose]|]; subst. simpl.
        destruct (decide (t = "(")); [done |]. by destruct (decide (t = ")")).
      - inversion Hit as [|? Hbody]; subst. cbn [flatten_item] in *.
        cbn [length] in Hsize. rewrite length_app in Hsize. simpl in Hsize.
        change (depth_after d ("(" :: ?l)) with (depth_after (S d) l).
        rewrite depth_after_app, (IH body) by (done || lia). simpl.
        done. }
    assert (1 <= length (flatten_item it)) by (destruct it; simpl; lia).
    simpl. apply IH; [lia | done].
Qed.

Lemma findClose_body (body rest : list string) (j : nat) :
  balanced body -> findClose (body ++ ")" :: rest) j 1 = j + length body + 1.
Proof.
  intros Hbal.
  pose proof (findClose_through body (")" :: rest) j 0 0 0 Hbal) as Hscan.
  change (S (0 + 0)) with 1 in Hscan. rewrite Hscan.
  change (findClose (")" :: rest) ?a 1) with (findClose rest (a + 1) 0).
  by rewrite findClose_zero.
Qed.

Lemma length_flatten (items : list Item) : length items <= length (flatten items).
Proof.
  induction items as [|it items IH]; [done |].
  unfold flatten in *. cbn [List.flat_map]. rewrite length_app. simpl.
  destruct it; simpl; lia.
Qed.

Section Structural.

Context (E : Engine) (random : nat -> string).

Lemma buildTree_loop_end (fuel : nat) (tokens : list string) (i : nat)
    (cur : handle) (g : Game E) (main : bool) (H : Heap) (w : nat) :
  0 < fuel -> length tokens <= i ->
  buildTree_loop E random fuel tokens i cur g main H w = Some (i, H, w).
Proof.
  intros Hfuel Hi. destruct fuel as [|fuel]; [lia |]. simpl.
  by rewrite lookup_ge_None_2.
Qed.

(** The loop over a structured text does what the recursion on its
    structure does, and goes on after it. *)
Lemma buildTree_loop_items (n : nat) :
  forall items, length (flatten items) <= n -> Forall item_ok items ->
  forall fuel tokens i rest cur ncur g main H w,
    drop i tokens = flatten items ++ rest ->
    wf_heap H -> H !! cur = Some ncur -> sits E (MoveNode.fen ncur) g ->
    length tokens - i < fuel ->
    buildTree_loop E random fuel tokens i cur g main H w
    = (let '(cur', g', H', w') := build_items E random main items (cur, g, H, w) in
       buildTree_loop E random (fuel - length items) tokens
         (i + length (flatten items)) cur' g' main H' w').
Proof.
  induction n as [|n IH];
    intros items Hsize Hok fuel tokens i rest cur ncur g main H w Hdrop Hwf Hc Hs Hfuel.
  { destruct items as [|[t|body] items]; [|simpl in Hsize; lia..].
    simpl. by rewrite Nat.sub_0_r, Nat.add_0_r. }
  destruct items as [|it items].
  { simpl. by rewrite Nat.sub_0_r, Nat.add_0_r. }
  apply Forall_cons in Hok as [Hit Hok].
  unfold flatten in Hsize, Hdrop. cbn [List.flat_map] in Hsize, Hdrop.
  fold (flatten items) in Hsize, Hdrop. rewrite length_app in Hsize.
  destruct fuel as [|fuel]; [lia |].
  assert (i < length tokens) as Hi.
  { destruct (decide (i < length tokens)); [done |].
    rewrite drop_ge in Hdrop by lia. destruct it; done. }
  destruct it as [t|body].
  - (* a move *)
    inversion Hit as [? [Hopen Hclose]|]; subst.
    cbn [flatten_item app] in Hdrop. simpl in Hsize.
    assert (tokens !! i = Some t) as Ht.
    { rewrite <- (Nat.add_0_r i), <- lookup_drop, Hdrop. done. }
    assert (drop (i + 1) tokens = flatten items ++ rest) as Hdrop'.
    { rewrite Nat.add_1_r. rewrite (drop_S tokens t i Ht) in Hdrop.
      by simplify_eq. }
    cbn [buildTree_loop]. rewrite Ht.
    destruct (decide (t = "(")) as [?|_]; [done |].
    destruct (decide (t = ")")) as [?|_]; [done |].
    unfold build_items. cbn [fold_left build_item build_move].
    fold (build_items E random main items).
    replace (i + length (flatten (Mv t :: items))) with (i + 1 + length (flatten items))
      by (unfold flatten; simpl; lia).
    cbn [length]. replace (S fuel - S (length items)) with (fuel - length items) by lia.
    destruct (negb (truthy t)).
    + eapply (IH items); [lia | done | exact Hdrop' | done | exact Hc | done | lia].
    + destruct (move_text E g t) as [[m g']|] eqn:Hmove.
      * cbn [generateId]. eapply (IH items); [lia | done | exact Hdrop' | | | | lia].
        -- by eapply wf_attach.
        -- apply lookup_attach_new. by eapply lookup_lt_Some.
        -- by left.
      * eapply (IH items); [lia | done | exact Hdrop' | done | exact Hc | done | lia].
  - (* a variation *)
    inversion Hit as [|? Hbody]; subst.
    cbn [flatten_item] in Hdrop, Hsize. fold (flatten body) in Hdrop, Hsize.
    cbn [length] in Hsize. rewrite length_app in Hsize. simpl in Hsize.
    assert (tokens !! i = Some "(") as Ht.
    { rewrite <- (Nat.add_0_r i), <- lookup_drop, Hdrop. done. }
    assert (drop (i + 1) tokens = flatten body ++ ")" :: flatten items ++ rest) as Hdrop1.
    { rewrite Nat.add_1_r. rewrite (drop_S tokens "(" i Ht) in Hdrop.
      cbn [app] in Hdrop. injection Hdrop as ->. by rewrite <- !app_assoc. }
    assert (balanced (flatten body)) as Hbal.
    { apply (depth_after_flatten n); [lia | done]. }
    assert (findClose (drop (i + 1) tokens) (i + 1) 1 = i + length (flatten body) + 2) as Hj.
    { rewrite Hdrop1, findClose_body by done. lia. }
    assert (slice tokens (i + 1) (i + length (flatten body) + 2 - 1) = flatten body)
      as Hslice.
    { unfold slice. rewrite Hdrop1.
      replace (i + length (flatten body) + 2 - 1 - (i + 1)) with (length (flatten body))
        by lia.
      by rewrite take_app_length. }
    assert (drop (i + length (flatten body) + 2) tokens = flatten items ++ rest) as Hdrop2.
    { replace (i + length (flatten body) + 2) with ((i + 1) + (length (flatten body) + 1))
        by lia.
      rewrite <- drop_drop, Hdrop1.
      rewrite drop_app_add' by done. done. }
    assert (length (flatten body) + 2 <= length tokens - i) as Hroom.
    { rewrite <- length_drop, Hdrop. simpl. rewrite !length_app. simpl. lia. }
    cbn [buildTree_loop]. rewrite Ht.
    destruct (decide ("(" = "(")) as [_|?]; [|done].
    cbn zeta. rewrite Hj, Hslice.
    unfold build_items. cbn [fold_left build_item].
    fold (build_items E random main items).
    replace (i + length (flatten (Var body :: items)))
      with (i + length (flatten body) + 2 + length (flatten items))
      by (unfold flatten; simpl; rewrite !length_app; simpl; lia).
    cbn [length]. replace (S fuel - S (length items)) with (fuel - length items) by lia.
    rewrite Hc. cbn [mbind option_bind].
    destruct (MoveNode.parent ncur) as [branchPoint|] eqn:Hpar.
    + destruct (wf_parent_lt H cur branchPoint ncur Hwf Hc Hpar) as [_ [bp Hbp]].
      rewrite Hbp.
      pose proof (IH body ltac:(fold (flatten body); lia) Hbody fuel (flatten body) 0 []
                    branchPoint bp (load_fen E (MoveNode.fen bp)) false H w
                    ltac:(by rewrite app_nil_r) Hwf Hbp (or_intror eq_refl)
                    ltac:(lia)) as Hinner.
      fold (build_items E random false body
              (branchPoint, load_fen E (MoveNode.fen bp), H, w)).
      destruct (build_items E random false body
                  (branchPoint, load_fen E (MoveNode.fen bp), H, w))
        as [[[cur1 g1] H1] w1] eqn:Hbuilt.
      rewrite (buildTree_loop_end (fuel - length body) _ (0 + length (flatten body)))
        in Hinner; [| pose proof (length_flatten body); lia | lia].
      pose proof Hinner as Hrun. fold (build_items E random main items).
      rewrite Hinner.
      pose proof (buildTree_loop_grows E random _ _ _ _ _ _ _ _ _ _ _ _ Hbp
                    (or_intror eq_refl) Hrun) as Hgrows.
      destruct (grows_extends _ _ _ _ Hgrows) as [_ Hext]. simpl in Hext.
      destruct (Hext cur ncur Hc) as (ncur1 & Hc1 & Hle).
      eapply (IH items); [lia | done | exact Hdrop2 | | exact Hc1 | | lia].
      * by apply (grows_wf _ _ _ _ Hgrows).
      * destruct Hle as (_&_&_&->&_). done.
    + eapply (IH items); [lia | done | exact Hdrop2 | done | exact Hc | done | lia].
Qed.

End Structural.

(** X23. On a move text whose parentheses are matched, the parser is a
    recursion on the structure of the text. When the tokens of the cleaned
    text are the flattening of a list of items (an item is a move token or a
    parenthesised list of items), [parsePgnToTree] returns the heap and the
    generator state that [build_items] computes from the root: a move token
    that the engine accepts adds a child under the current node and goes on
    from it, a refused or empty token changes nothing, and a variation is
    built, as a side line, from the parent of the current node at the
    position of that parent, after which the main walk goes on from the
    node and the game it had before the variation (a variation where the
    current node is the root is skipped whole). The index arithmetic of the
    loop and the search for the closing parenthesis play no part in the
    result. *)
Theorem parsePgnToTree_structural (E : Engine) (random : nat -> string)
    (pgn : string) (items : list Item) (w : nat) :
  Forall item_ok items ->
  tokenize (cleanPgn pgn) = flatten items ->
  parsePgnToTree E random pgn w
  = (let '(_, _, H', w') :=
       build_items E random true items (0, new_Chess E, [root_node E], w) in
     Some (H', w')).
Proof.
  intros Hok Htok. unfold parsePgnToTree. cbn zeta.
  destruct (cleanPgn pgn) as [|c clean] eqn:Hclean.
  - cbn [truthy negb].
    assert (items = []) as ->.
    { pose proof (length_flatten items) as Hlen. rewrite <- Htok in Hlen.
      destruct items; [done | simpl in Hlen; lia]. }
    done.
  - cbn [truthy negb]. rewrite Htok. unfold buildTree.
    rewrite (buildTree_loop_items E random (length (flatten items)) items
               (le_n _) Hok _ (flatten items) 0 [] 0 (root_node E));
      [| by rewrite app_nil_r | apply wf_root_heap | done | by left | lia].
    destruct (build_items E random true items (0, new_Chess E, [root_node E], w))
      as [[[cur g] H] w'].
    rewrite buildTree_loop_end; [done | | lia].
    pose proof (length_flatten items). lia.
Qed.

(** In the opening book, "1. e4 (1. d4 d5) e5" is the move e4, the
    variation d4 d5 and the move e5. *)
Lemma parsePgnToTree_structural_book :
  parsePgnToTree Book.engine Book.tally "1. e4 (1. d4 d5) e5" 0
  = (let '(_, _, H', w') :=
       build_items Book.engine Book.tally true
         [Mv "e4"; Var [Mv "d4"; Mv "d5"]; Mv "e5"]
         (0, new_Chess Book.engine, [root_node Book.engine], 0) in
     Some (H', w')).
Proof.
  apply (parsePgnToTree_structural Book.engine Book.tally "1. e4 (1. d4 d5) e5"
           [Mv "e4"; Var [Mv "d4"; Mv "d5"]; Mv "e5"] 0).
  - repeat first [ apply Forall_cons_2 | apply Forall_nil_2
                 | apply ok_var | apply ok_mv; split; discriminate ].
  - reflexivity.
Defined.
